(** * The GraphQL mirror of sourcecred ([src/graphql/mirror.js])

    A shallow embedding of the [Mirror] class: its SQLite store, the
    transaction helper [_inTransaction], the constructor's [_initialize],
    [registerObject], [_createUpdate], [findOutdated], [_getEndCursor],
    [_queryShallow], [_queryConnection] and [_updateConnection], followed by
    the properties of the specification that concern them.

    JavaScript strings are modelled by [string], which holds the UTF-8
    encoding of the string, the form in which SQLite stores TEXT; strings
    with a lone surrogate, which have no such encoding, are left out. SQLite
    INTEGER values and JavaScript integers are modelled by [Z], SQL NULL and
    JavaScript [null]/[undefined] by [None] at the places where the code
    distinguishes them, and JavaScript objects used as dictionaries by
    association lists in insertion order.

    The database engine is modelled as far as the mirror's statements need
    it: tables are lists of rows in insertion order, a statement that
    violates a PRIMARY KEY, UNIQUE or FOREIGN KEY constraint of the CREATE
    TABLE statements throws and changes nothing, and a transaction keeps the
    contents to roll back to. Row ids and timestamps are unbounded integers:
    the 64-bit limit of SQLite and invalid [Date]s are left out. *)

From Stdlib Require Import ZArith String Ascii List Lia Permutation.
From stdpp Require Import base tactics option list list_numbers sorting strings
  relations.

Open Scope Z_scope.

(** ** JavaScript objects used as dictionaries *)

Module Js.

(** A dictionary: its entries in insertion order, which is the order of
    [Object.keys] for keys that are not array indices. JavaScript keeps the
    keys of an object distinct, which is the predicate [wf]; on such a
    dictionary, a loop over [Object.keys(o)] that reads [o[k]] visits the
    entries one by one. *)
Abbreviation Dict V := (list (string * V)) (only parsing).

(** [Object.keys(o)]. *)
Definition keys {V} (o : Dict V) : list string := o.*1.

(** [o[k]] for a key [k] that [Object.keys(o)] gave, and the own property
    [k] of [o] in general, with [None] when [o] has none. *)
Fixpoint get {V} (k : string) (o : Dict V) : option V :=
  match o with
  | [] => None
  | (k', v) :: o' => if decide (k' = k) then Some v else get k o'
  end.

(** The names of the properties of [Object.prototype], which an object
    written as a literal, or built from one, inherits. *)
Definition prototype_keys : list string :=
  [ "constructor"; "__defineGetter__"; "__defineSetter__"; "hasOwnProperty";
    "__lookupGetter__"; "__lookupSetter__"; "isPrototypeOf";
    "propertyIsEnumerable"; "toString"; "valueOf"; "__proto__";
    "toLocaleString" ].

(** What [o[k]] gives for any string [k]: the own property, which hides an
    inherited one; else the inherited property, a function or, for
    [__proto__], the prototype, none of which is [null] or has a property
    [type]; else [undefined]. *)
Inductive Property (V : Type) : Type :=
| Own (v : V)
| Inherited
| Undefined.
Arguments Own {V} v.
Arguments Inherited {V}.
Arguments Undefined {V}.

Definition read {V} (k : string) (o : Dict V) : Property V :=
  match get k o with
  | Some v => Own v
  | None => if decide (k ∈ prototype_keys) then Inherited else Undefined
  end.

Definition wf {V} (o : Dict V) : Prop := NoDup (keys o).

#[global] Instance wf_dec {V} (o : Dict V) : Decision (wf o).
Proof. unfold wf. apply _. Defined.

End Js.

(** ** JSON text, as [JSON.stringify] and [json-stable-stringify] print it *)

Module Json.

(** The JSON values that occur in the mirror's metadata blob. *)
#[warnings="-register-all"]
Inductive t : Type :=
| Bool (b : bool)
| Str (s : string)
| Obj (entries : list (string * t)).

Definition hex_digit (n : N) : ascii :=
  ascii_of_N (if (n <? 10)%N then 48 + n else 87 + n)%N.

(** One character of a quoted string: the two-character escapes of
    ECMAScript's QuoteJSONString, [\u00xx] for the other control
    characters, and the character itself otherwise. *)
Definition escape_char (c : ascii) : string :=
  let n := N_of_ascii c in
  if (n =? 8)%N then "\b"
  else if (n =? 9)%N then "\t"
  else if (n =? 10)%N then "\n"
  else if (n =? 12)%N then "\f"
  else if (n =? 13)%N then "\r"
  else if (n =? 34)%N then String "\" (String c EmptyString)
  else if (n =? 92)%N then "\\"
  else if (n <? 32)%N then
    "\u00" +:+ String (hex_digit (n / 16)) (String (hex_digit (n mod 16)) EmptyString)
  else String c EmptyString.

Fixpoint escape (s : string) : string :=
  match s with
  | EmptyString => EmptyString
  | String c s' => escape_char c +:+ escape s'
  end.

Definition dquote : string := String (ascii_of_N 34) EmptyString.

(** [JSON.stringify(s)] for a string [s]. *)
Definition quote (s : string) : string := dquote +:+ escape s +:+ dquote.

(** The order in which [Array.prototype.sort] without a comparator puts
    keys: by UTF-16 code unit, shorter first on a common prefix. On the
    UTF-8 encodings this is the order of the bytes, except that a character
    above U+FFFF, a surrogate pair in UTF-16 and a lead byte F0 to F4 in
    UTF-8, comes before the characters U+E000 to U+FFFF, whose lead bytes
    are EE and EF. [code_unit_rank] moves the lead bytes accordingly. *)
Definition code_unit_rank (c : ascii) : ascii :=
  let n := N_of_ascii c in
  if (n =? 238)%N then ascii_of_N 243
  else if (n =? 239)%N then ascii_of_N 244
  else if ((240 <=? n) && (n <=? 244))%N then ascii_of_N (n - 2)
  else c.

Fixpoint sort_key (s : string) : string :=
  match s with
  | EmptyString => EmptyString
  | String c s' => String (code_unit_rank c) (sort_key s')
  end.

Definition key_le (p q : string * string) : Prop :=
  String.leb (sort_key p.1) (sort_key q.1) = true.

#[global] Instance key_le_dec p q : Decision (key_le p q).
Proof. unfold key_le. apply _. Defined.

Fixpoint join (sep : string) (parts : list string) : string :=
  match parts with
  | [] => EmptyString
  | [p] => p
  | p :: ps => p +:+ sep +:+ join sep ps
  end.

Definition member (p : string * string) : string := quote p.1 +:+ ":" +:+ p.2.

(** An object whose members are already printed: keys sorted, no spaces. *)
Definition print_object (members : list (string * string)) : string :=
  "{" +:+ join "," (member <$> merge_sort key_le members) +:+ "}".

(** [stringify] of json-stable-stringify with its default options. *)
Fixpoint stringify (j : t) : string :=
  match j with
  | Bool true => "true"
  | Bool false => "false"
  | Str s => quote s
  | Obj entries =>
      print_object
        ((fix members (es : list (string * t)) : list (string * string) :=
            match es with
            | [] => []
            | (k, v) :: es' => (k, stringify v) :: members es'
            end) entries)
  end.

End Json.

(** ** The GraphQL schema ([Schema.Schema]) *)

Definition Typename : Type := string.
Definition Fieldname : Type := string.
Definition ObjectId : Type := string.

(** Modelled from the spec: the module [./schema] is missing from the source
    tree. Section 3 of the specification gives a field as one of [ID],
    [Primitive], [Node(targetType)], [Connection(elementType)] and a type as
    an object (ordered mapping from field name to field) or a union (set of
    member type names); [mirror.js] dispatches on the tags ["OBJECT"],
    ["UNION"], ["ID"], ["PRIMITIVE"], ["NODE"], ["CONNECTION"] under the
    property [type] and reads the property [fields]. *)
Inductive FieldType : Type :=
| ID
| PRIMITIVE
| NODE (elementType : Typename)
| CONNECTION (elementType : Typename).

Inductive NodeType : Type :=
| OBJECT (fields : Js.Dict FieldType)
| UNION (clauses : Js.Dict unit).

Abbreviation Schema := (Js.Dict NodeType) (only parsing).

(** Modelled from the spec: the JSON shape of a schema, as far as the spec
    and the property accesses of [mirror.js] determine it; the property
    names [elementType] and [clauses] are those of the schema module. *)
Definition fieldToJson (f : FieldType) : Json.t :=
  match f with
  | ID => Json.Obj [("type", Json.Str "ID")]
  | PRIMITIVE => Json.Obj [("type", Json.Str "PRIMITIVE")]
  | NODE e => Json.Obj [("type", Json.Str "NODE"); ("elementType", Json.Str e)]
  | CONNECTION e =>
      Json.Obj [("type", Json.Str "CONNECTION"); ("elementType", Json.Str e)]
  end.

Definition nodeTypeToJson (n : NodeType) : Json.t :=
  match n with
  | OBJECT fields =>
      Json.Obj [("type", Json.Str "OBJECT");
                ("fields", Json.Obj (prod_map id fieldToJson <$> fields))]
  | UNION clauses =>
      Json.Obj [("type", Json.Str "UNION");
                ("clauses", Json.Obj (prod_map id (λ _, Json.Bool true) <$> clauses))]
  end.

Definition schemaToJson (s : Schema) : Json.t :=
  Json.Obj (prod_map id nodeTypeToJson <$> s).

(** Well-formed schemas: the keys of every dictionary are distinct. *)
Definition nodeType_wf (n : NodeType) : Prop :=
  match n with
  | OBJECT fields => Js.wf fields
  | UNION clauses => Js.wf clauses
  end.

Definition schema_wf (s : Schema) : Prop :=
  Js.wf s ∧ Forall (λ e, nodeType_wf e.2) s.

#[global] Instance nodeType_wf_dec n : Decision (nodeType_wf n).
Proof. destruct n; apply _. Defined.

#[global] Instance schema_wf_dec s : Decision (schema_wf s).
Proof. unfold schema_wf. apply _. Defined.

(** The schema of the tests ([buildGithubSchema]). *)
Definition githubSchema : Schema :=
  [ ("Repository", OBJECT [("id", ID); ("url", PRIMITIVE); ("issues", CONNECTION "Issue")]);
    ("Issue", OBJECT [("id", ID); ("url", PRIMITIVE); ("author", NODE "Actor");
                      ("parent", NODE "Repository"); ("title", PRIMITIVE);
                      ("comments", CONNECTION "IssueComment")]);
    ("IssueComment", OBJECT [("id", ID); ("body", PRIMITIVE); ("author", NODE "Actor")]);
    ("Actor", UNION [("User", tt); ("Bot", tt); ("Organization", tt)]);
    ("User", OBJECT [("id", ID); ("url", PRIMITIVE); ("login", PRIMITIVE)]);
    ("Bot", OBJECT [("id", ID); ("url", PRIMITIVE); ("login", PRIMITIVE)]);
    ("Organization", OBJECT [("id", ID); ("url", PRIMITIVE); ("login", PRIMITIVE)]) ].


(** ** Errors

    The mirror throws plain [Error] objects; the constructors below are the
    error kinds of the specification, and [message] is the text the code
    puts in the exception. [InvalidNodeType] is the error of the default
    branch of the switch over [nodeType.type] in
    [_nontransactionallyRegisterObject], [new Error(nodeType.type)] for a
    value without a property [type], whose message is empty. [Storage]
    stands for an [SqliteError] raised by a statement, with its code. *)
Inductive Error : Type :=
| AlreadyInTransaction
| IncompatibleSchema
| UnsafeTypeName (typename : Typename)
| UnsafeFieldName (fieldname : Fieldname)
| InconsistentType (id : ObjectId) (existingTypename typename : Typename)
| UnknownType (typename : Typename)
| AmbiguousType (typename : Typename)
| UnknownConnection (objectId : ObjectId) (fieldname : Fieldname)
| InvalidNodeType
| Storage (code : string).

Definition message (e : Error) : string :=
  match e with
  | AlreadyInTransaction => "already in transaction"
  | IncompatibleSchema =>
      "Database already populated with incompatible schema or version"
  | UnsafeTypeName typename => "invalid object type name: " +:+ typename
  | UnsafeFieldName fieldname => "invalid field name: " +:+ fieldname
  | InconsistentType id existingTypename typename =>
      "Inconsistent type for ID " +:+ Json.quote id +:+ ": " +:+
      "expected " +:+ Json.quote existingTypename +:+
      ", got " +:+ Json.quote typename
  | UnknownType typename => "Unknown type: " +:+ Json.quote typename
  | AmbiguousType typename =>
      "Cannot add object of union type " +:+ Json.quote typename +:+
      "; must specify the clause of the union"
  | UnknownConnection objectId fieldname =>
      "No such connection: " +:+ Json.quote objectId +:+ "." +:+ Json.quote fieldname
  | InvalidNodeType => EmptyString
  | Storage code => code
  end.

Inductive Result (A : Type) : Type :=
| Ok (a : A)
| Throw (e : Error).
Arguments Ok {A} a.
Arguments Throw {A} e.

(** ** The store

    Rows are kept in insertion order. Columns declared without NOT NULL are
    options. *)
Definition UpdateId : Type := Z.

Record UpdateRow : Type := mkUpdate {
  update_rowid : Z;
  time_epoch_millis : Z;
}.

Record ObjectRow : Type := mkObject {
  object_id_ : ObjectId;
  object_last_update : option UpdateId;
  object_typename : Typename;
}.

Record LinkRow : Type := mkLink {
  link_rowid : Z;
  parent_id : ObjectId;
  link_fieldname : Fieldname;
  link_child_id : option ObjectId;
}.

Record ConnectionRow : Type := mkConnection {
  connection_rowid : Z;
  object_id : ObjectId;
  fieldname : Fieldname;
  last_update : option UpdateId;
  total_count : option Z;
  has_next_page : option Z;
  end_cursor : option string;
}.

Record EntryRow : Type := mkEntry {
  entry_rowid : Z;
  connection_id : Z;
  idx : Z;
  child_id : ObjectId;
}.

(** The five structural tables. [_initialize] creates them, with their
    indices, in one transaction, and no other statement of the mirror creates
    or drops a table: a store has all of them or none. *)
Record Tables : Type := mkTables {
  updates : list UpdateRow;
  objects : list ObjectRow;
  links : list LinkRow;
  connections : list ConnectionRow;
  connection_entries : list EntryRow;
}.

Definition no_rows : Tables := mkTables [] [] [] [] [].

(** What the database file holds: the rows of [meta(zero, schema)] when the
    table exists, the structural tables when they exist, and the name and
    columns of each own-data table. *)
Record Store : Type := mkStore {
  meta : option (list (Z * string));
  tables : option Tables;
  data_tables : list (string * list string);
}.

Definition empty_store : Store := mkStore None None [].

(** A database handle: the current contents and, inside a transaction, the
    contents to which ROLLBACK returns. *)
Record Database : Type := mkDatabase {
  store : Store;
  txn : option Store;
}.

Definition inTransaction (db : Database) : bool := bool_decide (is_Some (txn db)).

Definition BEGIN (db : Database) : Database :=
  mkDatabase (store db) (Some (store db)).
Definition COMMIT (db : Database) : Database :=
  mkDatabase (store db) None.
Definition ROLLBACK (db : Database) : Database :=
  mkDatabase (default (store db) (txn db)) None.

(** ** SQL as the mirror uses it *)

Module Sql.

(** Three-valued conditions: [None] is NULL, and WHERE keeps a row only
    when its condition is true. *)
Definition lt (a b : option Z) : option bool :=
  match a, b with
  | Some x, Some y => Some (bool_decide (x < y))
  | _, _ => None
  end.

Definition is_null {A} (a : option A) : option bool :=
  Some (match a with Some _ => false | None => true end).

Definition truth (a : option Z) : option bool :=
  (λ n, bool_decide (n ≠ 0)) <$> a.

Definition or (a b : option bool) : option bool :=
  match a, b with
  | Some true, _ | _, Some true => Some true
  | Some false, Some false => Some false
  | _, _ => None
  end.

Definition holds (c : option bool) : bool :=
  match c with Some true => true | _ => false end.

(** MAX over a column: NULL on no rows. *)
Definition max (xs : list Z) : option Z :=
  match xs with
  | [] => None
  | x :: xs' => Some (foldr Z.max x xs')
  end.

(** The rowid an INSERT assigns to an INTEGER PRIMARY KEY left out of the
    statement: 1 in an empty table, one more than the largest otherwise. *)
Definition next_rowid (rowids : list Z) : Z := default 0 (max rowids) + 1.

(** Identifiers are matched without regard to ASCII case. *)
Definition fold_char (c : ascii) : ascii :=
  let n := N_of_ascii c in
  if ((65 <=? n) && (n <=? 90))%N then ascii_of_N (n + 32) else c.

Fixpoint fold_case (s : string) : string :=
  match s with
  | EmptyString => EmptyString
  | String c s' => String (fold_char c) (fold_case s')
  end.

Definition SQLITE_ERROR : Error := Storage "SQLITE_ERROR".
Definition SQLITE_CONSTRAINT_PRIMARYKEY : Error :=
  Storage "SQLITE_CONSTRAINT_PRIMARYKEY".
Definition SQLITE_CONSTRAINT_UNIQUE : Error :=
  Storage "SQLITE_CONSTRAINT_UNIQUE".
Definition SQLITE_CONSTRAINT_FOREIGNKEY : Error :=
  Storage "SQLITE_CONSTRAINT_FOREIGNKEY".

End Sql.

(** ** Code that runs statements and may throw

    [SE S A] is code that works on a state [S], returns an [A] or throws, and
    leaves a state behind in both cases. The state is the handle for code
    that controls transactions, the store for the statements of
    [_initialize], and the structural tables for the other statements. *)
Definition SE (S A : Type) : Type := S → Result A * S.

#[global] Instance SE_ret {S} : MRet (SE S) := λ A a s, (Ok a, s).
#[global] Instance SE_bind {S} : MBind (SE S) := λ A B k m s,
  match m s with
  | (Ok a, s') => k a s'
  | (Throw e, s') => (Throw e, s')
  end.

Definition throw {S A} (e : Error) : SE S A := λ s, (Throw e, s).

(** A SELECT. *)
Definition select {S A} (q : S → A) : SE S A := λ s, (Ok (q s), s).

(** An INSERT, UPDATE or CREATE; a statement that fails changes nothing. *)
Definition run {S A} (stmt : S → Result (A * S)) : SE S A := λ s,
  match stmt s with
  | Ok (a, s') => (Ok a, s')
  | Throw e => (Throw e, s)
  end.

(** [for (const x of xs) body(x)]. *)
Fixpoint for_of {S A} (xs : list A) (body : A → SE S unit) : SE S unit :=
  match xs with
  | [] => mret tt
  | x :: xs' => body x;; for_of xs' body
  end.

Definition exec {S A} (m : SE S A) (s : S) : S := (m s).2.
Definition eval {S A} (m : SE S A) (s : S) : Result A := (m s).1.

(** Statements prepared on a handle work on its store and do not begin or
    end a transaction. *)
Definition on_store {A} (m : SE Store A) : SE Database A := λ db,
  let '(r, s') := m (store db) in (r, mkDatabase s' (txn db)).

(** Statements on the structural tables fail when the tables do not
    exist. *)
Definition on_tables {A} (m : SE Tables A) : SE Database A :=
  on_store (λ s,
    match tables s with
    | Some t =>
        let '(r, t') := m t in (r, mkStore (meta s) (Some t') (data_tables s))
    | None => (Throw (Storage "SQLITE_ERROR"), s)
    end).

(** [_inTransaction(db, fn)]: the check precedes the [try], so a handle that
    is already in a transaction is left as it is. *)
Definition _inTransaction {R} (fn : SE Database R) : SE Database R := λ db,
  if inTransaction db then (Throw AlreadyInTransaction, db)
  else
    match fn (BEGIN db) with
    | (Ok result, db1) =>
        let db2 := if inTransaction db1 then COMMIT db1 else db1 in
        (Ok result, if inTransaction db2 then ROLLBACK db2 else db2)
    | (Throw e, db1) =>
        (Throw e, if inTransaction db1 then ROLLBACK db1 else db1)
    end.

(** [db.prepare("BEGIN").run()], [db.prepare("COMMIT").run()] and
    [db.prepare("ROLLBACK").run()], as a callback of [_inTransaction] may
    run them: SQLite refuses BEGIN inside a transaction, and COMMIT and
    ROLLBACK outside one. *)
Definition run_BEGIN : SE Database unit := λ db,
  if inTransaction db then (Throw Sql.SQLITE_ERROR, db) else (Ok tt, BEGIN db).

Definition run_COMMIT : SE Database unit := λ db,
  if inTransaction db then (Ok tt, COMMIT db) else (Throw Sql.SQLITE_ERROR, db).

Definition run_ROLLBACK : SE Database unit := λ db,
  if inTransaction db then (Ok tt, ROLLBACK db) else (Throw Sql.SQLITE_ERROR, db).

Definition set_tables (t : Tables) (db : Database) : Database :=
  mkDatabase (mkStore (meta (store db)) (Some t) (data_tables (store db))) (txn db).

(** *** The statements of [_initialize] *)

(** [CREATE TABLE IF NOT EXISTS meta (zero INTEGER PRIMARY KEY, schema TEXT NOT NULL)] *)
Definition create_meta_if_not_exists (s : Store) : Result (unit * Store) :=
  Ok (tt, mkStore (Some (default [] (meta s))) (tables s) (data_tables s)).

(** [SELECT schema FROM meta], plucked, first row. *)
Definition select_meta_schema (s : Store) : Result (option string * Store) :=
  match meta s with
  | Some rows => Ok (snd <$> head rows, s)
  | None => Throw Sql.SQLITE_ERROR
  end.

(** [INSERT INTO meta (zero, schema) VALUES (0, ?)] *)
Definition insert_meta (blob : string) (s : Store) : Result (unit * Store) :=
  match meta s with
  | Some rows =>
      if decide (0 ∈ rows.*1) then Throw Sql.SQLITE_CONSTRAINT_PRIMARYKEY
      else Ok (tt, mkStore (Some (rows ++ [(0, blob)])) (tables s) (data_tables s))
  | None => Throw Sql.SQLITE_ERROR
  end.

(** The statements of [structuralTables], run in order: CREATE TABLE for
    [updates], [objects], [links], [connections], [connection_entries] and
    CREATE INDEX for their three indices. The first fails when the tables
    are there already. *)
Definition create_structural_tables (s : Store) : Result (unit * Store) :=
  match tables s with
  | Some _ => Throw Sql.SQLITE_ERROR
  | None => Ok (tt, mkStore (meta s) (Some no_rows) (data_tables s))
  end.

(** [CREATE TABLE "name" (columns, FOREIGN KEY(id) REFERENCES objects(id))] *)
Definition create_data_table (name : string) (columns : list string)
    (s : Store) : Result (unit * Store) :=
  if decide (Sql.fold_case name ∈ Sql.fold_case <$> (data_tables s).*1)
  then Throw Sql.SQLITE_ERROR
  else if decide (NoDup (Sql.fold_case <$> columns))
  then Ok (tt, mkStore (meta s) (tables s) (data_tables s ++ [(name, columns)]))
  else Throw Sql.SQLITE_ERROR.

(** *** The statements on the structural tables *)

(** [INSERT INTO updates (time_epoch_millis) VALUES (?)], giving
    [lastInsertROWID]. *)
Definition insert_update (time : Z) (t : Tables) : Result (UpdateId * Tables) :=
  let rowid := Sql.next_rowid (update_rowid <$> updates t) in
  Ok (rowid,
      mkTables (updates t ++ [mkUpdate rowid time]) (objects t) (links t)
               (connections t) (connection_entries t)).

(** [SELECT typename FROM objects WHERE id = ?], plucked, first row. *)
Definition select_typename (id : ObjectId) (t : Tables) : option Typename :=
  object_typename <$> head (filter (λ o, object_id_ o = id) (objects t)).

(** [INSERT INTO objects (id, last_update, typename) VALUES (:id, NULL, :typename)] *)
Definition insert_object (id : ObjectId) (typename : Typename)
    (t : Tables) : Result (unit * Tables) :=
  if decide (id ∈ object_id_ <$> objects t)
  then Throw Sql.SQLITE_CONSTRAINT_PRIMARYKEY
  else Ok (tt,
           mkTables (updates t) (objects t ++ [mkObject id None typename])
                    (links t) (connections t) (connection_entries t)).

(** [INSERT INTO connections (object_id, fieldname) VALUES (:id, :fieldname)] *)
Definition insert_connection (id : ObjectId) (name : Fieldname)
    (t : Tables) : Result (unit * Tables) :=
  if decide ((id, name) ∈ (λ c, (object_id c, fieldname c)) <$> connections t)
  then Throw Sql.SQLITE_CONSTRAINT_UNIQUE
  else if decide (id ∈ object_id_ <$> objects t)
  then
    let rowid := Sql.next_rowid (connection_rowid <$> connections t) in
    Ok (tt,
        mkTables (updates t) (objects t) (links t)
                 (connections t ++ [mkConnection rowid id name None None None None])
                 (connection_entries t))
  else Throw Sql.SQLITE_CONSTRAINT_FOREIGNKEY.

(** [SELECT rowid FROM connections WHERE object_id = :objectId AND fieldname = :fieldname],
    plucked, first row. *)
Definition select_connection (objectId : ObjectId) (name : Fieldname)
    (t : Tables) : option ConnectionRow :=
  head (filter (λ c, object_id c = objectId ∧ fieldname c = name) (connections t)).

(** [UPDATE connections SET last_update = :updateId, total_count = :totalCount,
    has_next_page = :hasNextPage, end_cursor = :endCursor WHERE rowid = :connectionId] *)
Definition update_connection_row (connectionId : Z) (updateId : UpdateId)
    (totalCount hasNextPage : Z) (endCursor : option string)
    (c : ConnectionRow) : ConnectionRow :=
  if decide (connection_rowid c = connectionId)
  then mkConnection (connection_rowid c) (object_id c) (fieldname c)
         (Some updateId) (Some totalCount) (Some hasNextPage) endCursor
  else c.

Definition update_connection (connectionId : Z) (updateId : UpdateId)
    (totalCount hasNextPage : Z) (endCursor : option string)
    (t : Tables) : Result (unit * Tables) :=
  if decide (connectionId ∈ connection_rowid <$> connections t
             ∧ updateId ∉ update_rowid <$> updates t)
  then Throw Sql.SQLITE_CONSTRAINT_FOREIGNKEY
  else Ok (tt,
           mkTables (updates t) (objects t) (links t)
             (update_connection_row connectionId updateId totalCount
                hasNextPage endCursor <$> connections t)
             (connection_entries t)).

(** [SELECT IFNULL(MAX(idx), 0) + 1 FROM connection_entries WHERE connection_id = :connectionId] *)
Definition select_next_index (connectionId : Z) (t : Tables) : Z :=
  default 0
    (Sql.max (idx <$> filter (λ e, connection_id e = connectionId)
                        (connection_entries t))) + 1.

(** [INSERT INTO connection_entries (connection_id, idx, child_id)
    VALUES (:connectionId, :idx, :childId)] *)
Definition insert_entry (connectionId index : Z) (childId : ObjectId)
    (t : Tables) : Result (unit * Tables) :=
  if decide ((connectionId, index) ∈
             (λ e, (connection_id e, idx e)) <$> connection_entries t)
  then Throw Sql.SQLITE_CONSTRAINT_UNIQUE
  else if decide (connectionId ∈ connection_rowid <$> connections t
                  ∧ childId ∈ object_id_ <$> objects t)
  then
    let rowid := Sql.next_rowid (entry_rowid <$> connection_entries t) in
    Ok (tt,
        mkTables (updates t) (objects t) (links t) (connections t)
                 (connection_entries t ++ [mkEntry rowid connectionId index childId]))
  else Throw Sql.SQLITE_CONSTRAINT_FOREIGNKEY.

(** ** The mirror *)

(** [isSqlSafe(token)]: no character outside [A-Za-z0-9_]. *)
Definition sql_safe_char (c : ascii) : bool :=
  let n := N_of_ascii c in
  ((65 <=? n) && (n <=? 90) || (97 <=? n) && (n <=? 122)
   || (48 <=? n) && (n <=? 57) || (n =? 95))%N.

Definition isSqlSafe (token : string) : bool :=
  forallb sql_safe_char (list_ascii_of_string token).

(** The version string of [_initialize]. The tree holds two revisions of
    [mirror.js] that differ, in [_initialize], in this constant only. *)
Definition MIRROR_v1 : string := "MIRROR_v1".
Definition VERSION_0_1_0 : string := "0.1.0".

(** [stringify({version, schema})] *)
Definition schema_blob (version : string) (schema : Schema) : string :=
  Json.stringify
    (Json.Obj [("version", Json.Str version); ("schema", schemaToJson schema)]).

(** The inner loop of [_initialize] over the fields of an object type: the
    names of its primitive fields, in order. *)
Fixpoint primitive_field_names (fields : Js.Dict FieldType)
    (primitiveFieldNames : list Fieldname) : SE Store (list Fieldname) :=
  match fields with
  | [] => mret primitiveFieldNames
  | (fieldname, field) :: fields' =>
      match field with
      | ID | NODE _ | CONNECTION _ =>
          primitive_field_names fields' primitiveFieldNames
      | PRIMITIVE =>
          if negb (isSqlSafe fieldname) then throw (UnsafeFieldName fieldname)
          else primitive_field_names fields' (primitiveFieldNames ++ [fieldname])
      end
  end.

(** The body of the loop of [_initialize] over the types of the schema. *)
Definition create_own_data_table (entry : Typename * NodeType) : SE Store unit :=
  match entry.2 with
  | UNION _ => mret tt
  | OBJECT fields =>
      if negb (isSqlSafe entry.1) then throw (UnsafeTypeName entry.1)
      else
        primitiveFieldNames ← primitive_field_names fields [];
        run (create_data_table ("data_" +:+ entry.1) ("id" :: primitiveFieldNames))
  end.

(** [_initialize()], for the version string [version]. *)
Definition initialize_at (version : string) (schema : Schema) : SE Database unit :=
  let blob := schema_blob version schema in
  _inTransaction (on_store (
    run create_meta_if_not_exists;;
    existingBlob ← run select_meta_schema;
    if decide (existingBlob = Some blob) then mret tt
    else if decide (existingBlob ≠ None) then throw IncompatibleSchema
    else
      run (insert_meta blob);;
      run create_structural_tables;;
      for_of schema create_own_data_table)).

Definition _initialize (schema : Schema) : SE Database unit :=
  initialize_at MIRROR_v1 schema.

(** [new Mirror(db, schema)], for a handle and a schema that are not null;
    the handle is the state, and the schema is passed to each method. *)
Definition constructor (schema : Schema) : SE Database unit := _initialize schema.

(** [_createUpdate(updateTimestamp)], with the timestamp in milliseconds. *)
Definition _createUpdate (updateTimestamp : Z) : SE Database UpdateId :=
  on_tables (run (insert_update updateTimestamp)).

(** An object as the caller names it: [{typename, id}]. *)
Record ObjectRef : Type := mkRef {
  typename_ : Typename;
  id_ : ObjectId;
}.

(** The body of the loop of [_nontransactionallyRegisterObject] over the
    fields: [addConnection.run] for a connection, nothing otherwise. *)
Definition add_connection (id : ObjectId)
    (entry : Fieldname * FieldType) : SE Tables unit :=
  match entry.2 with
  | ID | PRIMITIVE | NODE _ => mret tt
  | CONNECTION _ => run (insert_connection id entry.1)
  end.

(** [_nontransactionallyRegisterObject(object)]. The typename is any
    string, so [this._schema[typename]] may give an inherited property, for
    which [nodeType == null] fails and the switch over [nodeType.type] takes
    its default branch. *)
Definition _nontransactionallyRegisterObject (schema : Schema)
    (object : ObjectRef) : SE Tables unit :=
  let typename := typename_ object in
  let id := id_ object in
  existingTypename ← select (select_typename id);
  if decide (existingTypename = Some typename) then mret tt
  else match existingTypename with
  | Some existing => throw (InconsistentType id existing typename)
  | None =>
      match Js.read typename schema with
      | Js.Undefined => throw (UnknownType typename)
      | Js.Inherited => throw InvalidNodeType
      | Js.Own (UNION _) => throw (AmbiguousType typename)
      | Js.Own (OBJECT fields) =>
          run (insert_object id typename);;
          for_of fields (add_connection id)
      end
  end.

Definition registerObject (schema : Schema) (object : ObjectRef) : SE Database unit :=
  _inTransaction (on_tables (_nontransactionallyRegisterObject schema object)).

(** The rows of [findOutdated]. *)
Record OutdatedConnection : Type := mkOutdated {
  oc_typename : Typename;
  oc_id : ObjectId;
  oc_fieldname : Fieldname;
  oc_endCursor : option string;
}.

Record Outdated : Type := mkOutdatedResult {
  outdated_objects : list ObjectRef;
  outdated_connections : list OutdatedConnection;
}.

(** [t LEFT OUTER JOIN updates ON key = updates.rowid], for one row of [t]:
    the matching updates, or one all-NULL row. *)
Definition left_join_updates (key : option UpdateId)
    (us : list UpdateRow) : list (option UpdateRow) :=
  match filter (λ u, key = Some (update_rowid u)) us with
  | [] => [None]
  | matching => Some <$> matching
  end.

Definition select_outdated_objects (threshold : Z) (t : Tables) : list ObjectRef :=
  o ← objects t;
  u ← left_join_updates (object_last_update o) (updates t);
  if Sql.holds (Sql.or (Sql.is_null (object_last_update o))
                       (Sql.lt (time_epoch_millis <$> u) (Some threshold)))
  then [mkRef (object_typename o) (object_id_ o)]
  else [].

Definition select_outdated_connections (threshold : Z)
    (t : Tables) : list OutdatedConnection :=
  o ← objects t;
  c ← filter (λ c, object_id_ o = object_id c) (connections t);
  u ← left_join_updates (object_last_update o) (updates t);
  if Sql.holds (Sql.or (Sql.or (Sql.truth (has_next_page c))
                               (Sql.is_null (last_update c)))
                       (Sql.lt (time_epoch_millis <$> u) (Some threshold)))
  then [mkOutdated (object_typename o) (object_id_ o) (fieldname c) (end_cursor c)]
  else [].

Definition findOutdated (since : Z) : SE Database Outdated :=
  _inTransaction (on_tables (
    objects ← select (select_outdated_objects since);
    connections ← select (select_outdated_connections since);
    mret (mkOutdatedResult objects connections))).

(** Modelled from the spec: the query builder ([./queries]) is missing from
    the source tree. Section 4.2 of the specification gives its
    operations as [field(name, args?, children?)], [literal(scalar|null)] and
    [variable(name)]; a field built without arguments or children has
    none. *)
Module Queries.

Inductive Scalar : Type :=
| Null
| Number (n : Z)
| Text (s : string).

Inductive Value : Type :=
| LITERAL (data : Scalar)
| VARIABLE (name : string).

Abbreviation Arguments := (Js.Dict Value) (only parsing).

#[warnings="-register-all"]
Inductive Selection : Type :=
| FIELD (name : string) (args : Arguments) (selections : list Selection).

Module build.
Definition field (name : string) (args : option Arguments)
    (selections : option (list Selection)) : Selection :=
  FIELD name (default [] args) (default [] selections).
Definition literal (value : Scalar) : Value := LITERAL value.
Definition variable (name : string) : Value := VARIABLE name.
End build.

End Queries.

(** [EndCursor = string | null]; [EndCursor | void] adds [undefined]. *)
Definition EndCursor : Type := option string.

Definition cursor_scalar (c : EndCursor) : Queries.Scalar :=
  match c with
  | Some s => Queries.Text s
  | None => Queries.Null
  end.

Definition _queryShallow : list Queries.Selection :=
  let b_field := Queries.build.field in
  [b_field "__typename" None None; b_field "id" None None].

(** [_getEndCursor(objectId, fieldname)]; [None] is [undefined]. *)
Definition _getEndCursor (objectId : ObjectId) (name : Fieldname)
    : SE Database (option EndCursor) :=
  on_tables (
    result ← select (select_connection objectId name);
    match result with
    | None => throw (UnknownConnection objectId name)
    | Some row =>
        let initialized := bool_decide (last_update row ≠ None) in
        mret (if initialized then Some (end_cursor row) else None)
    end).

(** [_queryConnection(fieldname, endCursor, connectionPageSize = 100)]; an
    argument left out, or [undefined], is [None]. *)
Definition _queryConnection (name : Fieldname) (endCursor : option EndCursor)
    (connectionPageSize : option Z) : list Queries.Selection :=
  let b_field := Queries.build.field in
  let b_literal := Queries.build.literal in
  let connectionPageSize := default 100 connectionPageSize in
  let connectionArguments : Queries.Arguments :=
    [("first", b_literal (Queries.Number connectionPageSize))] in
  let connectionArguments :=
    match endCursor with
    | Some cursor =>
        connectionArguments ++ [("after", b_literal (cursor_scalar cursor))]
    | None => connectionArguments
    end in
  [ b_field name (Some connectionArguments) (Some [
      b_field "totalCount" None None;
      b_field "pageInfo" (Some [])
        (Some [b_field "endCursor" None None; b_field "hasNextPage" None None]);
      b_field "nodes" (Some []) (Some _queryShallow) ]) ].

(** The properties [__typename] and [id] of a node. *)
Record NodeFieldResult : Type := mkNode {
  __typename : Typename;
  node_id : ObjectId;
}.

Record PageInfo : Type := mkPageInfo {
  hasNextPage : bool;
  endCursor : option string;
}.

Record ConnectionFieldResult : Type := mkConnectionResult {
  totalCount : Z;
  pageInfo : PageInfo;
  nodes : list NodeFieldResult;
}.

(** The loop of [_nontransactionallyUpdateConnection] over the nodes, with
    the local [nextIndex] as an argument. *)
Fixpoint add_entries (schema : Schema) (connectionId : Z)
    (nodes : list NodeFieldResult) (nextIndex : Z) : SE Tables unit :=
  match nodes with
  | [] => mret tt
  | node :: nodes' =>
      let childObject := mkRef (__typename node) (node_id node) in
      _nontransactionallyRegisterObject schema childObject;;
      run (insert_entry connectionId nextIndex (id_ childObject));;
      add_entries schema connectionId nodes' (nextIndex + 1)
  end.

Definition _nontransactionallyUpdateConnection (schema : Schema)
    (updateId : UpdateId) (objectId : ObjectId) (name : Fieldname)
    (queryResult : ConnectionFieldResult) : SE Tables unit :=
  connection ← select (select_connection objectId name);
  match connection_rowid <$> connection with
  | None => throw (UnknownConnection objectId name)
  | Some connectionId =>
      run (update_connection connectionId updateId
             (totalCount queryResult)
             (if hasNextPage (pageInfo queryResult) then 1 else 0)
             (endCursor (pageInfo queryResult)));;
      nextIndex ← select (select_next_index connectionId);
      add_entries schema connectionId (nodes queryResult) nextIndex
  end.

Definition _updateConnection (schema : Schema)
    (updateId : UpdateId) (objectId : ObjectId) (name : Fieldname)
    (queryResult : ConnectionFieldResult) : SE Database unit :=
  _inTransaction (on_tables
    (_nontransactionallyUpdateConnection schema updateId objectId name queryResult)).

(** ** Notions used in the statements *)

(** A new, empty database file. *)
Definition fresh : Database := mkDatabase empty_store None.

(** An object row is stale when it was never updated or its update is older
    than the threshold. *)
Definition object_stale (threshold : Z) (t : Tables) (o : ObjectRow) : Prop :=
  object_last_update o = None
  ∨ ∃ u, u ∈ updates t ∧ object_last_update o = Some (update_rowid u)
         ∧ time_epoch_millis u < threshold.


Definition is_connection (f : FieldType) : bool :=
  match f with CONNECTION _ => true | _ => false end.

(** The names of the connection fields of an object type, in order. *)
Definition connection_fields (fields : Js.Dict FieldType) : list Fieldname :=
  (filter (λ e, is_connection e.2) fields).*1.

Definition connections_of (id : ObjectId) (t : Tables) : list ConnectionRow :=
  filter (λ c, object_id c = id) (connections t).

Definition entries_of (connectionId : Z) (t : Tables) : list EntryRow :=
  filter (λ e, connection_id e = connectionId) (connection_entries t).

(** A connection row as [registerObject] writes it. *)
Definition never_fetched (c : ConnectionRow) : Prop :=
  last_update c = None ∧ total_count c = None
  ∧ has_next_page c = None ∧ end_cursor c = None.

Record tables_inv (schema : Schema) (t : Tables) : Prop := mkTablesInv {
  inv_object_ids : NoDup (object_id_ <$> objects t);
  inv_connection_rowids : NoDup (connection_rowid <$> connections t);
  inv_connection_owner :
    ∀ c, c ∈ connections t → object_id c ∈ object_id_ <$> objects t;
  inv_connection_fields :
    ∀ o, o ∈ objects t →
      ∃ fields, Js.get (object_typename o) schema = Some (OBJECT fields)
        ∧ fieldname <$> connections_of (object_id_ o) t = connection_fields fields;
  inv_entry_indices :
    ∀ c, idx <$> entries_of c t = seqZ 1 (Z.of_nat (length (entries_of c t)));
  inv_never_fetched :
    ∀ c, c ∈ connections t → last_update c = None → never_fetched c;
}.

Inductive registered (schema : Schema) (o : ObjectRef) (t t' : Tables) : Prop :=
| registered_already :
    select_typename (id_ o) t = Some (typename_ o) → t' = t →
    registered schema o t t'
| registered_new (fields : Js.Dict FieldType) (rows : list ConnectionRow) :
    select_typename (id_ o) t = None →
    Js.get (typename_ o) schema = Some (OBJECT fields) →
    updates t' = updates t → links t' = links t →
    connection_entries t' = connection_entries t →
    objects t' = objects t ++ [mkObject (id_ o) None (typename_ o)] →
    connections t' = connections t ++ rows →
    Forall (λ c, object_id c = id_ o ∧ never_fetched c) rows →
    fieldname <$> rows = connection_fields fields →
    (NoDup (connection_rowid <$> connections t) →
     NoDup (connection_rowid <$> connections t')) →
    registered schema o t t'.

(** Registration only appends: objects, and never-fetched connection rows
    of objects that were not registered before. *)
Definition new_connection (t : Tables) (c : ConnectionRow) : Prop :=
  (object_id c ∉ object_id_ <$> objects t) ∧ never_fetched c.

Record extends (t t' : Tables) : Prop := mkExtends {
  ext_updates : updates t' = updates t;
  ext_links : links t' = links t;
  ext_objects : prefix (objects t) (objects t');
  ext_connections :
    ∃ more, connections t' = connections t ++ more
      ∧ Forall (new_connection t) more;
}.

Definition entry_columns (e : EntryRow) : Z * Z * ObjectId :=
  (connection_id e, idx e, child_id e).

(** A node can be registered: its id is free and its typename an object type,
    or its id is registered under its typename. *)
Definition node_ok (schema : Schema) (t : Tables) (node : NodeFieldResult) : Prop :=
  match select_typename (node_id node) t with
  | Some T => T = __typename node
  | None => ∃ fields, Js.get (__typename node) schema = Some (OBJECT fields)
  end.

(** No id comes with two typenames in one response. *)
Definition nodes_consistent (nodes : list NodeFieldResult) : Prop :=
  ∀ n1 n2, n1 ∈ nodes → n2 ∈ nodes →
    node_id n1 = node_id n2 → __typename n1 = __typename n2.

Definition updated_connection (updateId : UpdateId)
    (queryResult : ConnectionFieldResult) (c : ConnectionRow) : ConnectionRow :=
  mkConnection (connection_rowid c) (object_id c) (fieldname c)
    (Some updateId) (Some (totalCount queryResult))
    (Some (if hasNextPage (pageInfo queryResult) then 1 else 0))
    (endCursor (pageInfo queryResult)).

(** The object types of a schema, the primitive fields of an object type,
    and the own-data tables that [_initialize] creates for a schema. *)
Definition object_types (schema : Schema) : list (Typename * Js.Dict FieldType) :=
  omap (λ e, match e.2 with
             | OBJECT fields => Some (e.1, fields)
             | UNION _ => None
             end) schema.

#[global] Instance FieldType_eq_dec : EqDecision FieldType.
Proof. solve_decision. Defined.

Definition primitive_names (fields : Js.Dict FieldType) : list Fieldname :=
  (filter (λ e, e.2 = PRIMITIVE) fields).*1.

Definition data_table (entry : Typename * Js.Dict FieldType) : string * list string :=
  ("data_" +:+ entry.1, "id" :: primitive_names entry.2).

Definition layout (schema : Schema) : list (string * list string) :=
  data_table <$> object_types schema.

(** The names that [_initialize] checks are safe, and the tables and columns
    it creates do not clash: SQLite compares them without regard to case. *)
Definition object_type_ok (entry : Typename * Js.Dict FieldType) : Prop :=
  isSqlSafe entry.1
  ∧ Forall (λ f, isSqlSafe f) (primitive_names entry.2)
  ∧ NoDup (Sql.fold_case <$> "id" :: primitive_names entry.2).

Definition layout_ok (schema : Schema) : Prop :=
  Forall object_type_ok (object_types schema)
  ∧ NoDup (Sql.fold_case <$> (object_types schema).*1).

#[global] Instance object_type_ok_dec entry : Decision (object_type_ok entry).
Proof. unfold object_type_ok. apply _. Defined.

#[global] Instance layout_ok_dec schema : Decision (layout_ok schema).
Proof. unfold layout_ok. apply _. Defined.

(** The body of [_initialize] on a store. *)
Definition existing_blob (s : Store) : option string :=
  snd <$> (meta s ≫= head).

(** One call on the mirror. *)
Inductive step (schema : Schema) (db : Database) : Database → Prop :=
| step_constructor :
    step schema db (exec (constructor schema) db)
| step_registerObject o :
    step schema db (exec (registerObject schema o) db)
| step_createUpdate updateTimestamp :
    step schema db (exec (_createUpdate updateTimestamp) db)
| step_findOutdated since :
    step schema db (exec (findOutdated since) db)
| step_getEndCursor objectId name :
    step schema db (exec (_getEndCursor objectId name) db)
| step_updateConnection updateId objectId name queryResult :
    step schema db
      (exec (_updateConnection schema updateId objectId name queryResult) db).

(** The databases that a mirror can hold: the constructor has succeeded on a
    new database, and only calls on the mirror have written to it since. *)
Inductive reachable (schema : Schema) : Database → Prop :=
| reachable_new :
    eval (constructor schema) fresh = Ok tt →
    reachable schema (exec (constructor schema) fresh)
| reachable_step db db' :
    reachable schema db → step schema db db' → reachable schema db'.

Definition mirror_inv (schema : Schema) (db : Database) : Prop :=
  txn db = None
  ∧ existing_blob (store db) = Some (schema_blob MIRROR_v1 schema)
  ∧ ∃ t, tables (store db) = Some t ∧ tables_inv schema t.

Definition connection_key (c : ConnectionRow) : ObjectId * Fieldname :=
  (object_id c, fieldname c).

(** Reading one character back from the front of an escaped string. *)
Definition hex_value (c : ascii) : N :=
  let n := N_of_ascii c in if (n <? 58)%N then (n - 48)%N else (n - 87)%N.

Definition unescape_head (s : string) : option (ascii * string) :=
  match s with
  | EmptyString => None
  | String c rest =>
      if (N_of_ascii c =? 92)%N then
        match rest with
        | EmptyString => None
        | String d rest' =>
            let m := N_of_ascii d in
            if (m =? 98)%N then Some (ascii_of_N 8, rest')
            else if (m =? 116)%N then Some (ascii_of_N 9, rest')
            else if (m =? 110)%N then Some (ascii_of_N 10, rest')
            else if (m =? 102)%N then Some (ascii_of_N 12, rest')
            else if (m =? 114)%N then Some (ascii_of_N 13, rest')
            else if (m =? 117)%N then
              match rest' with
              | String _ (String _ (String x (String y rest''))) =>
                  Some (ascii_of_N (16 * hex_value x + hex_value y), rest'')
              | _ => None
              end
            else Some (d, rest')
        end
      else Some (c, rest)
  end.

(** Two schemas are the same dictionary of the same types when they differ
    in the order of their keys only, at every level. *)
Definition nodeType_equiv (n1 n2 : NodeType) : Prop :=
  match n1, n2 with
  | OBJECT fields1, OBJECT fields2 => fields1 ≡ₚ fields2
  | UNION clauses1, UNION clauses2 => clauses1 ≡ₚ clauses2
  | _, _ => False
  end.

Definition schema_equiv (s1 s2 : Schema) : Prop :=
  ∃ s, s1 ≡ₚ s
    ∧ Forall2 (λ e1 e2, e1.1 = e2.1 ∧ nodeType_equiv e1.2 e2.2) s s2.

(** What identifies a row of [connections] for good. *)
Definition connection_identity (c : ConnectionRow) : Z * ObjectId * Fieldname :=
  (connection_rowid c, object_id c, fieldname c).

(** The tables only grow: rows are appended to [updates], to [objects] (with
    [last_update] NULL), to [connections] and to [connection_entries], and
    the rows of [connections] keep their row id, owner and field name. *)
Record grows (t t' : Tables) : Prop := mkGrows {
  grows_updates : prefix (updates t) (updates t');
  grows_objects :
    ∃ more, objects t' = objects t ++ more
      ∧ Forall (λ o, object_last_update o = None) more;
  grows_links : links t' = links t;
  grows_connections :
    prefix (connection_identity <$> connections t)
           (connection_identity <$> connections t');
  grows_entries : prefix (connection_entries t) (connection_entries t');
}.

(** No statement of the mirror writes [objects.last_update]. *)
Definition objects_never_updated (t : Tables) : Prop :=
  Forall (λ o, object_last_update o = None) (objects t).

(** The schema gives the object [id], registered in [t], a connection field
    [name]. *)
Definition has_connection_field (schema : Schema) (t : Tables)
    (id : ObjectId) (name : Fieldname) : Prop :=
  ∃ T fields E, select_typename id t = Some T
    ∧ Js.get T schema = Some (OBJECT fields)
    ∧ (name, CONNECTION E) ∈ fields.

(** The children of a connection, in the order of [connection_entries]. *)
Definition children_of (connectionId : Z) (t : Tables) : list ObjectId :=
  child_id <$> entries_of connectionId t.

(** A row of [connections] is as [registerObject] writes it, or holds an
    existing update, a count and a flag 0 or 1; the comments of the CREATE
    TABLE statement say of [total_count] and [has_next_page]: NULL iff never
    updated. *)
Definition connection_row_ok (t : Tables) (c : ConnectionRow) : Prop :=
  match last_update c with
  | None => never_fetched c
  | Some updateId =>
      updateId ∈ update_rowid <$> updates t
      ∧ is_Some (total_count c)
      ∧ (has_next_page c = Some 0 ∨ has_next_page c = Some 1)
  end.

(** A row of [connection_entries] belongs to a connection that was fetched
    and names a registered child. *)
Definition entry_row_ok (t : Tables) (e : EntryRow) : Prop :=
  (∃ c, c ∈ connections t ∧ connection_rowid c = connection_id e
        ∧ is_Some (last_update c))
  ∧ child_id e ∈ object_id_ <$> objects t.

Definition rows_inv (t : Tables) : Prop :=
  Forall (connection_row_ok t) (connections t)
  ∧ Forall (entry_row_ok t) (connection_entries t).

(** The members of a printed object after the first, followed by the brace
    and by the text after the object. *)
Fixpoint members_tail (ms : list (string * string)) (rest : string) : string :=
  match ms with
  | [] => "}" +:+ rest
  | m :: ms' => "," +:+ Json.member m +:+ members_tail ms' rest
  end.

(** ** The databases of the tests *)

(** The state that the test of [findOutdated] sets up, with the update ids
    1, 2, 3 for the times 123, 456, 789. *)
Definition scenario_tables : Tables :=
  mkTables
    [mkUpdate 1 123; mkUpdate 2 456; mkUpdate 3 789]
    [mkObject "repo:ab/cd" (Some 1) "Repository";
     mkObject "issue:ab/cd#1" (Some 3) "Issue";
     mkObject "issue:ab/cd#2" None "Issue";
     mkObject "issue:ab/cd#3" None "Issue";
     mkObject "issue:ab/cd#4" (Some 2) "Issue"]
    []
    [mkConnection 1 "repo:ab/cd" "issues" (Some 1) None (Some 0) (Some "cursor:repo.issues");
     mkConnection 2 "issue:ab/cd#1" "comments" None None (Some 0) (Some "cursor:issue1.comments");
     mkConnection 3 "issue:ab/cd#2" "comments" (Some 3) None (Some 1) None;
     mkConnection 4 "issue:ab/cd#3" "comments" (Some 3) None (Some 0) None;
     mkConnection 5 "issue:ab/cd#4" "comments" (Some 2) None (Some 0) (Some "cursor:issue4.comments")]
    [].

Definition scenario_db : Database :=
  set_tables scenario_tables (exec (constructor githubSchema) fresh).

Definition mirror_db : Database := exec (constructor githubSchema) fresh.

Definition favorite_db : Database :=
  exec (registerObject githubSchema (mkRef "Issue" "my-favorite-id")) mirror_db.

Definition favorite_tables : Tables :=
  mkTables [] [mkObject "my-favorite-id" None "Issue"] []
    [mkConnection 1 "my-favorite-id" "comments" None None None None] [].


Definition rowR_db : Database :=
  exec (_createUpdate 100)
    (exec (registerObject githubSchema (mkRef "Repository" "R")) mirror_db).

Definition two_issues : ConnectionFieldResult :=
  mkConnectionResult 2 (mkPageInfo false (Some "c"))
    [mkNode "Issue" "i1"; mkNode "Issue" "i2"].

Definition fetched_db : Database :=
  exec (_updateConnection githubSchema 1 "R" "issues"
          (mkConnectionResult 0 (mkPageInfo false None) [])) rowR_db.

Definition never_db : Database :=
  exec (registerObject githubSchema (mkRef "Repository" "R")) mirror_db.

Definition null_cursor_db : Database :=
  exec (_updateConnection githubSchema 1 "R" "issues"
          (mkConnectionResult 0 (mkPageInfo true None) [])) rowR_db.

(** Two updates at the same time, as in the test of [_createUpdate]. *)
Definition update1_db : Database := exec (_createUpdate 0) mirror_db.
Definition update2_db : Database := exec (_createUpdate 0) update1_db.

(** A page of two issues, ingested into the connection of a repository. *)
Definition ingested_db : Database :=
  exec (_updateConnection githubSchema 1 "R" "issues" two_issues) rowR_db.

Definition rowR_tables : Tables :=
  mkTables [mkUpdate 1 100] [mkObject "R" None "Repository"] []
    [mkConnection 1 "R" "issues" None None None None] [].

Definition ingested_tables : Tables :=
  mkTables [mkUpdate 1 100]
    [mkObject "R" None "Repository"; mkObject "i1" None "Issue";
     mkObject "i2" None "Issue"]
    []
    [mkConnection 1 "R" "issues" (Some 1) (Some 2) (Some 0) (Some "c");
     mkConnection 2 "i1" "comments" None None None None;
     mkConnection 3 "i2" "comments" None None None None]
    [mkEntry 1 1 1 "i1"; mkEntry 2 1 2 "i2"].

(** * Properties *)

(** ** The monad and the transaction helper *)

Ltac se_unfold :=
  unfold mbind, SE_bind, mret, SE_ret, select, run, throw, eval, exec in *.

Lemma inTransaction_None db : txn db = None → inTransaction db = false.
Proof. unfold inTransaction. intros ->. apply bool_decide_eq_false_2. by intros [??]. Qed.


(** Inside a transaction the helper throws and touches nothing. *)
Lemma _inTransaction_busy {R} (fn : SE Database R) db :
  inTransaction db = true → _inTransaction fn db = (Throw AlreadyInTransaction, db).
Proof. unfold _inTransaction. by intros ->. Qed.

(** Outside a transaction, statements that succeed are committed and
    statements that throw are rolled back. *)
Lemma _inTransaction_on_store {R} (m : SE Store R) db :
  txn db = None →
  _inTransaction (on_store m) db =
    match m (store db) with
    | (Ok r, s') => (Ok r, mkDatabase s' None)
    | (Throw e, _) => (Throw e, db)
    end.
Proof.
  intros Htxn. unfold _inTransaction, on_store.
  rewrite (inTransaction_None _ Htxn). simpl.
  destruct (m (store db)) as [[r|e] s']; simpl; [done|].
  destruct db as [s tx]; simpl in *. by subst.
Qed.

Lemma _inTransaction_on_tables {R} (m : SE Tables R) db t :
  txn db = None → tables (store db) = Some t →
  _inTransaction (on_tables m) db =
    match m t with
    | (Ok r, t') => (Ok r, set_tables t' db)
    | (Throw e, _) => (Throw e, db)
    end.
Proof.
  intros Htxn Ht. unfold on_tables. rewrite _inTransaction_on_store by done.
  rewrite Ht. destruct (m t) as [[r|e] t']; [|done].
  unfold set_tables. by rewrite Htxn.
Qed.

Lemma _inTransaction_no_tables {R} (m : SE Tables R) db :
  txn db = None → tables (store db) = None →
  _inTransaction (on_tables m) db = (Throw (Storage "SQLITE_ERROR"), db).
Proof.
  intros Htxn Ht. unfold on_tables. rewrite _inTransaction_on_store by done.
  by rewrite Ht.
Qed.


Lemma on_tables_Some {R} (m : SE Tables R) db t :
  tables (store db) = Some t →
  on_tables m db = ((m t).1, set_tables (m t).2 db).
Proof.
  intros Ht. unfold on_tables, on_store. rewrite Ht.
  by destruct (m t) as [r t'].
Qed.

(** ** [findOutdated]: the objects *)

Lemma left_join_updates_elem key us mu :
  mu ∈ left_join_updates key us ↔
    (mu = None ∧ ∀ u, u ∈ us → key ≠ Some (update_rowid u))
    ∨ (∃ u, mu = Some u ∧ u ∈ us ∧ key = Some (update_rowid u)).
Proof.
  unfold left_join_updates.
  destruct (filter _ us) as [|u0 l] eqn:Hf.
  - rewrite list_elem_of_singleton. split.
    + intros ->. left. split; [done|]. intros u Hu Hk.
      assert (u ∈ filter (λ u, key = Some (update_rowid u)) us) as Hin
        by (by apply list_elem_of_filter).
      rewrite Hf in Hin. by apply not_elem_of_nil in Hin.
    + intros [[-> _]|(u & -> & Hu & Hk)]; [done|].
      assert (u ∈ filter (λ u, key = Some (update_rowid u)) us) as Hin
        by (by apply list_elem_of_filter).
      rewrite Hf in Hin. by apply not_elem_of_nil in Hin.
  - rewrite <-Hf, list_elem_of_fmap. split.
    + intros (u & -> & Hu). apply list_elem_of_filter in Hu as [??]. eauto.
    + intros [[-> Hno]|(u & -> & Hu & Hk)].
      * exfalso. assert (u0 ∈ filter (λ u, key = Some (update_rowid u)) us) as Hin
          by (rewrite Hf; left).
        apply list_elem_of_filter in Hin as [??]. by eapply Hno.
      * exists u. split; [done|]. by apply list_elem_of_filter.
Qed.

Lemma select_outdated_objects_elem threshold t ref :
  ref ∈ select_outdated_objects threshold t ↔
    ∃ o, o ∈ objects t ∧ ref = mkRef (object_typename o) (object_id_ o)
         ∧ object_stale threshold t o.
Proof.
  unfold select_outdated_objects, object_stale.
  rewrite list_elem_of_bind. split.
  - intros (o & Hin & Ho). exists o. split; [done|].
    apply list_elem_of_bind in Hin as (mu & Hin & Hmu).
    apply left_join_updates_elem in Hmu.
    destruct (object_last_update o) as [k|] eqn:Hk; simpl in *.
    + destruct Hmu as [[-> Hno]|(u & -> & Hu & Hku)]; simpl in *.
      { by apply not_elem_of_nil in Hin. }
      case_bool_decide; simpl in *; [|by apply not_elem_of_nil in Hin].
      apply list_elem_of_singleton in Hin. eauto 10.
    + apply list_elem_of_singleton in Hin. eauto.
  - intros (o & Ho & -> & Hstale). exists o. split; [|done].
    apply list_elem_of_bind.
    destruct Hstale as [Hnull|(u & Hu & Hk & Hlt)].
    + rewrite Hnull.
      destruct (left_join_updates None (updates t)) as [|mu l] eqn:Hl.
      { unfold left_join_updates in Hl. by destruct (filter _ _). }
      exists mu. split; [|left]. simpl. by left.
    + exists (Some u). split.
      * rewrite Hk. simpl. rewrite bool_decide_eq_true_2 by done. by left.
      * apply left_join_updates_elem. right. eauto.
Qed.

Lemma set_tables_id db t : tables (store db) = Some t → set_tables t db = db.
Proof. destruct db as [[m ts d] tx]. simpl. by intros ->. Qed.

Lemma findOutdated_eq db t since :
  txn db = None → tables (store db) = Some t →
  findOutdated since db =
    (Ok (mkOutdatedResult (select_outdated_objects since t)
                          (select_outdated_connections since t)), db).
Proof.
  intros Htxn Ht. unfold findOutdated.
  rewrite (_inTransaction_on_tables _ db t) by done. se_unfold. simpl.
  by rewrite set_tables_id.
Qed.

Lemma NoDup_fmap_eq {A B} (f : A → B) (l : list A) x y :
  NoDup (f <$> l) → x ∈ l → y ∈ l → f x = f y → x = y.
Proof.
  induction l as [|a l IH]; simpl; [by intros _ ?%not_elem_of_nil|].
  rewrite NoDup_cons. intros [Hna Hnd] Hx Hy Hf.
  apply elem_of_cons in Hx as [->|Hx], Hy as [->|Hy]; [done| | |by apply IH].
  - destruct Hna. rewrite Hf. by apply list_elem_of_fmap_2.
  - destruct Hna. rewrite <-Hf. by apply list_elem_of_fmap_2.
Qed.

Example findOutdated_scenario :
  eval (findOutdated 456) scenario_db =
    Ok (mkOutdatedResult
          [mkRef "Repository" "repo:ab/cd"; mkRef "Issue" "issue:ab/cd#2";
           mkRef "Issue" "issue:ab/cd#3"]
          [mkOutdated "Repository" "repo:ab/cd" "issues" (Some "cursor:repo.issues");
           mkOutdated "Issue" "issue:ab/cd#1" "comments" (Some "cursor:issue1.comments");
           mkOutdated "Issue" "issue:ab/cd#2" "comments" None]).
Proof. vm_compute. reflexivity. Qed.

(** C5. On every database that has the tables and is not in a transaction,
    [findOutdated since] returns, as objects, exactly the rows of [objects]
    whose [last_update] is NULL or names an update with
    [time_epoch_millis < since], and leaves the database as it is; an object
    whose update has exactly the time [since] is not returned. *)
Theorem findOutdated_objects_exact (db : Database) (t : Tables) (since : Z) :
  txn db = None → tables (store db) = Some t →
  ∃ r, findOutdated since db = (Ok r, db)
    ∧ (∀ ref, ref ∈ outdated_objects r ↔
         ∃ o, o ∈ objects t
           ∧ ref = mkRef (object_typename o) (object_id_ o)
           ∧ (object_last_update o = None
              ∨ ∃ u, u ∈ updates t
                   ∧ object_last_update o = Some (update_rowid u)
                   ∧ time_epoch_millis u < since))
    ∧ (NoDup (object_id_ <$> objects t) →
       NoDup (update_rowid <$> updates t) →
       ∀ o u, o ∈ objects t → u ∈ updates t →
         object_last_update o = Some (update_rowid u) →
         time_epoch_millis u = since →
         mkRef (object_typename o) (object_id_ o) ∉ outdated_objects r).
Proof.
  intros Htxn Ht. eexists. split; [by apply findOutdated_eq|]. simpl. split.
  - intros ref. apply select_outdated_objects_elem.
  - intros Hids Hrowids o u Ho Hu Hlast Htime Hin.
    apply select_outdated_objects_elem in Hin as (o' & Ho' & Href & Hstale).
    assert (o' = o) as ->.
    { apply (NoDup_fmap_eq object_id_ (objects t)); [done..|]. congruence. }
    destruct Hstale as [Hnull|(u' & Hu' & Hlast' & Hlt)]; [congruence|].
    assert (u' = u) as ->.
    { apply (NoDup_fmap_eq update_rowid (updates t)); [done..|]. congruence. }
    lia.
Qed.

Lemma findOutdated_objects_exact_witness :
  ∃ r, findOutdated 456 scenario_db = (Ok r, scenario_db)
    ∧ mkRef "Repository" "repo:ab/cd" ∈ outdated_objects r
    ∧ mkRef "Issue" "issue:ab/cd#4" ∉ outdated_objects r.
Proof.
  destruct (findOutdated_objects_exact scenario_db scenario_tables 456
              eq_refl eq_refl) as (r & Hr & Hiff & Hequal).
  exists r. split; [exact Hr|]. split.
  - apply Hiff. exists (mkObject "repo:ab/cd" (Some 1) "Repository").
    split; [left|]. split; [reflexivity|]. right.
    exists (mkUpdate 1 123). split; [left|]. split; [reflexivity|]. simpl. lia.
  - apply (Hequal ltac:(compute_done) ltac:(compute_done)
             (mkObject "issue:ab/cd#4" (Some 2) "Issue") (mkUpdate 2 456)).
    + do 4 right. left.
    + right. left.
    + reflexivity.
    + reflexivity.
Defined.

(** ** [registerObject] *)

Lemma select_typename_None id t :
  select_typename id t = None ↔ id ∉ object_id_ <$> objects t.
Proof.
  unfold select_typename. rewrite fmap_None, head_None. split.
  - intros Hf (o & -> & Ho)%list_elem_of_fmap.
    assert (o ∈ filter (λ o', object_id_ o' = object_id_ o) (objects t)) as Hin
      by (by apply list_elem_of_filter).
    rewrite Hf in Hin. by apply not_elem_of_nil in Hin.
  - intros Hnot. destruct (filter _ _) as [|o l] eqn:Hf; [done|].
    assert (o ∈ filter (λ o', object_id_ o' = id) (objects t)) as Hin
      by (rewrite Hf; left).
    apply list_elem_of_filter in Hin as [<- Hin].
    destruct Hnot. by apply list_elem_of_fmap_2.
Qed.

Lemma select_typename_Some id t T :
  select_typename id t = Some T →
  ∃ o, o ∈ objects t ∧ object_id_ o = id ∧ object_typename o = T.
Proof.
  unfold select_typename. intros (o & Hhead & ->)%fmap_Some.
  exists o. apply head_Some_elem_of, list_elem_of_filter in Hhead as [??]. done.
Qed.

Lemma select_typename_elem o t :
  NoDup (object_id_ <$> objects t) → o ∈ objects t →
  select_typename (object_id_ o) t = Some (object_typename o).
Proof.
  intros Hnd Ho. destruct (select_typename (object_id_ o) t) as [T|] eqn:Hsel.
  - apply select_typename_Some in Hsel as (o' & Ho' & Hid & <-).
    by rewrite (NoDup_fmap_eq object_id_ (objects t) o' o).
  - apply select_typename_None in Hsel. destruct Hsel.
    by apply list_elem_of_fmap_2.
Qed.

(** The body of [_nontransactionallyRegisterObject], case by case. *)
Lemma register_existing schema o t T :
  select_typename (id_ o) t = Some T →
  _nontransactionallyRegisterObject schema o t =
    if decide (T = typename_ o) then (Ok tt, t)
    else (Throw (InconsistentType (id_ o) T (typename_ o)), t).
Proof.
  intros Hsel. unfold _nontransactionallyRegisterObject. se_unfold.
  rewrite Hsel. repeat case_decide; simplify_eq; done.
Qed.

Lemma Js_read_own {V} (k : string) (o : Js.Dict V) (v : V) :
  Js.get k o = Some v → Js.read k o = Js.Own v.
Proof. unfold Js.read. by intros ->. Qed.



Lemma register_new schema o t :
  select_typename (id_ o) t = None →
  _nontransactionallyRegisterObject schema o t =
    match Js.read (typename_ o) schema with
    | Js.Undefined => (Throw (UnknownType (typename_ o)), t)
    | Js.Inherited => (Throw InvalidNodeType, t)
    | Js.Own (UNION _) => (Throw (AmbiguousType (typename_ o)), t)
    | Js.Own (OBJECT fields) =>
        (run (insert_object (id_ o) (typename_ o));;
         for_of fields (add_connection (id_ o))) t
    end.
Proof.
  intros Hsel. unfold _nontransactionallyRegisterObject. se_unfold.
  rewrite Hsel.
  destruct (decide (None = Some (typename_ o))) as [?|_]; [done|].
  by destruct (Js.read _ _) as [[]| |].
Qed.


Lemma string_app_assoc (a b c : string) : (a +:+ b) +:+ c = a +:+ (b +:+ c).
Proof.
  induction a as [|x a IH]; [done|].
  change (String x ((a +:+ b) +:+ c) = String x (a +:+ b +:+ c)). by rewrite IH.
Qed.




(** C9. An id that has a row under [T1] cannot be registered under another
    typename [T2], whatever the schema says of [T2]: the call throws the
    inconsistent-type error and changes nothing. The unknown-type and union
    errors arise only for an id without a row. *)
Theorem registerObject_existing_row_first (schema : Schema) (db : Database)
    (t : Tables) (id : ObjectId) (T1 T2 : Typename) :
  txn db = None → tables (store db) = Some t →
  select_typename id t = Some T1 → T2 ≠ T1 →
  registerObject schema (mkRef T2 id) db = (Throw (InconsistentType id T1 T2), db)
  ∧ ∀ o T, eval (registerObject schema o) db = Throw (UnknownType T)
           ∨ eval (registerObject schema o) db = Throw (AmbiguousType T) →
      select_typename (id_ o) t = None ∧ id_ o ∉ object_id_ <$> objects t.
Proof.
  intros Htxn Ht Hsel Hne. split.
  - unfold registerObject. rewrite (_inTransaction_on_tables _ db t) by done.
    rewrite (register_existing schema (mkRef T2 id) t T1 Hsel). simpl.
    by rewrite decide_False by done.
  - intros o T. unfold registerObject, eval.
    rewrite (_inTransaction_on_tables _ db t) by done.
    rewrite <-select_typename_None.
    destruct (select_typename (id_ o) t) as [T'|] eqn:Hsel'; [|done].
    rewrite (register_existing _ _ _ _ Hsel').
    case_decide; simpl; intros [?|?]; done.
Qed.



Lemma registerObject_existing_row_first_witness :
  registerObject githubSchema (mkRef "Wat" "my-favorite-id") favorite_db
    = (Throw (InconsistentType "my-favorite-id" "Issue" "Wat"), favorite_db)
  ∧ ∀ o T,
      eval (registerObject githubSchema o) favorite_db = Throw (UnknownType T)
      ∨ eval (registerObject githubSchema o) favorite_db = Throw (AmbiguousType T) →
      select_typename (id_ o) favorite_tables = None
      ∧ id_ o ∉ object_id_ <$> objects favorite_tables.
Proof.
  apply (registerObject_existing_row_first githubSchema favorite_db
           favorite_tables "my-favorite-id" "Issue" "Wat");
    [reflexivity|reflexivity|reflexivity|discriminate].
Defined.

Example registerObject_messages :
  message (InconsistentType "my-favorite-id" "Issue" "User")
    = String.concat EmptyString
        ["Inconsistent type for ID "; Json.dquote; "my-favorite-id"; Json.dquote;
         ": expected "; Json.dquote; "Issue"; Json.dquote;
         ", got "; Json.dquote; "User"; Json.dquote]
  ∧ eval (registerObject githubSchema (mkRef "Wat" "repo:sourcecred/example-github"))
         mirror_db = Throw (UnknownType "Wat")
  ∧ eval (registerObject githubSchema (mkRef "Actor" "user:credbot"))
         mirror_db = Throw (AmbiguousType "Actor").
Proof. vm_compute. done. Qed.

(** ** [_queryConnection] *)

(** C7. [_queryConnection] yields one selection, the field [name] with the
    argument [first], the page size, which is 100 when none is given,
    followed by the argument [after] exactly when the end cursor is not
    [undefined], a null literal for the cursor [null], and with the
    selections [totalCount], [pageInfo { endCursor hasNextPage }] and
    [nodes { __typename id }]. *)
Theorem queryConnection_selection (name : Fieldname)
    (endCursor : option EndCursor) (pageSize : option Z) :
  let selections :=
    [ Queries.FIELD "totalCount" [] [];
      Queries.FIELD "pageInfo" []
        [Queries.FIELD "endCursor" [] []; Queries.FIELD "hasNextPage" [] []];
      Queries.FIELD "nodes" []
        [Queries.FIELD "__typename" [] []; Queries.FIELD "id" [] []] ] in
  let first := ("first", Queries.LITERAL (Queries.Number (default 100 pageSize))) in
  (∃ args, _queryConnection name endCursor pageSize
             = [Queries.FIELD name args selections]
      ∧ Js.get "first" args
          = Some (Queries.LITERAL (Queries.Number (default 100 pageSize)))
      ∧ (is_Some (Js.get "after" args) ↔ endCursor ≠ None)
      ∧ Js.keys args
          = "first" :: (if endCursor is Some _ then ["after"] else []))
  ∧ _queryConnection name None pageSize
      = [Queries.FIELD name [first] selections]
  ∧ _queryConnection name (Some None) pageSize
      = [Queries.FIELD name
           [first; ("after", Queries.LITERAL Queries.Null)] selections]
  ∧ (∀ cursor, _queryConnection name (Some (Some cursor)) pageSize
      = [Queries.FIELD name
           [first; ("after", Queries.LITERAL (Queries.Text cursor))] selections])
  ∧ _queryConnection name endCursor None
      = _queryConnection name endCursor (Some 100).
Proof.
  simpl. split; [|done].
  destruct endCursor as [cursor|]; eexists; (split; [reflexivity|]);
    simpl; repeat split; try done; eauto.
Qed.

(** ** Rows and row ids *)

Lemma foldr_max_ge (ys : list Z) (y x : Z) :
  x = y ∨ x ∈ ys → x ≤ foldr Z.max y ys.
Proof.
  induction ys as [|z ys IH]; simpl.
  - intros [->|?%not_elem_of_nil]; [lia|done].
  - rewrite elem_of_cons. intros [->|[->|Hx]]; [|lia|].
    + specialize (IH (or_introl eq_refl)). lia.
    + specialize (IH (or_intror Hx)). lia.
Qed.

Lemma Sql_max_ge xs m x : Sql.max xs = Some m → x ∈ xs → x ≤ m.
Proof.
  destruct xs as [|y ys]; [done|]. simpl. intros [= <-] Hx.
  apply foldr_max_ge. apply elem_of_cons in Hx. tauto.
Qed.

Lemma next_rowid_gt rowids x : x ∈ rowids → x < Sql.next_rowid rowids.
Proof.
  intros Hx. unfold Sql.next_rowid.
  destruct (Sql.max rowids) as [m|] eqn:Hm; simpl.
  - pose proof (Sql_max_ge _ _ _ Hm Hx). lia.
  - destruct rowids; [by apply not_elem_of_nil in Hx|done].
Qed.

Lemma next_rowid_fresh rowids : Sql.next_rowid rowids ∉ rowids.
Proof. intros H%next_rowid_gt. lia. Qed.

Lemma foldr_max_elem (ys : list Z) (y : Z) : foldr Z.max y ys ∈ y :: ys.
Proof.
  induction ys as [|z ys IH]; simpl; [left|].
  destruct (Z.max_spec z (foldr Z.max y ys)) as [[_ ->]|[_ ->]].
  - apply elem_of_cons in IH as [->|IH]; [left|by do 2 right].
  - right; left.
Qed.

Lemma Sql_max_elem xs m : Sql.max xs = Some m → m ∈ xs.
Proof. destruct xs as [|y ys]; [done|]. intros [= <-]. apply foldr_max_elem. Qed.

(** IFNULL(MAX(idx), 0) + 1 over the indices 1, ..., n is n + 1. *)
Lemma next_index_seqZ (n : nat) :
  default 0 (Sql.max (seqZ 1 (Z.of_nat n))) + 1 = Z.of_nat n + 1.
Proof.
  destruct (Sql.max (seqZ 1 (Z.of_nat n))) as [m|] eqn:Hm; simpl.
  - pose proof (Sql_max_elem _ _ Hm) as Hin. apply elem_of_seqZ in Hin.
    assert (Z.of_nat n ∈ seqZ 1 (Z.of_nat n)) as Hn by (apply elem_of_seqZ; lia).
    pose proof (Sql_max_ge _ _ _ Hm Hn). lia.
  - destruct n as [|n]; [done|].
    rewrite Nat2Z.inj_succ, seqZ_cons in Hm by lia. done.
Qed.

(** ** What the mirror keeps true of its tables *)

(** *** The loop of [registerObject] over the fields *)

Lemma add_connection_step id entry t :
  add_connection id entry t =
    if is_connection entry.2
    then run (insert_connection id entry.1) t
    else (Ok tt, t).
Proof. unfold add_connection. by destruct entry as [f []]. Qed.

Lemma connection_fields_cons f ft fields :
  connection_fields ((f, ft) :: fields) =
    if is_connection ft then f :: connection_fields fields
    else connection_fields fields.
Proof.
  unfold connection_fields. rewrite filter_cons. simpl.
  by destruct (is_connection ft).
Qed.

(** Whatever the outcome, the loop only appends never-fetched rows of [id]
    to [connections], with new row ids; when it completes, one row per
    connection field, in order. *)
Lemma add_connections_frame id fields t r t' :
  for_of fields (add_connection id) t = (r, t') →
  updates t' = updates t ∧ objects t' = objects t ∧ links t' = links t
  ∧ connection_entries t' = connection_entries t
  ∧ ∃ rows, connections t' = connections t ++ rows
      ∧ Forall (λ c, object_id c = id ∧ never_fetched c) rows
      ∧ (NoDup (connection_rowid <$> connections t) →
         NoDup (connection_rowid <$> connections t'))
      ∧ (r = Ok tt → fieldname <$> rows = connection_fields fields).
Proof.
  revert t. induction fields as [|[f ft] fields IH]; intros t; simpl.
  - intros [= <- <-]. repeat split; try done. exists []. rewrite app_nil_r.
    repeat split; try done.
  - unfold mbind, SE_bind. rewrite add_connection_step, connection_fields_cons. simpl.
    destruct (is_connection ft); [|by apply IH].
    unfold run, insert_connection.
    repeat case_decide; try by (intros [= <- <-]; repeat split; try done;
      exists []; rewrite app_nil_r; repeat split; try done).
    intros Hrest. apply IH in Hrest as (-> & -> & -> & -> & rows & Hrows & Hall & Hnd & Hok).
    simpl in *. repeat split; try done.
    eexists (_ :: rows). split; [by rewrite Hrows, <-app_assoc|].
    split; [|split].
    + apply Forall_cons. by repeat split.
    + intros Hnd0. apply Hnd. rewrite fmap_app. simpl.
      apply NoDup_app. split; [done|]. split; [|apply NoDup_singleton].
      intros x Hx ->%list_elem_of_singleton. by apply next_rowid_fresh in Hx.
    + intros Hr. rewrite fmap_cons. simpl. by rewrite Hok.
Qed.

(** The loop completes when the owner is registered, the field names are
    distinct, and the owner has no row for any of them yet. *)
Lemma add_connections_ok id fields t :
  id ∈ object_id_ <$> objects t →
  NoDup (Js.keys fields) →
  (∀ c, c ∈ connections t → object_id c = id → fieldname c ∉ Js.keys fields) →
  ∃ t', for_of fields (add_connection id) t = (Ok tt, t').
Proof.
  revert t. induction fields as [|[f ft] fields IH]; intros t Hid Hnd Hfree; simpl.
  - by eexists.
  - unfold mbind, SE_bind. rewrite add_connection_step. simpl.
    apply NoDup_cons in Hnd as [Hf Hnd].
    destruct (is_connection ft).
    + unfold run, insert_connection. rewrite decide_False; last first.
      { intros (c & [= Hc1 Hc2] & Hc)%list_elem_of_fmap.
        eapply Hfree; [done..|]. rewrite <-Hc2. left. }
      rewrite decide_True by done.
      apply IH; simpl; [done..|].
      intros c [Hc| ->%list_elem_of_singleton]%elem_of_app Hcid; simpl.
      * intros Hin. eapply Hfree; [done..|]. by right.
      * done.
    + apply IH; [done..|]. intros c Hc Hcid Hin. eapply Hfree; [done..|]. by right.
Qed.

(** *** What a successful registration does *)

Lemma register_ok schema o t t' :
  _nontransactionallyRegisterObject schema o t = (Ok tt, t') →
  registered schema o t t'.
Proof.
  destruct (select_typename (id_ o) t) as [T|] eqn:Hsel.
  - rewrite (register_existing _ _ _ _ Hsel). case_decide; [|done].
    intros [= <-]. subst. by apply registered_already.
  - rewrite (register_new _ _ _ Hsel). unfold Js.read.
    destruct (Js.get _ _) as [[fields|]|] eqn:Hget;
      [|done|by destruct (decide _)].
    unfold mbind, SE_bind, run, insert_object. case_decide; [done|].
    intros (Hu & Ho & Hl & He & rows & Hrows & Hall & Hnd & Hok)%add_connections_frame.
    simpl in *. by eapply registered_new; eauto.
Qed.

Lemma filter_all {A} (P : A → Prop) `{∀ x, Decision (P x)} (l : list A) :
  Forall P l → filter P l = l.
Proof.
  induction 1 as [|x l Hx Hl IH]; [done|].
  by rewrite filter_cons, decide_True, IH.
Qed.

Lemma filter_none {A} (P : A → Prop) `{∀ x, Decision (P x)} (l : list A) :
  Forall (λ x, ¬ P x) l → filter P l = [].
Proof.
  induction 1 as [|x l Hx Hl IH]; [done|].
  by rewrite filter_cons, decide_False, IH.
Qed.

Lemma registered_inv schema o t t' :
  tables_inv schema t → registered schema o t t' → tables_inv schema t'.
Proof.
  intros Hinv [Hsel ->|fields rows Hsel Hget Hu Hl He Ho Hc Hrows Hnames Hnd]; [done|].
  destruct Hinv as [Hids Hrowids Howner Hfields Hidx Hnever].
  apply select_typename_None in Hsel.
  assert (connections_of (id_ o) t = []) as Hnone.
  { apply filter_none, Forall_forall. intros c Hc' Heq.
    apply Hsel. rewrite <-Heq. by apply Howner. }
  split.
  - rewrite Ho, fmap_app. apply NoDup_app. split; [done|].
    split; [|apply NoDup_singleton].
    by intros x Hx ->%list_elem_of_singleton.
  - by apply Hnd.
  - intros c. rewrite Hc, Ho, fmap_app, !elem_of_app.
    intros [Hin|Hin]; [left; by apply Howner|right].
    rewrite Forall_forall in Hrows. destruct (Hrows c Hin) as [Heq _].
    rewrite Heq. simpl. left.
  - intros o'. rewrite Ho, elem_of_app.
    unfold connections_of. rewrite Hc, filter_app.
    intros [Ho'| ->%list_elem_of_singleton].
    + destruct (Hfields o' Ho') as (fields' & Hget' & Hnames').
      exists fields'. split; [done|].
      rewrite (filter_none _ rows), app_nil_r; [done|].
      eapply Forall_impl; [exact Hrows|]. simpl. intros c [Hcid _] Heq.
      apply Hsel. rewrite <-Hcid, Heq. by apply list_elem_of_fmap_2.
    + exists fields. split; [done|]. simpl.
      fold (connections_of (id_ o) t). rewrite Hnone. simpl.
      rewrite filter_all; [done|].
      eapply Forall_impl; [exact Hrows|]. by intros c [Hcid _].
  - intros c. unfold entries_of. rewrite He. apply Hidx.
  - intros c. rewrite Hc, elem_of_app. intros [Hin|Hin]; [by apply Hnever|].
    rewrite Forall_forall in Hrows. by destruct (Hrows c Hin) as [_ ?].
Qed.

Lemma Js_get_Some {V} (k : string) (o : Js.Dict V) (v : V) :
  Js.get k o = Some v → (k, v) ∈ o.
Proof.
  induction o as [|[k' v'] o IH]; simpl; [done|].
  case_decide; [intros [= ->]; subst; left|intros ?; right; auto].
Qed.

Lemma schema_wf_fields schema T fields :
  schema_wf schema → Js.get T schema = Some (OBJECT fields) →
  NoDup (Js.keys fields).
Proof.
  intros [_ Hall] Hget%Js_get_Some. rewrite Forall_forall in Hall.
  apply (Hall _ Hget).
Qed.

(** Registration completes for an id that is registered under the same
    typename, and for a new id whose typename is an object type. *)
Lemma register_total schema o t :
  schema_wf schema → tables_inv schema t →
  match select_typename (id_ o) t with
  | Some T => T = typename_ o
  | None => ∃ fields, Js.get (typename_ o) schema = Some (OBJECT fields)
  end →
  ∃ t', _nontransactionallyRegisterObject schema o t = (Ok tt, t').
Proof.
  intros Hwf Hinv Hcase.
  destruct (select_typename (id_ o) t) as [T|] eqn:Hsel.
  - rewrite (register_existing _ _ _ _ Hsel), decide_True by done. eauto.
  - destruct Hcase as [fields Hget].
    rewrite (register_new _ _ _ Hsel), (Js_read_own _ _ _ Hget).
    apply select_typename_None in Hsel.
    unfold mbind, SE_bind, run, insert_object. rewrite decide_False by done.
    apply add_connections_ok; simpl.
    + rewrite fmap_app. apply elem_of_app. right. left.
    + by eapply schema_wf_fields.
    + intros c Hc Hid. destruct Hsel. rewrite <-Hid. by apply (inv_connection_owner _ _ Hinv).
Qed.

Lemma extends_refl t : extends t t.
Proof.
  split; try done. exists []. by rewrite app_nil_r.
Qed.

Lemma extends_trans t1 t2 t3 : extends t1 t2 → extends t2 t3 → extends t1 t3.
Proof.
  intros [Hu1 Hl1 [o1 Ho1] (m1 & Hc1 & Hm1)] [Hu2 Hl2 [o2 Ho2] (m2 & Hc2 & Hm2)].
  split; [congruence|congruence| |].
  - exists (o1 ++ o2). by rewrite Ho2, Ho1, <-app_assoc.
  - exists (m1 ++ m2). split; [by rewrite Hc2, Hc1, <-app_assoc|].
    apply Forall_app. split; [done|].
    eapply Forall_impl; [exact Hm2|]. intros c [Hnot ?]. split; [|done].
    intros Hin. apply Hnot. rewrite Ho1, fmap_app. apply elem_of_app. by left.
Qed.

Lemma registered_extends schema o t t' :
  registered schema o t t' →
  extends t t' ∧ connection_entries t' = connection_entries t.
Proof.
  intros [Hsel ->|fields rows Hsel Hget Hu Hl He Ho Hc Hrows Hnames Hnd].
  - split; [apply extends_refl|done].
  - split; [|done]. split; [done|done|by eexists|].
    exists rows. split; [done|]. eapply Forall_impl; [exact Hrows|].
    simpl. intros c [Heq ?]. split; [|done]. rewrite Heq.
    by apply select_typename_None.
Qed.

(** Rows of objects that were registered before are the same rows. *)
Lemma extends_connections_of t t' id :
  extends t t' → id ∈ object_id_ <$> objects t →
  connections_of id t' = connections_of id t.
Proof.
  intros [_ _ _ (more & Hc & Hmore)] Hid. unfold connections_of.
  rewrite Hc, filter_app, (filter_none _ more), app_nil_r; [done|].
  eapply Forall_impl; [exact Hmore|]. intros c [Hnot _] Heq.
  apply Hnot. by rewrite Heq.
Qed.

Lemma registered_select schema o t t' :
  tables_inv schema t → registered schema o t t' →
  select_typename (id_ o) t' = Some (typename_ o).
Proof.
  intros Hinv Hreg. pose proof (registered_inv _ _ _ _ Hinv Hreg) as Hinv'.
  destruct Hreg as [Hsel ->|fields rows Hsel Hget Hu Hl He Ho Hc Hrows Hnames Hnd];
    [done|].
  apply (select_typename_elem (mkObject (id_ o) None (typename_ o)) t').
  - apply Hinv'.
  - rewrite Ho. apply elem_of_app. right. left.
Qed.

Lemma select_typename_prefix id t t' T :
  NoDup (object_id_ <$> objects t') →
  prefix (objects t) (objects t') →
  select_typename id t = Some T → select_typename id t' = Some T.
Proof.
  intros Hnd [more Hmore] (o & Ho & <- & <-)%select_typename_Some.
  apply select_typename_elem; [done|]. rewrite Hmore. apply elem_of_app. by left.
Qed.

(** *** The statements of [_updateConnection] *)

Lemma filter_fmap_commute {A} (f : A → A) (P : A → Prop)
    `{∀ x, Decision (P x)} (l : list A) :
  (∀ x, P (f x) ↔ P x) → filter P (f <$> l) = f <$> filter P l.
Proof.
  intros Hf. induction l as [|x l IH]; [done|].
  rewrite fmap_cons, !filter_cons, IH.
  destruct (decide (P x)) as [Hx|Hx].
  - by rewrite decide_True by (by apply Hf).
  - by rewrite decide_False by (by rewrite Hf).
Qed.

Lemma update_connection_row_rowid cid u tc hnp ec c :
  connection_rowid (update_connection_row cid u tc hnp ec c) = connection_rowid c.
Proof. unfold update_connection_row. by case_decide. Qed.

Lemma update_connection_row_object_id cid u tc hnp ec c :
  object_id (update_connection_row cid u tc hnp ec c) = object_id c.
Proof. unfold update_connection_row. by case_decide. Qed.

Lemma update_connection_row_fieldname cid u tc hnp ec c :
  fieldname (update_connection_row cid u tc hnp ec c) = fieldname c.
Proof. unfold update_connection_row. by case_decide. Qed.

Lemma update_connection_ok schema cid u tc hnp ec t t' :
  update_connection cid u tc hnp ec t = Ok (tt, t') →
  t' = mkTables (updates t) (objects t) (links t)
         (update_connection_row cid u tc hnp ec <$> connections t)
         (connection_entries t)
  ∧ (cid ∈ connection_rowid <$> connections t → u ∈ update_rowid <$> updates t)
  ∧ (tables_inv schema t → tables_inv schema t').
Proof.
  unfold update_connection. case_decide as Hfk; [done|]. intros [= <-].
  split; [done|]. split.
  { intros Hcid. destruct (decide (u ∈ update_rowid <$> updates t)); [done|].
    destruct Hfk. done. }
  intros [Hids Hrowids Howner Hfields Hidx Hnever]. split; simpl.
  - done.
  - rewrite <-list_fmap_compose.
    erewrite list_fmap_ext; [exact Hrowids|].
    intros i c _. apply update_connection_row_rowid.
  - intros c' (c & -> & Hc)%list_elem_of_fmap.
    rewrite update_connection_row_object_id. by apply Howner.
  - intros o Ho. destruct (Hfields o Ho) as (fields & Hget & Hnames).
    exists fields. split; [done|]. rewrite <-Hnames.
    unfold connections_of. simpl. rewrite filter_fmap_commute; last first.
    { intros c. by rewrite update_connection_row_object_id. }
    rewrite <-list_fmap_compose.
    apply list_fmap_ext. intros i c _. apply update_connection_row_fieldname.
  - done.
  - intros c' (c & -> & Hc)%list_elem_of_fmap.
    unfold update_connection_row. case_decide; [done|]. by apply Hnever.
Qed.

Lemma select_next_index_inv schema cid t :
  tables_inv schema t →
  select_next_index cid t = Z.of_nat (length (entries_of cid t)) + 1.
Proof.
  intros Hinv. unfold select_next_index. fold (entries_of cid t).
  rewrite (inv_entry_indices _ _ Hinv). apply next_index_seqZ.
Qed.

Lemma insert_entry_ok schema cid index child t t' :
  insert_entry cid index child t = Ok (tt, t') →
  index = Z.of_nat (length (entries_of cid t)) + 1 →
  updates t' = updates t ∧ objects t' = objects t ∧ links t' = links t
  ∧ connections t' = connections t
  ∧ entry_columns <$> connection_entries t'
      = (entry_columns <$> connection_entries t) ++ [(cid, index, child)]
  ∧ length (entries_of cid t') = S (length (entries_of cid t))
  ∧ (tables_inv schema t → tables_inv schema t').
Proof.
  unfold insert_entry. repeat case_decide; try done. intros [= <-] Hindex. simpl.
  assert (∀ c, entries_of c (mkTables (updates t) (objects t) (links t)
      (connections t)
      (connection_entries t ++
         [mkEntry (Sql.next_rowid (entry_rowid <$> connection_entries t))
                  cid index child]))
    = entries_of c t ++
        (if decide (cid = c)
         then [mkEntry (Sql.next_rowid (entry_rowid <$> connection_entries t))
                       cid index child] else [])) as Hentries.
  { intros c. unfold entries_of. simpl. rewrite filter_app, filter_cons. simpl.
    by repeat case_decide. }
  split_and!; try done.
  - by rewrite fmap_app.
  - rewrite Hentries, decide_True, length_app by done. simpl. lia.
  - intros [Hids Hrowids Howner Hfields Hidx Hnever]. split; try done; simpl.
    intros c. rewrite Hentries. case_decide as Hc; [subst c|].
    + rewrite fmap_app, length_app, Hidx. simpl.
      rewrite Nat2Z.inj_add. change (Z.of_nat 1) with 1.
      rewrite (seqZ_app 1 (Z.of_nat (length (entries_of cid t))) 1) by lia.
      f_equal. rewrite seqZ_cons by lia. simpl. f_equal. lia.
    + rewrite app_nil_r. apply Hidx.
Qed.

Lemma insert_entry_total schema cid index child t :
  tables_inv schema t →
  index = Z.of_nat (length (entries_of cid t)) + 1 →
  cid ∈ connection_rowid <$> connections t →
  child ∈ object_id_ <$> objects t →
  ∃ t', insert_entry cid index child t = Ok (tt, t').
Proof.
  intros Hinv Hindex Hcid Hchild. unfold insert_entry.
  rewrite decide_False; last first.
  { intros (e & [= He1 He2] & He)%list_elem_of_fmap.
    assert (idx e ∈ idx <$> entries_of cid t) as Hin.
    { apply list_elem_of_fmap_2, list_elem_of_filter. done. }
    rewrite (inv_entry_indices _ _ Hinv) in Hin. apply elem_of_seqZ in Hin. lia. }
  rewrite decide_True by done. eauto.
Qed.

(** *** The loop of [_updateConnection] over the nodes *)

Lemma add_entries_cons schema cid node nodes next t :
  add_entries schema cid (node :: nodes) next t =
    match _nontransactionallyRegisterObject schema
            (mkRef (__typename node) (node_id node)) t with
    | (Ok _, t1) =>
        match insert_entry cid next (node_id node) t1 with
        | Ok (_, t2) => add_entries schema cid nodes (next + 1) t2
        | Throw e => (Throw e, t1)
        end
    | (Throw e, t1) => (Throw e, t1)
    end.
Proof.
  simpl. unfold mbind, SE_bind, run.
  destruct (_nontransactionallyRegisterObject _ _ _) as [[[]|e] t1]; [|done].
  simpl. by destruct (insert_entry _ _ _ _) as [[[] t2]|e].
Qed.

Lemma add_entries_extends schema cid nodes next t t' :
  add_entries schema cid nodes next t = (Ok tt, t') → extends t t'.
Proof.
  revert next t. induction nodes as [|node nodes IH]; intros next t.
  - intros [= <-]. apply extends_refl.
  - rewrite add_entries_cons.
    destruct (_nontransactionallyRegisterObject _ _ _) as [[[]|e] t1] eqn:Hreg; [|done].
    apply register_ok, registered_extends in Hreg as [Hext He].
    destruct (insert_entry _ _ _ _) as [[[] t2]|e] eqn:Hins; [|done].
    intros Hrest%IH. eapply extends_trans; [exact Hext|].
    eapply extends_trans; [|exact Hrest].
    unfold insert_entry in Hins. repeat case_decide; try done.
    injection Hins as <-. split; simpl; try done.
    exists []. by rewrite app_nil_r.
Qed.

Lemma add_entries_ok schema cid nodes next t t' :
  tables_inv schema t →
  next = Z.of_nat (length (entries_of cid t)) + 1 →
  add_entries schema cid nodes next t = (Ok tt, t') →
  tables_inv schema t'
  ∧ entry_columns <$> connection_entries t'
      = (entry_columns <$> connection_entries t)
        ++ imap (λ i node, (cid, next + Z.of_nat i, node_id node)) nodes
  ∧ ∀ node, node ∈ nodes →
      select_typename (node_id node) t' = Some (__typename node).
Proof.
  revert next t. induction nodes as [|node nodes IH]; intros next t Hinv Hnext.
  - intros [= <-]. split; [done|]. split; [by rewrite app_nil_r|].
    by intros node ?%not_elem_of_nil.
  - rewrite add_entries_cons.
    destruct (_nontransactionallyRegisterObject _ _ _) as [[[]|e] t1] eqn:Hreg; [|done].
    apply register_ok in Hreg.
    pose proof (registered_inv _ _ _ _ Hinv Hreg) as Hinv1.
    pose proof (registered_select _ _ _ _ Hinv Hreg) as Hsel1. simpl in Hsel1.
    apply registered_extends in Hreg as [Hext1 He1].
    destruct (insert_entry _ _ _ _) as [[[] t2]|e] eqn:Hins; [|done].
    assert (next = Z.of_nat (length (entries_of cid t1)) + 1) as Hnext1.
    { unfold entries_of. by rewrite He1. }
    destruct (insert_entry_ok schema _ _ _ _ _ Hins Hnext1)
      as (Hu2 & Ho2 & Hl2 & Hc2 & He2 & Hlen2 & Hinv2).
    specialize (Hinv2 Hinv1).
    intros Hrest. pose proof (add_entries_extends _ _ _ _ _ _ Hrest) as Hext.
    apply IH in Hrest as (Hinv' & He' & Hsel'); [|done|lia].
    split; [done|]. split.
    + rewrite He', He2, He1, <-app_assoc. f_equal. simpl. f_equal.
      * by rewrite Z.add_0_r.
      * apply imap_ext. intros i n _. simpl. do 2 f_equal. lia.
    + intros n [->|Hn]%elem_of_cons; [|by apply Hsel'].
      eapply select_typename_prefix; [apply Hinv'| |].
      * rewrite <-Ho2. apply Hext.
      * done.
Qed.

Lemma select_typename_registered schema o t t' id :
  registered schema o t t' →
  select_typename id t' =
    match select_typename id t with
    | Some T => Some T
    | None => if decide (id_ o = id) then Some (typename_ o) else None
    end.
Proof.
  intros [Hsel ->|fields rows Hsel Hget Hu Hl He Ho Hc Hrows Hnames Hnd].
  - destruct (select_typename id t) eqn:Hid; [done|].
    case_decide; [congruence|done].
  - unfold select_typename. rewrite Ho, filter_app, filter_cons. simpl.
    destruct (filter _ (objects t)) as [|o' l]; simpl; [|done].
    destruct (decide (id_ o = id)); reflexivity.
Qed.

Lemma add_entries_total schema cid nodes next t :
  schema_wf schema → tables_inv schema t →
  next = Z.of_nat (length (entries_of cid t)) + 1 →
  cid ∈ connection_rowid <$> connections t →
  Forall (node_ok schema t) nodes → nodes_consistent nodes →
  ∃ t', add_entries schema cid nodes next t = (Ok tt, t').
Proof.
  intros Hwf. revert next t.
  induction nodes as [|node nodes IH]; intros next t Hinv Hnext Hcid Hok Hcons.
  - by eexists.
  - rewrite add_entries_cons. apply Forall_cons in Hok as [Hnode Hok].
    destruct (register_total schema (mkRef (__typename node) (node_id node)) t
                Hwf Hinv Hnode) as [t1 Hreg].
    rewrite Hreg. apply register_ok in Hreg.
    pose proof (registered_inv _ _ _ _ Hinv Hreg) as Hinv1.
    pose proof (registered_select _ _ _ _ Hinv Hreg) as Hsel1. simpl in Hsel1.
    pose proof (registered_extends _ _ _ _ Hreg) as [Hext1 He1].
    assert (next = Z.of_nat (length (entries_of cid t1)) + 1) as Hnext1.
    { unfold entries_of. by rewrite He1. }
    assert (cid ∈ connection_rowid <$> connections t1) as Hcid1.
    { destruct Hext1 as [_ _ _ (more & -> & _)].
      rewrite fmap_app. apply elem_of_app. by left. }
    destruct (insert_entry_total schema cid next (node_id node) t1)
      as [t2 Hins]; [done..| |].
    { apply select_typename_Some in Hsel1 as (o & Ho & <- & _).
      by apply list_elem_of_fmap_2. }
    rewrite Hins.
    destruct (insert_entry_ok schema _ _ _ _ _ Hins Hnext1)
      as (Hu2 & Ho2 & Hl2 & Hc2 & He2 & Hlen2 & Hinv2).
    apply IH; [by apply Hinv2|lia|by rewrite Hc2| |].
    + rewrite Forall_forall in Hok |- *. intros n Hn.
      specialize (Hok n Hn). unfold node_ok in *.
      assert (select_typename (node_id n) t2 = select_typename (node_id n) t1) as ->.
      { unfold select_typename. by rewrite Ho2. }
      rewrite (select_typename_registered _ _ _ _ (node_id n) Hreg). simpl.
      destruct (select_typename (node_id n) t) as [T|]; [done|].
      case_decide as Hid; [|done].
      apply Hcons; [left|by right|done].
    + intros n1 n2 Hn1 Hn2. apply Hcons; by right.
Qed.

(** *** [_nontransactionallyUpdateConnection] *)

Lemma select_connection_Some oid name t c :
  select_connection oid name t = Some c →
  c ∈ connections t ∧ object_id c = oid ∧ fieldname c = name.
Proof.
  unfold select_connection.
  intros Hc. apply head_Some_elem_of, list_elem_of_filter in Hc.
  by destruct Hc as [[??]?].
Qed.

Lemma select_connection_None oid name t :
  select_connection oid name t = None →
  ∀ c, c ∈ connections t → ¬ (object_id c = oid ∧ fieldname c = name).
Proof.
  unfold select_connection. rewrite head_None. intros Hnil c Hc Hkey.
  assert (c ∈ filter (λ c, object_id c = oid ∧ fieldname c = name) (connections t))
    as Hin by (by apply list_elem_of_filter).
  rewrite Hnil in Hin. by apply not_elem_of_nil in Hin.
Qed.

Lemma updateConnection_unknown schema u oid name qr t :
  select_connection oid name t = None →
  _nontransactionallyUpdateConnection schema u oid name qr t
    = (Throw (UnknownConnection oid name), t).
Proof.
  intros Hsel. unfold _nontransactionallyUpdateConnection. se_unfold.
  by rewrite Hsel.
Qed.

Lemma updateConnection_known schema u oid name qr t c :
  select_connection oid name t = Some c →
  _nontransactionallyUpdateConnection schema u oid name qr t =
    match update_connection (connection_rowid c) u (totalCount qr)
            (if hasNextPage (pageInfo qr) then 1 else 0)
            (endCursor (pageInfo qr)) t with
    | Ok (_, t1) =>
        add_entries schema (connection_rowid c) (nodes qr)
          (select_next_index (connection_rowid c) t1) t1
    | Throw e => (Throw e, t)
    end.
Proof.
  intros Hsel. unfold _nontransactionallyUpdateConnection. se_unfold.
  rewrite Hsel. simpl. by destruct (update_connection _ _ _ _ _ _) as [[[] t1]|e].
Qed.

Lemma head_app_Some {A} (l k : list A) x : head l = Some x → head (l ++ k) = Some x.
Proof. by destruct l. Qed.

Lemma updateConnection_ok schema u oid name qr t t' :
  tables_inv schema t →
  _nontransactionallyUpdateConnection schema u oid name qr t = (Ok tt, t') →
  ∃ c, select_connection oid name t = Some c
    ∧ u ∈ update_rowid <$> updates t
    ∧ tables_inv schema t'
    ∧ select_connection oid name t' = Some (updated_connection u qr c)
    ∧ entry_columns <$> connection_entries t'
        = (entry_columns <$> connection_entries t)
          ++ imap (λ i node, (connection_rowid c,
                              select_next_index (connection_rowid c) t + Z.of_nat i,
                              node_id node)) (nodes qr)
    ∧ ∀ node, node ∈ nodes qr →
        select_typename (node_id node) t' = Some (__typename node).
Proof.
  intros Hinv.
  destruct (select_connection oid name t) as [c|] eqn:Hsel;
    [|by rewrite updateConnection_unknown].
  rewrite (updateConnection_known _ _ _ _ _ _ _ Hsel).
  destruct (update_connection _ _ _ _ _ _) as [[[] t1]|e] eqn:Hup; [|done].
  apply (update_connection_ok schema) in Hup as (Ht1 & Hfk & Hinv1).
  specialize (Hinv1 Hinv). intros Hloop.
  pose proof (add_entries_extends _ _ _ _ _ _ Hloop) as Hext.
  apply add_entries_ok in Hloop as (Hinv' & He' & Hsel');
    [|done|by apply (select_next_index_inv schema)].
  exists c. split; [done|]. pose proof (select_connection_Some _ _ _ _ Hsel) as (Hc & Hoid & Hname).
  split; [by apply Hfk, list_elem_of_fmap_2|]. split; [done|].
  assert (select_next_index (connection_rowid c) t1
          = select_next_index (connection_rowid c) t) as Hnext by (by subst t1).
  rewrite Hnext in He'. split; [|split; [by subst t1|done]].
  destruct Hext as [_ _ _ (more & Hmore & _)].
  unfold select_connection. rewrite Hmore, filter_app. apply head_app_Some.
  subst t1. simpl. rewrite filter_fmap_commute; last first.
  { intros x. by rewrite update_connection_row_object_id, update_connection_row_fieldname. }
  unfold select_connection in Hsel.
  destruct (filter _ (connections t)) as [|c0 l]; simplify_eq/=.
  f_equal. unfold update_connection_row, updated_connection.
  by rewrite decide_True.
Qed.

Lemma updateConnection_total schema u oid name qr t c :
  schema_wf schema → tables_inv schema t →
  select_connection oid name t = Some c →
  u ∈ update_rowid <$> updates t →
  Forall (node_ok schema t) (nodes qr) → nodes_consistent (nodes qr) →
  ∃ t', _nontransactionallyUpdateConnection schema u oid name qr t = (Ok tt, t').
Proof.
  intros Hwf Hinv Hsel Hu Hok Hcons.
  rewrite (updateConnection_known _ _ _ _ _ _ _ Hsel).
  pose proof (select_connection_Some _ _ _ _ Hsel) as (Hc & _).
  destruct (update_connection _ _ _ _ _ _) as [[[] t1]|e] eqn:Hup.
  - apply (update_connection_ok schema) in Hup as (Ht1 & Hfk & Hinv1).
    specialize (Hinv1 Hinv).
    apply add_entries_total;
      [done|done|by apply (select_next_index_inv schema)| | |done].
    + subst t1. simpl. rewrite <-list_fmap_compose.
      erewrite list_fmap_ext; [by apply list_elem_of_fmap_2|].
      intros i x _. apply update_connection_row_rowid.
    + eapply Forall_impl; [exact Hok|]. intros n. unfold node_ok, select_typename.
      by subst t1.
  - unfold update_connection in Hup. case_decide as Hfk; [|done].
    by destruct Hfk as [_ []].
Qed.

(** A response whose first node has an id that is registered under another
    typename is refused. *)
Lemma updateConnection_inconsistent schema u oid name qr t c node rest T :
  select_connection oid name t = Some c →
  u ∈ update_rowid <$> updates t →
  nodes qr = node :: rest →
  select_typename (node_id node) t = Some T → T ≠ __typename node →
  eval (_nontransactionallyUpdateConnection schema u oid name qr) t
    = Throw (InconsistentType (node_id node) T (__typename node)).
Proof.
  intros Hsel Hu Hnodes Hty Hne. unfold eval.
  rewrite (updateConnection_known _ _ _ _ _ _ _ Hsel).
  unfold update_connection. rewrite decide_False by tauto.
  rewrite Hnodes, add_entries_cons.
  rewrite (register_existing _ _ _ T) by done. simpl.
  by rewrite decide_False.
Qed.

(** ** The constructor *)

Lemma primitive_field_names_frame fields acc s r s' :
  primitive_field_names fields acc s = (r, s') → s' = s.
Proof.
  revert acc. induction fields as [|[f []] fields IH]; intros acc; simpl; eauto.
  - by intros [= _ <-].
  - destruct (isSqlSafe f); simpl; eauto. by intros [= _ <-].
Qed.

Lemma primitive_field_names_ok fields acc s :
  Forall (λ f, isSqlSafe f) (primitive_names fields) →
  primitive_field_names fields acc s = (Ok (acc ++ primitive_names fields), s).
Proof.
  revert acc. unfold primitive_names.
  induction fields as [|[f ft] fields IH]; intros acc; simpl.
  - intros _. by rewrite app_nil_r.
  - rewrite filter_cons. simpl.
    destruct ft; simpl; try apply IH.
    rewrite Forall_cons. simpl.
    intros [Hf Hrest]. destruct (isSqlSafe f); [|done]. simpl.
    rewrite IH by done. by rewrite <-app_assoc.
Qed.

Lemma create_own_data_table_frame entry s r s' :
  create_own_data_table entry s = (r, s') →
  meta s' = meta s ∧ tables s' = tables s.
Proof.
  unfold create_own_data_table. destruct entry as [T [fields|clauses]]; simpl.
  - destruct (isSqlSafe T); simpl; [|by intros [= _ <-]].
    unfold mbind, SE_bind.
    destruct (primitive_field_names _ _ _) as [[names|e] s1] eqn:Hnames.
    + apply primitive_field_names_frame in Hnames as ->.
      unfold run, create_data_table. repeat case_decide; by intros [= _ <-].
    + apply primitive_field_names_frame in Hnames as ->. by intros [= _ <-].
  - by intros [= _ <-].
Qed.

Lemma create_own_data_tables_frame (schema : Schema) s r s' :
  for_of schema create_own_data_table s = (r, s') →
  meta s' = meta s ∧ tables s' = tables s.
Proof.
  revert s. induction schema as [|entry schema IH]; intros s; simpl.
  - by intros [= _ <-].
  - unfold mbind, SE_bind.
    destruct (create_own_data_table entry s) as [[[]|e] s1] eqn:Hentry.
    + apply create_own_data_table_frame in Hentry as [<- <-]. apply IH.
    + apply create_own_data_table_frame in Hentry as [<- <-]. by intros [= _ <-].
Qed.

Lemma fold_case_app (a b : string) :
  Sql.fold_case (a +:+ b) = Sql.fold_case a +:+ Sql.fold_case b.
Proof.
  induction a as [|x a IH]; [done|].
  change (String (Sql.fold_char x) (Sql.fold_case (a +:+ b))
          = String (Sql.fold_char x) (Sql.fold_case a +:+ Sql.fold_case b)).
  by rewrite IH.
Qed.

Lemma layout_names_NoDup (schema : Schema) :
  NoDup (Sql.fold_case <$> (object_types schema).*1) →
  NoDup (Sql.fold_case <$> (layout schema).*1).
Proof.
  intros Hnd. unfold layout.
  assert (Sql.fold_case <$> (data_table <$> object_types schema).*1
          = String.append "data_" <$> (Sql.fold_case <$> (object_types schema).*1))
    as ->.
  { rewrite <-!list_fmap_compose. apply list_fmap_ext.
    intros i [T fields] _. simpl. by rewrite fold_case_app. }
  by apply (NoDup_fmap_2 _).
Qed.

Lemma create_own_data_tables_ok (schema : Schema) s :
  Forall object_type_ok (object_types schema) →
  NoDup (Sql.fold_case <$> ((data_tables s).*1 ++ (layout schema).*1)) →
  for_of schema create_own_data_table s
    = (Ok tt, mkStore (meta s) (tables s) (data_tables s ++ layout schema)).
Proof.
  revert s. induction schema as [|[T [fields|clauses]] schema IH]; intros s Hok Hnd.
  - simpl. rewrite app_nil_r. by destruct s.
  - change (object_types ((T, OBJECT fields) :: schema))
      with ((T, fields) :: object_types schema) in Hok.
    change (layout ((T, OBJECT fields) :: schema))
      with (data_table (T, fields) :: layout schema) in *.
    apply Forall_cons in Hok as [(Hsafe & Hprims & Hcols) Hok]. simpl in *.
    unfold mbind, SE_bind, create_own_data_table. simpl.
    destruct (isSqlSafe T); [|done]. simpl.
    unfold mbind, SE_bind. rewrite primitive_field_names_ok by done. simpl.
    unfold run, create_data_table.
    rewrite fmap_app, fmap_cons in Hnd.
    rewrite decide_False; last first.
    { intros Hin. apply NoDup_app in Hnd as (_ & Hdisj & _).
      apply (Hdisj _ Hin). left. }
    rewrite decide_True by done.
    rewrite IH; simpl; [|done|].
    + by rewrite <-app_assoc.
    + rewrite fmap_app, !fmap_app, <-app_assoc. simpl. done.
  - change (object_types ((T, UNION clauses) :: schema))
      with (object_types schema) in Hok.
    change (layout ((T, UNION clauses) :: schema)) with (layout schema) in *.
    simpl. unfold mbind, SE_bind. simpl. by apply IH.
Qed.

Lemma initialize_at_eq version (schema : Schema) db :
  txn db = None →
  initialize_at version schema db =
    match existing_blob (store db) with
    | Some existing =>
        if decide (existing = schema_blob version schema) then (Ok tt, db)
        else (Throw IncompatibleSchema, db)
    | None =>
        match tables (store db) with
        | Some _ => (Throw Sql.SQLITE_ERROR, db)
        | None =>
            match for_of schema create_own_data_table
                    (mkStore (Some [(0, schema_blob version schema)])
                             (Some no_rows) (data_tables (store db))) with
            | (Ok _, s') => (Ok tt, mkDatabase s' None)
            | (Throw e, _) => (Throw e, db)
            end
        end
    end.
Proof.
  intros Htxn. unfold initialize_at. rewrite _inTransaction_on_store by done.
  destruct db as [[m ts d] tx]. simpl in *. subst tx.
  unfold existing_blob, mbind at 1 2, SE_bind, run at 1 2. simpl.
  destruct m as [[|[zero existing] rows]|]; simpl.
  - unfold mbind, SE_bind, run, insert_meta, create_structural_tables. simpl.
    destruct ts; simpl; [done|].
    by destruct (for_of _ _ _) as [[[]|e] s'].
  - repeat case_decide; simplify_eq; done.
  - unfold mbind, SE_bind, run, insert_meta, create_structural_tables. simpl.
    destruct ts; simpl; [done|].
    by destruct (for_of _ _ _) as [[[]|e] s'].
Qed.


Lemma constructor_same (schema : Schema) db :
  txn db = None →
  existing_blob (store db) = Some (schema_blob MIRROR_v1 schema) →
  constructor schema db = (Ok tt, db).
Proof.
  intros Htxn Hblob. unfold constructor, _initialize.
  by rewrite initialize_at_eq, Hblob, decide_True.
Qed.




(** ** The databases of a mirror *)

Lemma tables_inv_no_rows schema : tables_inv schema no_rows.
Proof.
  split; simpl; try done; try apply NoDup_nil_2;
    by intros ? ?%not_elem_of_nil.
Qed.

Lemma insert_update_inv schema ts t :
  tables_inv schema t →
  tables_inv schema
    (mkTables (updates t ++ [mkUpdate (Sql.next_rowid (update_rowid <$> updates t)) ts])
              (objects t) (links t) (connections t) (connection_entries t)).
Proof. by intros []. Qed.

Lemma mirror_inv_set_tables schema db t' :
  mirror_inv schema db → tables_inv schema t' →
  mirror_inv schema (set_tables t' db).
Proof.
  intros (Htxn & Hblob & _) Hinv'. split; [done|]. split; [done|]. eauto.
Qed.

Lemma step_inv schema db db' :
  mirror_inv schema db → step schema db db' → mirror_inv schema db'.
Proof.
  intros Hinv Hstep. pose proof Hinv as (Htxn & Hblob & t & Ht & Htinv).
  destruct Hstep as [|o|ts|since|oid name|u oid name qr]; unfold exec.
  - by rewrite constructor_same.
  - unfold registerObject. rewrite (_inTransaction_on_tables _ db t) by done.
    destruct (_nontransactionallyRegisterObject schema o t) as [[[]|e] t'] eqn:Hreg;
      [|done].
    apply mirror_inv_set_tables; [done|].
    eapply registered_inv; [done|]. by apply register_ok.
  - unfold _createUpdate. rewrite (on_tables_Some _ db t) by done. simpl.
    apply mirror_inv_set_tables; [done|]. by apply insert_update_inv.
  - by rewrite (findOutdated_eq db t).
  - unfold _getEndCursor. rewrite (on_tables_Some _ db t) by done. simpl.
    se_unfold. destruct (select_connection oid name t); simpl;
      by rewrite set_tables_id.
  - unfold _updateConnection. rewrite (_inTransaction_on_tables _ db t) by done.
    destruct (_nontransactionallyUpdateConnection schema u oid name qr t)
      as [[[]|e] t'] eqn:Hup; [|done].
    apply mirror_inv_set_tables; [done|].
    by apply updateConnection_ok in Hup as (c & _ & _ & ? & _).
Qed.

Lemma reachable_inv schema db : reachable schema db → mirror_inv schema db.
Proof.
  induction 1 as [Hok|db db' _ IH Hstep]; [|by eapply step_inv].
  revert Hok. unfold eval, exec, constructor, _initialize.
  rewrite initialize_at_eq by done. simpl.
  destruct (for_of schema create_own_data_table _) as [[[]|e] s'] eqn:Hloop; [|done].
  intros _. apply create_own_data_tables_frame in Hloop as [Hmeta Htables].
  simpl in *. split; [done|]. split.
  - unfold existing_blob. simpl. by rewrite Hmeta.
  - exists no_rows. split; [done|]. apply tables_inv_no_rows.
Qed.

(** ** Connections follow the schema *)

Lemma connection_fields_elem fields f :
  f ∈ connection_fields fields ↔ ∃ T, (f, CONNECTION T) ∈ fields.
Proof.
  unfold connection_fields. rewrite list_elem_of_fmap. split.
  - intros ([f' ft] & -> & [Hconn Hin]%list_elem_of_filter). simpl in *.
    destruct ft; try done. eauto.
  - intros (T & Hin). exists (f, CONNECTION T). split; [done|].
    by apply list_elem_of_filter.
Qed.

Lemma updateConnection_keys schema u oid name qr t t' id :
  _nontransactionallyUpdateConnection schema u oid name qr t = (Ok tt, t') →
  id ∈ object_id_ <$> objects t →
  connection_key <$> connections_of id t' = connection_key <$> connections_of id t.
Proof.
  destruct (select_connection oid name t) as [c|] eqn:Hsel;
    [|by rewrite updateConnection_unknown].
  rewrite (updateConnection_known _ _ _ _ _ _ _ Hsel).
  destruct (update_connection _ _ _ _ _ _) as [[[] t1]|e] eqn:Hup; [|done].
  apply (update_connection_ok schema) in Hup as (-> & _ & _).
  intros Hext%add_entries_extends Hid.
  rewrite (extends_connections_of _ _ _ Hext) by done.
  unfold connections_of. simpl. rewrite filter_fmap_commute; last first.
  { intros x. by rewrite update_connection_row_object_id. }
  rewrite <-list_fmap_compose. apply list_fmap_ext. intros i x _.
  unfold connection_key. simpl.
  by rewrite update_connection_row_object_id, update_connection_row_fieldname.
Qed.

Lemma step_connection_keys schema db db' t id :
  txn db = None → tables (store db) = Some t →
  existing_blob (store db) = Some (schema_blob MIRROR_v1 schema) →
  step schema db db' → id ∈ object_id_ <$> objects t →
  ∃ t', tables (store db') = Some t'
    ∧ connection_key <$> connections_of id t'
        = connection_key <$> connections_of id t.
Proof.
  intros Htxn Ht Hblob Hstep Hid.
  destruct Hstep as [|o|ts|since|oid name|u oid name qr]; unfold exec.
  - rewrite constructor_same by done. eauto.
  - unfold registerObject. rewrite (_inTransaction_on_tables _ db t) by done.
    destruct (_nontransactionallyRegisterObject schema o t) as [[[]|e] t'] eqn:Hreg;
      [|eauto].
    exists t'. split; [done|].
    apply register_ok, registered_extends in Hreg as [Hext _].
    by rewrite (extends_connections_of _ _ _ Hext).
  - unfold _createUpdate. rewrite (on_tables_Some _ db t) by done. simpl. eauto.
  - rewrite (findOutdated_eq db t) by done. eauto.
  - unfold _getEndCursor. rewrite (on_tables_Some _ db t) by done. simpl.
    se_unfold. destruct (select_connection oid name t); simpl; eauto.
  - unfold _updateConnection. rewrite (_inTransaction_on_tables _ db t) by done.
    destruct (_nontransactionallyUpdateConnection schema u oid name qr t)
      as [[[]|e] t'] eqn:Hup; [|eauto].
    exists t'. split; [done|]. by eapply updateConnection_keys.
Qed.

(** C6. In every database of a mirror, each registered object has an object
    type of the schema, and the field names of its rows in [connections] are
    exactly the connection fields of that type. [registerObject] of a new
    id under an object type appends the object with [last_update] NULL and,
    for each connection field in order, one row with [last_update],
    [total_count], [has_next_page] and [end_cursor] all NULL. No call
    changes the owner or the field name of the rows of an object that is
    registered already, nor their number. *)
Theorem connections_follow_schema (schema : Schema) (db : Database) :
  reachable schema db →
  ∃ t, tables (store db) = Some t
    ∧ (∀ o, o ∈ objects t →
         ∃ fields, Js.get (object_typename o) schema = Some (OBJECT fields)
           ∧ ∀ f, (∃ c, c ∈ connections t ∧ object_id c = object_id_ o
                        ∧ fieldname c = f)
                  ↔ (∃ T, (f, CONNECTION T) ∈ fields))
    ∧ (schema_wf schema → ∀ o fields,
         id_ o ∉ object_id_ <$> objects t →
         Js.get (typename_ o) schema = Some (OBJECT fields) →
         ∃ t' rows, registerObject schema o db = (Ok tt, set_tables t' db)
           ∧ objects t' = objects t ++ [mkObject (id_ o) None (typename_ o)]
           ∧ connections t' = connections t ++ rows
           ∧ fieldname <$> rows = connection_fields fields
           ∧ Forall (λ c, object_id c = id_ o ∧ last_update c = None
                          ∧ total_count c = None ∧ has_next_page c = None
                          ∧ end_cursor c = None) rows)
    ∧ (∀ db' id, step schema db db' → id ∈ object_id_ <$> objects t →
         ∃ t', tables (store db') = Some t'
           ∧ connection_key <$> connections_of id t'
               = connection_key <$> connections_of id t).
Proof.
  intros (Htxn & Hblob & t & Ht & Hinv)%reachable_inv.
  exists t. split; [done|]. split_and!.
  - intros o Ho. destruct (inv_connection_fields _ _ Hinv o Ho)
      as (fields & Hget & Hnames).
    exists fields. split; [done|]. intros f.
    rewrite <-connection_fields_elem, <-Hnames, list_elem_of_fmap.
    unfold connections_of. split.
    + intros (c & Hc & Hid & <-). exists c. split; [done|].
      by apply list_elem_of_filter.
    + intros (c & -> & [Hid Hc]%list_elem_of_filter). eauto.
  - intros Hwf o fields Hnew Hget.
    destruct (register_total schema o t Hwf Hinv) as [t' Hreg].
    { apply select_typename_None in Hnew. rewrite Hnew. eauto. }
    unfold registerObject. rewrite (_inTransaction_on_tables _ db t) by done.
    rewrite Hreg. apply register_ok in Hreg.
    destruct Hreg as [Hsel _|fields' rows Hsel Hget' Hu Hl He Ho Hc Hrows Hnames Hnd].
    { apply select_typename_Some in Hsel as (o' & Ho' & Heq & _).
      destruct Hnew. rewrite <-Heq. by apply list_elem_of_fmap_2. }
    exists t', rows. simplify_eq. done.
  - intros db' id Hstep Hid. by eapply step_connection_keys.
Qed.

Lemma connections_follow_schema_witness :
  ∃ t' rows,
    registerObject githubSchema (mkRef "Repository" "R") favorite_db
      = (Ok tt, set_tables t' favorite_db)
    ∧ objects t' = objects favorite_tables ++ [mkObject "R" None "Repository"]
    ∧ connections t' = connections favorite_tables ++ rows
    ∧ fieldname <$> rows = ["issues"]
    ∧ Forall (λ c, object_id c = "R" ∧ last_update c = None
                   ∧ total_count c = None ∧ has_next_page c = None
                   ∧ end_cursor c = None) rows.
Proof.
  assert (reachable githubSchema favorite_db) as Hreach.
  { apply (reachable_step _ mirror_db); [|apply step_registerObject].
    apply reachable_new. reflexivity. }
  destruct (connections_follow_schema githubSchema favorite_db Hreach)
    as (t & Ht & _ & Hregister & _).
  assert (t = favorite_tables) as ->.
  { assert (tables (store favorite_db) = Some favorite_tables) as Ht'
      by reflexivity.
    congruence. }
  apply (Hregister ltac:(compute_done) (mkRef "Repository" "R")
           [("id", ID); ("url", PRIMITIVE); ("issues", CONNECTION "Issue")]).
  - compute_done.
  - reflexivity.
Defined.

(** ** Ingestion of a page of a connection *)

Lemma updateConnection_objects schema u oid name qr t t' :
  _nontransactionallyUpdateConnection schema u oid name qr t = (Ok tt, t') →
  prefix (objects t) (objects t').
Proof.
  destruct (select_connection oid name t) as [c|] eqn:Hsel;
    [|by rewrite updateConnection_unknown].
  rewrite (updateConnection_known _ _ _ _ _ _ _ Hsel).
  destruct (update_connection _ _ _ _ _ _) as [[[] t1]|e] eqn:Hup; [|done].
  apply (update_connection_ok schema) in Hup as (-> & _ & _).
  by intros [_ _ ? _]%add_entries_extends.
Qed.

Lemma StronglySorted_seqZ (m : Z) (n : nat) :
  StronglySorted Z.lt (seqZ m (Z.of_nat n)).
Proof.
  revert m. induction n as [|n IH]; intros m; [constructor|].
  rewrite Nat2Z.inj_succ, seqZ_cons by lia.
  replace (Z.pred (Z.succ (Z.of_nat n))) with (Z.of_nat n) by lia.
  constructor; [apply IH|].
  apply Forall_forall. intros x Hx%elem_of_seqZ. lia.
Qed.

Lemma two_issues_consistent : nodes_consistent (nodes two_issues).
Proof.
  intros n1 n2 Hn1 Hn2. simpl in Hn1, Hn2.
  apply elem_of_cons in Hn1 as [->|Hn1]; apply elem_of_cons in Hn2 as [->|Hn2];
    try done;
    repeat match goal with
           | H : _ ∈ [_] |- _ => apply list_elem_of_singleton in H as ->
           end; done.
Defined.

(** Nodes that end up registered under their typenames could be registered. *)
Lemma registered_nodes_ok schema t t' (nodes : list NodeFieldResult) :
  tables_inv schema t' → prefix (objects t) (objects t') →
  (∀ node, node ∈ nodes →
     select_typename (node_id node) t' = Some (__typename node)) →
  Forall (node_ok schema t) nodes ∧ nodes_consistent nodes.
Proof.
  intros Hinv' Hprefix Hsel'. split.
  - apply Forall_forall. intros node Hnode. unfold node_ok.
    specialize (Hsel' node Hnode).
    destruct (select_typename (node_id node) t) as [T|] eqn:Hsel.
    + eapply select_typename_prefix in Hsel; [|apply Hinv'|done]. congruence.
    + apply select_typename_Some in Hsel' as (o & Ho & _ & <-).
      destruct (inv_connection_fields _ _ Hinv' o Ho) as (fields & Hget & _).
      eauto.
  - intros n1 n2 Hn1 Hn2 Hid.
    pose proof (Hsel' n1 Hn1) as H1. pose proof (Hsel' n2 Hn2) as H2.
    rewrite Hid in H1. congruence.
Qed.

(** C2. On every database of a mirror, [_updateConnection]: throws the
    unknown-connection error, changing nothing, when [connections] has no row
    for the object and field; when it returns, the row of the connection
    holds the update id, the total count, the has-next-page flag (1 or 0) and
    the end cursor of the response, every node is registered under its
    typename, no object was removed, and [connection_entries] has gained, in
    response order, one row per node, with the indices IFNULL(MAX(idx), 0) + 1
    and up by one per node; it returns exactly when the connection has a row,
    the update exists and every node can be registered, and it throws the
    inconsistent-type error, changing nothing, when the first node's id is
    registered under another typename; whenever it throws, the database is
    as before.
    Within every connection the indices are 1, 2, ... in insertion order:
    strictly increasing, starting at 1. *)
Theorem updateConnection_ingests (schema : Schema) (db : Database)
    (updateId : UpdateId) (objectId : ObjectId) (name : Fieldname)
    (queryResult : ConnectionFieldResult) :
  reachable schema db →
  ∃ t, tables (store db) = Some t
    ∧ (select_connection objectId name t = None →
         _updateConnection schema updateId objectId name queryResult db
           = (Throw (UnknownConnection objectId name), db))
    ∧ (∀ db',
         _updateConnection schema updateId objectId name queryResult db
           = (Ok tt, db') →
         ∃ c t', select_connection objectId name t = Some c
           ∧ updateId ∈ update_rowid <$> updates t
           ∧ db' = set_tables t' db
           ∧ select_connection objectId name t'
               = Some (updated_connection updateId queryResult c)
           ∧ Forall (node_ok schema t) (nodes queryResult)
           ∧ nodes_consistent (nodes queryResult)
           ∧ prefix (objects t) (objects t')
           ∧ (∀ node, node ∈ nodes queryResult →
                select_typename (node_id node) t' = Some (__typename node))
           ∧ entry_columns <$> connection_entries t'
               = (entry_columns <$> connection_entries t)
                 ++ imap (λ i node,
                            (connection_rowid c,
                             select_next_index (connection_rowid c) t + Z.of_nat i,
                             node_id node)) (nodes queryResult))
    ∧ (schema_wf schema →
       is_Some (select_connection objectId name t) →
       updateId ∈ update_rowid <$> updates t →
       Forall (node_ok schema t) (nodes queryResult) →
       nodes_consistent (nodes queryResult) →
         eval (_updateConnection schema updateId objectId name queryResult) db
           = Ok tt)
    ∧ (∀ node rest T,
         is_Some (select_connection objectId name t) →
         updateId ∈ update_rowid <$> updates t →
         nodes queryResult = node :: rest →
         select_typename (node_id node) t = Some T → T ≠ __typename node →
         _updateConnection schema updateId objectId name queryResult db
           = (Throw (InconsistentType (node_id node) T (__typename node)), db))
    ∧ (∀ e,
         eval (_updateConnection schema updateId objectId name queryResult) db
           = Throw e →
         exec (_updateConnection schema updateId objectId name queryResult) db
           = db)
    ∧ (∀ connectionId,
         idx <$> entries_of connectionId t
           = seqZ 1 (Z.of_nat (length (entries_of connectionId t)))
         ∧ StronglySorted Z.lt (idx <$> entries_of connectionId t)
         ∧ (entries_of connectionId t ≠ [] →
            head (idx <$> entries_of connectionId t) = Some 1)).
Proof.
  intros (Htxn & Hblob & t & Ht & Hinv)%reachable_inv.
  exists t. split; [done|]. unfold _updateConnection, eval, exec.
  rewrite (_inTransaction_on_tables _ db t) by done. split_and!.
  - intros Hsel. by rewrite updateConnection_unknown.
  - intros db'.
    destruct (_nontransactionallyUpdateConnection _ _ _ _ _ t)
      as [[[]|e] t'] eqn:Hup; [|done].
    intros [= <-].
    pose proof (updateConnection_objects _ _ _ _ _ _ _ Hup) as Hprefix.
    apply updateConnection_ok in Hup as (c & ? & ? & Hinv' & ? & ? & Hsel');
      [|done].
    destruct (registered_nodes_ok schema t t' (nodes queryResult))
      as [? ?]; [done..|].
    exists c, t'. done.
  - intros Hwf [c Hsel] Hu Hok Hcons.
    destruct (updateConnection_total schema updateId objectId name queryResult
                t c) as [t' ->]; done.
  - intros node rest T [c Hsel] Hu Hnodes Hty Hne.
    pose proof (updateConnection_inconsistent schema updateId objectId name
                  queryResult t c node rest T Hsel Hu Hnodes Hty Hne) as Heval.
    unfold eval in Heval.
    destruct (_nontransactionallyUpdateConnection _ _ _ _ _ t) as [[[]|e] t'];
      simpl in *; by simplify_eq.
  - intros e.
    by destruct (_nontransactionallyUpdateConnection _ _ _ _ _ t) as [[[]|e'] t'].
  - intros cid. pose proof (inv_entry_indices _ _ Hinv cid) as Hidx.
    split; [done|]. rewrite Hidx. split; [apply StronglySorted_seqZ|].
    destruct (entries_of cid t) as [|e l]; [done|]. intros _.
    change (length (e :: l)) with (S (length l)).
    by rewrite Nat2Z.inj_succ, seqZ_cons by lia.
Qed.

Lemma updateConnection_ingests_witness :
  eval (_updateConnection githubSchema 1 "R" "issues" two_issues) rowR_db = Ok tt.
Proof.
  assert (reachable githubSchema rowR_db) as Hreach.
  { eapply reachable_step; [eapply reachable_step|];
      [|apply step_registerObject|apply step_createUpdate].
    apply reachable_new. reflexivity. }
  destruct (updateConnection_ingests githubSchema rowR_db 1 "R" "issues"
              two_issues Hreach) as (t & Ht & _ & _ & Hreturns & _).
  assert (t = mkTables [mkUpdate 1 100] [mkObject "R" None "Repository"] []
                [mkConnection 1 "R" "issues" None None None None] []) as ->.
  { assert (tables (store rowR_db)
            = Some (mkTables [mkUpdate 1 100] [mkObject "R" None "Repository"] []
                      [mkConnection 1 "R" "issues" None None None None] []))
      as Ht' by reflexivity.
    congruence. }
  apply Hreturns.
  - compute_done.
  - vm_compute. eauto.
  - compute_done.
  - repeat constructor; vm_compute; eauto.
  - apply two_issues_consistent.
Defined.

(** ** [findOutdated]: the connections *)

Lemma Sql_holds_or3 a b c :
  Sql.holds (Sql.or (Sql.or a b) c) = true ↔
    a = Some true ∨ b = Some true ∨ c = Some true.
Proof.
  destruct a as [[]|], b as [[]|], c as [[]|]; simpl; intuition congruence.
Qed.

(** What the query of [findOutdated] for the connections selects: the update
    that it compares with the threshold is the one of the owner, joined
    through [objects.last_update]. *)
Lemma select_outdated_connections_elem threshold t row :
  row ∈ select_outdated_connections threshold t ↔
    ∃ o c, o ∈ objects t ∧ c ∈ connections t ∧ object_id_ o = object_id c
      ∧ row = mkOutdated (object_typename o) (object_id_ o) (fieldname c)
                (end_cursor c)
      ∧ ((∃ n, has_next_page c = Some n ∧ n ≠ 0)
         ∨ last_update c = None
         ∨ ∃ u, u ∈ updates t ∧ object_last_update o = Some (update_rowid u)
                ∧ time_epoch_millis u < threshold).
Proof.
  unfold select_outdated_connections. rewrite list_elem_of_bind.
  setoid_rewrite list_elem_of_bind. setoid_rewrite list_elem_of_filter.
  setoid_rewrite list_elem_of_bind. setoid_rewrite left_join_updates_elem.
  split.
  - intros (o & (c & (mu & Hrow & Hmu) & Hid & Hc) & Ho).
    exists o, c. split_and!; try done;
      destruct (Sql.holds _) eqn:Hcond; try by apply not_elem_of_nil in Hrow.
    + by apply list_elem_of_singleton in Hrow.
    + apply Sql_holds_or3 in Hcond as [Hnext|[Hnull|Hlt]].
      * left. destruct (has_next_page c) as [n|]; [|done].
        exists n. split; [done|]. simpl in Hnext. injection Hnext as Hn.
        by apply bool_decide_eq_true in Hn.
      * right; left. by destruct (last_update c).
      * right; right.
        destruct Hmu as [[-> _]|(u & -> & Hu & Hk)]; [done|].
        exists u. split; [done|]. split; [done|]. simpl in Hlt.
        injection Hlt as Hlt. by apply bool_decide_eq_true in Hlt.
  - intros (o & c & Ho & Hc & Hid & -> & Hstale). exists o. split; [|done].
    assert (∃ mu, mu ∈ left_join_updates (object_last_update o) (updates t)
                  ∧ Sql.holds (Sql.or (Sql.or (Sql.truth (has_next_page c))
                                         (Sql.is_null (last_update c)))
                                 (Sql.lt (time_epoch_millis <$> mu) (Some threshold)))
                    = true) as (mu & Hmu & Hcond).
    { destruct Hstale as [(n & Hn & Hne)|[Hnull|(u & Hu & Hk & Hlt)]].
      - destruct (left_join_updates (object_last_update o) (updates t))
          as [|mu l] eqn:Hl.
        { unfold left_join_updates in Hl. by destruct (filter _ _). }
        exists mu. split; [left|]. apply Sql_holds_or3. left.
        rewrite Hn. simpl. by rewrite bool_decide_eq_true_2.
      - destruct (left_join_updates (object_last_update o) (updates t))
          as [|mu l] eqn:Hl.
        { unfold left_join_updates in Hl. by destruct (filter _ _). }
        exists mu. split; [left|]. apply Sql_holds_or3. right; left.
        by rewrite Hnull.
      - exists (Some u). split; [apply left_join_updates_elem; eauto|].
        apply Sql_holds_or3. right; right. simpl.
        by rewrite bool_decide_eq_true_2. }
    exists c. split; [|done]. exists mu. rewrite Hcond.
    split; [left|by apply left_join_updates_elem].
Qed.

Lemma reachable_rowR_db : reachable githubSchema rowR_db.
Proof.
  eapply reachable_step; [eapply reachable_step|];
    [|apply step_registerObject|apply step_createUpdate].
  apply reachable_new. reflexivity.
Qed.

(** C1 fails on the code. After [registerObject] of a repository, an update
    at time 100 and the ingestion of the last page of its issues under that
    update, the connection's update is older than the threshold 500, and
    [findOutdated 500] does not return the connection: the query joins
    [updates] on the owner's [last_update], which is NULL. *)
Theorem findOutdated_connection_own_update_ignored :
  reachable githubSchema fetched_db
  ∧ tables (store fetched_db)
      = Some (mkTables [mkUpdate 1 100] [mkObject "R" None "Repository"] []
                [mkConnection 1 "R" "issues" (Some 1) (Some 0) (Some 0) None] [])
  ∧ eval (findOutdated 500) fetched_db
      = Ok (mkOutdatedResult [mkRef "Repository" "R"] []).
Proof.
  split; [|split; vm_compute; reflexivity].
  eapply reachable_step; [apply reachable_rowR_db|apply step_updateConnection].
Qed.

(** ** The end cursor of a connection that was never fetched *)

Lemma getEndCursor_eq db t objectId name :
  tables (store db) = Some t →
  _getEndCursor objectId name db =
    match select_connection objectId name t with
    | Some c =>
        (Ok (if last_update c is Some _ then Some (end_cursor c) else None), db)
    | None => (Throw (UnknownConnection objectId name), db)
    end.
Proof.
  intros Ht. unfold _getEndCursor. rewrite (on_tables_Some _ db t) by done.
  se_unfold. destruct (select_connection objectId name t) as [c|]; simpl;
    rewrite set_tables_id by done; [|done].
  by destruct (last_update c).
Qed.

(** A connection that was never fetched and one that was fetched up to the
    cursor [null], with more pages to come, give the same row in
    [findOutdated] and different results in [_getEndCursor]. *)
Example endCursor_null_twice :
  reachable githubSchema never_db ∧ reachable githubSchema null_cursor_db
  ∧ eval (findOutdated 500) never_db
      = Ok (mkOutdatedResult [mkRef "Repository" "R"]
              [mkOutdated "Repository" "R" "issues" None])
  ∧ eval (findOutdated 500) null_cursor_db
      = Ok (mkOutdatedResult [mkRef "Repository" "R"]
              [mkOutdated "Repository" "R" "issues" None])
  ∧ eval (_getEndCursor "R" "issues") never_db = Ok None
  ∧ eval (_getEndCursor "R" "issues") null_cursor_db = Ok (Some None).
Proof.
  split_and!; try (vm_compute; reflexivity).
  - eapply reachable_step; [|apply step_registerObject].
    apply reachable_new. reflexivity.
  - eapply reachable_step; [apply reachable_rowR_db|apply step_updateConnection].
Qed.

(** C10. In every database of a mirror, a connection whose [last_update] is
    NULL has a NULL [end_cursor], and [findOutdated] returns it, for every
    threshold, with its owner's typename and id, its field name and the end
    cursor [null]; the row of any connection that [findOutdated] returns
    carries the stored cursor, so that a connection fetched up to the
    cursor [null] gives the same end cursor as one never fetched.
    [_getEndCursor] returns [undefined] when [last_update] is NULL, and
    only then, and the stored cursor otherwise. *)
Theorem never_fetched_end_cursor (schema : Schema) (db : Database) :
  reachable schema db →
  ∃ t, tables (store db) = Some t
    ∧ (∀ c since, c ∈ connections t → last_update c = None →
         end_cursor c = None
         ∧ ∃ r T, findOutdated since db = (Ok r, db)
             ∧ select_typename (object_id c) t = Some T
             ∧ mkOutdated T (object_id c) (fieldname c) None
                 ∈ outdated_connections r)
    ∧ (∀ since r row, findOutdated since db = (Ok r, db) →
         row ∈ outdated_connections r →
         ∃ c, c ∈ connections t ∧ oc_id row = object_id c
           ∧ oc_fieldname row = fieldname c
           ∧ oc_endCursor row = end_cursor c)
    ∧ (∀ objectId name c, select_connection objectId name t = Some c →
         (eval (_getEndCursor objectId name) db = Ok None
            ↔ last_update c = None)
         ∧ (last_update c ≠ None →
            eval (_getEndCursor objectId name) db = Ok (Some (end_cursor c)))
         ∧ exec (_getEndCursor objectId name) db = db).
Proof.
  intros (Htxn & Hblob & t & Ht & Hinv)%reachable_inv.
  exists t. split; [done|]. split_and!.
  - intros c since Hc Hnull.
    destruct (inv_never_fetched _ _ Hinv c Hc Hnull) as (_ & _ & _ & Hcursor).
    split; [done|].
    pose proof (inv_connection_owner _ _ Hinv c Hc) as (o & Hid & Ho)%list_elem_of_fmap.
    eexists _, (object_typename o). split; [by apply findOutdated_eq|].
    split.
    + rewrite Hid. by apply select_typename_elem; [apply Hinv|].
    + simpl. apply select_outdated_connections_elem.
      exists o, c. rewrite Hid, Hcursor. eauto 10.
  - intros since r row. rewrite (findOutdated_eq db t) by done.
    intros [= <-]. simpl.
    intros (o & c & Ho & Hc & Hid & -> & _)%select_outdated_connections_elem.
    exists c. simpl. done.
  - intros objectId name c Hsel. unfold eval, exec.
    rewrite (getEndCursor_eq db t) by done. rewrite Hsel. simpl.
    destruct (last_update c); split_and!; done.
Qed.

Lemma never_fetched_end_cursor_witness :
  ∃ r, findOutdated 0 favorite_db = (Ok r, favorite_db)
    ∧ mkOutdated "Issue" "my-favorite-id" "comments" None
        ∈ outdated_connections r.
Proof.
  assert (reachable githubSchema favorite_db) as Hreach.
  { apply (reachable_step _ mirror_db); [|apply step_registerObject].
    apply reachable_new. reflexivity. }
  destruct (never_fetched_end_cursor githubSchema favorite_db Hreach)
    as (t & Ht & Hnever & _).
  assert (t = favorite_tables) as ->.
  { assert (tables (store favorite_db) = Some favorite_tables) as Ht'
      by reflexivity.
    congruence. }
  destruct (Hnever (mkConnection 1 "my-favorite-id" "comments" None None None None) 0)
    as (_ & r & T & Hr & HT & Hrow); [left|reflexivity|].
  exists r. split; [exact Hr|].
  assert (T = "Issue") as <- by (vm_compute in HT; congruence).
  exact Hrow.
Defined.

(** ** The fingerprint of the schema *)

Lemma ascii_compare_trans_le a b c :
  Ascii.compare a b ≠ Gt → Ascii.compare b c ≠ Gt → Ascii.compare a c ≠ Gt.
Proof.
  unfold Ascii.compare. rewrite !N.compare_gt_iff. lia.
Qed.

Lemma string_leb_trans s1 s2 s3 :
  String.leb s1 s2 = true → String.leb s2 s3 = true → String.leb s1 s3 = true.
Proof.
  unfold String.leb. revert s2 s3.
  induction s1 as [|a s1 IH]; intros [|b s2] [|c s3]; simpl; try done.
  specialize (IH s2 s3).
  destruct (Ascii.compare a b) eqn:Hab; try done;
    destruct (Ascii.compare b c) eqn:Hbc; try done.
  - apply Ascii.compare_eq_iff in Hab as ->, Hbc as ->.
    assert (Ascii.compare c c = Eq) as -> by apply N.compare_refl. done.
  - apply Ascii.compare_eq_iff in Hab as ->. by rewrite Hbc.
  - apply Ascii.compare_eq_iff in Hbc as ->. by rewrite Hab.
  - assert (Ascii.compare a c = Lt) as ->; [|done].
    revert Hab Hbc. unfold Ascii.compare. rewrite !N.compare_lt_iff. lia.
Qed.

#[local] Instance key_le_trans : Transitive Json.key_le.
Proof. intros x y z. apply string_leb_trans. Qed.

#[local] Instance key_le_total : Total Json.key_le.
Proof. intros x y. apply String.leb_total. Qed.

(** The ranks are a permutation of the bytes. *)
Lemma code_unit_rank_inj c1 c2 :
  Json.code_unit_rank c1 = Json.code_unit_rank c2 → c1 = c2.
Proof.
  set (unrank := λ c : ascii,
    let n := N_of_ascii c in
    if (n =? 243)%N then ascii_of_N 238
    else if (n =? 244)%N then ascii_of_N 239
    else if ((238 <=? n) && (n <=? 242))%N then ascii_of_N (n + 2)
    else c).
  assert (∀ c, unrank (Json.code_unit_rank c) = c) as Hinv.
  { intros c. destruct c as [[] [] [] [] [] [] [] []]; reflexivity. }
  intros Heq. by rewrite <-(Hinv c1), <-(Hinv c2), Heq.
Qed.

Lemma sort_key_inj s1 s2 : Json.sort_key s1 = Json.sort_key s2 → s1 = s2.
Proof.
  revert s2. induction s1 as [|c1 s1 IH]; intros [|c2 s2]; simpl; try done.
  intros [= Hc Hs]. f_equal; [by apply code_unit_rank_inj|by apply IH].
Qed.

Lemma key_le_antisym (p q : string * string) :
  Json.key_le p q → Json.key_le q p → p.1 = q.1.
Proof.
  unfold Json.key_le. intros Hpq Hqp.
  by apply sort_key_inj, String.leb_antisym.
Qed.

(** The printed object does not depend on the order of its members. *)
Lemma print_object_Permutation (ms ms' : list (string * string)) :
  NoDup ms.*1 → ms ≡ₚ ms' → Json.print_object ms = Json.print_object ms'.
Proof.
  intros Hnd Hperm. unfold Json.print_object. do 4 f_equal.
  apply (Sorted_unique_strong Json.key_le).
  - intros x1 x2 Hx1 Hx2 H12 H21.
    rewrite merge_sort_Permutation in Hx1, Hx2. rewrite <-Hperm in Hx2.
    apply (NoDup_fmap_eq fst ms); [done..|].
    by apply key_le_antisym.
  - apply (Sorted_merge_sort _).
  - apply (Sorted_merge_sort _).
  - by rewrite !merge_sort_Permutation.
Qed.

Lemma stringify_Obj entries :
  Json.stringify (Json.Obj entries)
    = Json.print_object ((λ e, (e.1, Json.stringify e.2)) <$> entries).
Proof.
  simpl. f_equal. induction entries as [|[k v] entries IH]; [done|].
  by rewrite fmap_cons, <-IH.
Qed.

(** The blob, spelled out: the member [schema] before the member [version],
    as the sorted keys demand, whatever the order in the object literal. *)
Lemma schema_blob_eq version (schema : Schema) :
  schema_blob version schema =
    "{" +:+ Json.quote "schema" +:+ ":" +:+ Json.stringify (schemaToJson schema)
    +:+ "," +:+ Json.quote "version" +:+ ":" +:+ Json.quote version +:+ "}".
Proof.
  unfold schema_blob. rewrite stringify_Obj.
  unfold Json.print_object.
  assert (merge_sort Json.key_le
            ((λ e, (e.1, Json.stringify e.2)) <$>
               [("version", Json.Str version); ("schema", schemaToJson schema)])
          = [("schema", Json.stringify (schemaToJson schema));
             ("version", Json.quote version)]) as -> by reflexivity.
  unfold Json.member. simpl. by rewrite !string_app_assoc.
Qed.

Lemma unescape_head_escape_char c rest :
  unescape_head (Json.escape_char c +:+ rest) = Some (c, rest).
Proof. destruct c as [[] [] [] [] [] [] [] []]; reflexivity. Qed.

Lemma escape_cons c s :
  Json.escape (String c s) = Json.escape_char c +:+ Json.escape s.
Proof. done. Qed.

(** Escaping is injective, even in front of text that starts with a double
    quote. *)
Lemma escape_inj v1 v2 r1 r2 :
  Json.escape v1 +:+ String (ascii_of_N 34) r1
    = Json.escape v2 +:+ String (ascii_of_N 34) r2 →
  v1 = v2.
Proof.
  revert v2. induction v1 as [|a v1 IH]; intros [|b v2]; [done| | |].
  - rewrite escape_cons, string_app_assoc.
    intros H. pose proof (f_equal unescape_head H) as Hhead.
    rewrite unescape_head_escape_char in Hhead.
    injection Hhead as <- _. discriminate H.
  - rewrite escape_cons, string_app_assoc.
    intros H. pose proof (f_equal unescape_head H) as Hhead.
    rewrite unescape_head_escape_char in Hhead.
    injection Hhead as -> _. discriminate H.
  - rewrite !escape_cons, !string_app_assoc.
    intros H%(f_equal unescape_head).
    rewrite !unescape_head_escape_char in H.
    injection H as -> H. f_equal. by apply IH.
Qed.

Lemma quote_inj v1 v2 r :
  Json.quote v1 +:+ r = Json.quote v2 +:+ r → v1 = v2.
Proof.
  unfold Json.quote, Json.dquote. rewrite !string_app_assoc.
  intros H. injection H as H. by apply escape_inj in H.
Qed.

(** Blobs of one schema under two versions differ. *)
Lemma schema_blob_version_inj v1 v2 (schema : Schema) :
  schema_blob v1 schema = schema_blob v2 schema → v1 = v2.
Proof.
  rewrite !schema_blob_eq. intros H.
  do 7 apply (inj (String.append _)) in H.
  by apply quote_inj in H.
Qed.

Lemma stringify_dict_Permutation {V} (toJson : V → Json.t) (d1 d2 : Js.Dict V) :
  Js.wf d1 → d1 ≡ₚ d2 →
  Json.stringify (Json.Obj (prod_map id toJson <$> d1))
    = Json.stringify (Json.Obj (prod_map id toJson <$> d2)).
Proof.
  intros Hwf Hperm. rewrite !stringify_Obj. apply print_object_Permutation.
  - assert (((λ e, (e.1, Json.stringify e.2)) <$> (prod_map id toJson <$> d1)).*1
            = d1.*1) as ->; [|done].
    rewrite <-!list_fmap_compose. apply list_fmap_ext. by intros i [??] _.
  - by rewrite Hperm.
Qed.

Lemma stringify_Obj2 k1 v1 k2 v2 :
  Json.stringify (Json.Obj [(k1, v1); (k2, v2)])
    = Json.print_object [(k1, Json.stringify v1); (k2, Json.stringify v2)].
Proof. done. Qed.

Lemma nodeType_stringify n1 n2 :
  nodeType_wf n1 → nodeType_equiv n1 n2 →
  Json.stringify (nodeTypeToJson n1) = Json.stringify (nodeTypeToJson n2).
Proof.
  destruct n1 as [f1|c1], n2 as [f2|c2]; try done; intros Hwf Hperm;
    unfold nodeTypeToJson; rewrite !stringify_Obj2.
  - by rewrite (stringify_dict_Permutation fieldToJson f1 f2).
  - by rewrite (stringify_dict_Permutation (λ _, Json.Bool true) c1 c2).
Qed.

Lemma schema_stringify (s1 s2 : Schema) :
  schema_wf s1 → schema_equiv s1 s2 →
  Json.stringify (schemaToJson s1) = Json.stringify (schemaToJson s2).
Proof.
  intros [Hkeys Hall] (s & Hperm & Hsame). unfold schemaToJson.
  rewrite (stringify_dict_Permutation nodeTypeToJson s1 s) by done.
  rewrite !stringify_Obj. f_equal.
  rewrite Hperm in Hall. clear Hperm Hkeys s1.
  induction Hsame as [|[k1 n1] [k2 n2] s s2 [Hk Hn] _ IH]; [done|].
  apply Forall_cons in Hall as [Hwf Hall]. simpl in Hk, Hn, Hwf. subst k2.
  rewrite !fmap_cons. cbn [fst snd prod_map].
  by rewrite (nodeType_stringify n1 n2), IH.
Qed.

Lemma schema_blob_equiv version (s1 s2 : Schema) :
  schema_wf s1 → schema_equiv s1 s2 →
  schema_blob version s1 = schema_blob version s2.
Proof.
  intros Hwf Hequiv. rewrite !schema_blob_eq.
  by rewrite (schema_stringify s1 s2).
Qed.

Lemma initialize_at_ok version (schema : Schema) db :
  txn db = None → eval (initialize_at version schema) db = Ok tt →
  txn (exec (initialize_at version schema) db) = None
  ∧ existing_blob (store (exec (initialize_at version schema) db))
      = Some (schema_blob version schema).
Proof.
  intros Htxn. unfold eval, exec. rewrite initialize_at_eq by done.
  destruct (existing_blob (store db)) as [existing|] eqn:Hexisting.
  - case_decide; [|done]. subst. done.
  - destruct (tables (store db)); [done|].
    destruct (for_of _ _ _) as [[[]|e] s'] eqn:Hloop; [|done].
    apply create_own_data_tables_frame in Hloop as [Hmeta _]. simpl in *.
    intros _. split; [done|]. unfold existing_blob. by rewrite Hmeta.
Qed.

(** *** Reading the blob back *)

Lemma string_cons_app c s r : String c s +:+ r = String c (s +:+ r).
Proof. done. Qed.

Lemma join_members_tail m ms rest :
  (Json.join "," (Json.member <$> m :: ms) +:+ "}") +:+ rest
    = Json.member m +:+ members_tail ms rest.
Proof.
  revert m. induction ms as [|m' ms IH]; intros m.
  - simpl. by rewrite string_app_assoc.
  - specialize (IH m'). rewrite !fmap_cons in *.
    change (Json.join "," (Json.member m :: Json.member m' :: (Json.member <$> ms)))
      with (Json.member m +:+ "," +:+
              Json.join "," (Json.member m' :: (Json.member <$> ms))).
    rewrite !string_app_assoc. rewrite !string_app_assoc in IH.
    cbn [members_tail]. by rewrite IH.
Qed.

(** A quoted string can be read back from the front of a text. *)
Lemma quote_decode v1 v2 r1 r2 :
  Json.quote v1 +:+ r1 = Json.quote v2 +:+ r2 → v1 = v2 ∧ r1 = r2.
Proof.
  unfold Json.quote, Json.dquote. rewrite !string_app_assoc.
  intros H. injection H as H. pose proof (escape_inj _ _ _ _ H) as ->.
  split; [done|]. by do 3 apply (inj (String.append _)) in H.
Qed.

Lemma members_tail_inj ms1 ms2 r1 r2 :
  (∀ m1 m2 s1 s2, m1 ∈ ms1 → m2 ∈ ms2 →
     m1.2 +:+ s1 = m2.2 +:+ s2 → m1.2 = m2.2 ∧ s1 = s2) →
  members_tail ms1 r1 = members_tail ms2 r2 → ms1 = ms2 ∧ r1 = r2.
Proof.
  revert ms2. induction ms1 as [|[k1 p1] ms1 IH]; intros [|[k2 p2] ms2] Hvalues;
    cbn [members_tail].
  - intros H. by injection H.
  - intros H. discriminate H.
  - intros H. discriminate H.
  - intros H. apply (inj (String.append _)) in H.
    unfold Json.member in H. simpl in H. rewrite !string_app_assoc in H.
    apply quote_decode in H as [-> H]. apply (inj (String.append _)) in H.
    destruct (Hvalues (k2, p1) (k2, p2) _ _ ltac:(left) ltac:(left) H) as [Hp Ht].
    simpl in Hp. subst p2.
    destruct (IH ms2) as [-> ->]; [|done..].
    intros m1 m2 s1 s2 Hm1 Hm2. apply Hvalues; by right.
Qed.

Lemma print_object_decode ms1 ms2 r1 r2 :
  (∀ m1 m2 s1 s2, m1 ∈ ms1 → m2 ∈ ms2 →
     m1.2 +:+ s1 = m2.2 +:+ s2 → m1.2 = m2.2 ∧ s1 = s2) →
  Json.print_object ms1 +:+ r1 = Json.print_object ms2 +:+ r2 →
  ms1 ≡ₚ ms2 ∧ r1 = r2.
Proof.
  intros Hvalues. unfold Json.print_object.
  pose proof (merge_sort_Permutation Json.key_le ms1) as H1.
  pose proof (merge_sort_Permutation Json.key_le ms2) as H2.
  assert (∀ m1 m2 s1 s2,
            m1 ∈ merge_sort Json.key_le ms1 → m2 ∈ merge_sort Json.key_le ms2 →
            m1.2 +:+ s1 = m2.2 +:+ s2 → m1.2 = m2.2 ∧ s1 = s2) as Hsorted.
  { intros m1 m2 s1 s2 Hm1 Hm2. apply Hvalues; [by rewrite <-H1|by rewrite <-H2]. }
  intros H.
  enough (merge_sort Json.key_le ms1 = merge_sort Json.key_le ms2 ∧ r1 = r2)
    as [Heq ->].
  { split; [|done]. by rewrite <-H1, <-H2, Heq. }
  clear H1 H2. revert H.
  rewrite !(string_app_assoc "{"). intros H%(inj (String.append _)).
  destruct (merge_sort Json.key_le ms1) as [|m1 l1],
    (merge_sort Json.key_le ms2) as [|m2 l2];
    rewrite ?join_members_tail in H.
  - split; [done|]. simpl in H. rewrite !string_app_assoc in H.
    by do 2 apply (inj (String.append _)) in H.
  - simpl in H. unfold Json.member, Json.quote in H. discriminate H.
  - simpl in H. unfold Json.member, Json.quote in H. discriminate H.
  - destruct (members_tail_inj (m1 :: l1) (m2 :: l2) r1 r2 Hsorted) as [Heq ->];
      [|done].
    cbn [members_tail]. by rewrite H.
Qed.

Lemma stringify_dict {V} (toJson : V → Json.t) (d : Js.Dict V) :
  Json.stringify (Json.Obj (prod_map id toJson <$> d))
    = Json.print_object ((λ e, (e.1, Json.stringify (toJson e.2))) <$> d).
Proof.
  by rewrite stringify_Obj, <-list_fmap_compose.
Qed.

(** A printed dictionary can be read back from the front of a text, up to
    the order of its keys, when its values can. *)
Lemma dict_decode {V} (print : V → string) (ok : V → Prop)
    (eqv : V → V → Prop) (d1 d2 : Js.Dict V) r1 r2 :
  (∀ v1 v2 s1 s2, ok v1 → ok v2 →
     print v1 +:+ s1 = print v2 +:+ s2 → eqv v1 v2 ∧ s1 = s2) →
  (∀ v1 v2, ok v1 → eqv v1 v2 → print v1 = print v2) →
  Forall (λ e, ok e.2) d1 → Forall (λ e, ok e.2) d2 →
  Json.print_object ((λ e, (e.1, print e.2)) <$> d1) +:+ r1
    = Json.print_object ((λ e, (e.1, print e.2)) <$> d2) +:+ r2 →
  (∃ d, d1 ≡ₚ d ∧ Forall2 (λ e1 e2, e1.1 = e2.1 ∧ eqv e1.2 e2.2) d d2)
  ∧ r1 = r2.
Proof.
  intros decode print_eqv Hok1 Hok2 H. rewrite Forall_forall in Hok1, Hok2.
  apply print_object_decode in H as [Hperm ->].
  - split; [|done]. symmetry in Hperm.
    apply Permutation_map_inv in Hperm as (d & Heq & Hd).
    exists d. split; [done|].
    assert (∀ e, e ∈ d → ok e.2) as Hokd.
    { intros e He. apply Hok1. by rewrite Hd. }
    clear Hd Hok1. revert d Heq Hokd.
    induction d2 as [|e2 d2 IH]; intros [|e d] Heq Hokd; try done.
    injection Heq as Hk Hp Heq. apply Forall2_cons. split.
    + split; [done|].
      destruct (decode e.2 e2.2 EmptyString EmptyString) as [Heqv _];
        [apply Hokd; left|apply Hok2; left|by rewrite Hp|done].
    + apply IH; [|done|].
      * intros e' He'. apply Hok2. by right.
      * intros e' He'. apply Hokd. by right.
  - intros m1 m2 s1 s2 (e1 & -> & He1)%list_elem_of_fmap
      (e2 & -> & He2)%list_elem_of_fmap Heq. simpl in *.
    destruct (decode e1.2 e2.2 s1 s2) as [Heqv ->]; [by apply Hok1|by apply Hok2|done|].
    split; [|done]. apply print_eqv; [by apply Hok1|done].
Qed.

(** The text of a field, and reading it back. *)
Lemma fieldToJson_text (f : FieldType) :
  Json.stringify (fieldToJson f) =
    match f with
    | ID => "{" +:+ Json.quote "type" +:+ ":" +:+ Json.quote "ID" +:+ "}"
    | PRIMITIVE =>
        "{" +:+ Json.quote "type" +:+ ":" +:+ Json.quote "PRIMITIVE" +:+ "}"
    | NODE e =>
        "{" +:+ Json.quote "elementType" +:+ ":" +:+ Json.quote e +:+ ","
        +:+ Json.quote "type" +:+ ":" +:+ Json.quote "NODE" +:+ "}"
    | CONNECTION e =>
        "{" +:+ Json.quote "elementType" +:+ ":" +:+ Json.quote e +:+ ","
        +:+ Json.quote "type" +:+ ":" +:+ Json.quote "CONNECTION" +:+ "}"
    end.
Proof.
  destruct f as [| |e|e]; try reflexivity.
  - unfold fieldToJson. rewrite stringify_Obj2. unfold Json.print_object.
    assert (merge_sort Json.key_le
              [("type", Json.stringify (Json.Str "NODE"));
               ("elementType", Json.stringify (Json.Str e))]
            = [("elementType", Json.quote e); ("type", Json.quote "NODE")])
      as -> by reflexivity.
    unfold Json.member. simpl. by rewrite !string_app_assoc.
  - unfold fieldToJson. rewrite stringify_Obj2. unfold Json.print_object.
    assert (merge_sort Json.key_le
              [("type", Json.stringify (Json.Str "CONNECTION"));
               ("elementType", Json.stringify (Json.Str e))]
            = [("elementType", Json.quote e); ("type", Json.quote "CONNECTION")])
      as -> by reflexivity.
    unfold Json.member. simpl. by rewrite !string_app_assoc.
Qed.

Lemma field_decode f1 f2 r1 r2 :
  Json.stringify (fieldToJson f1) +:+ r1 = Json.stringify (fieldToJson f2) +:+ r2 →
  f1 = f2 ∧ r1 = r2.
Proof.
  rewrite !fieldToJson_text.
  destruct f1 as [| |e1|e1], f2 as [| |e2|e2]; rewrite !string_app_assoc;
    intros H; apply (inj (String.append _)) in H;
    apply quote_decode in H as [Hkey H]; try discriminate Hkey;
    apply (inj (String.append _)) in H;
    apply quote_decode in H as [Hvalue H]; try discriminate Hvalue;
    try (split; [done|]; by apply (inj (String.append _)) in H);
    subst; apply (inj (String.append _)) in H;
    apply quote_decode in H as [_ H]; apply (inj (String.append _)) in H;
    apply quote_decode in H as [Hkind H]; try discriminate Hkind;
    (split; [done|]; by apply (inj (String.append _)) in H).
Qed.

Lemma nodeTypeToJson_text (n : NodeType) :
  Json.stringify (nodeTypeToJson n) =
    match n with
    | OBJECT fields =>
        "{" +:+ Json.quote "fields" +:+ ":"
        +:+ Json.stringify (Json.Obj (prod_map id fieldToJson <$> fields))
        +:+ "," +:+ Json.quote "type" +:+ ":" +:+ Json.quote "OBJECT" +:+ "}"
    | UNION clauses =>
        "{" +:+ Json.quote "clauses" +:+ ":"
        +:+ Json.stringify
              (Json.Obj (prod_map id (λ _, Json.Bool true) <$> clauses))
        +:+ "," +:+ Json.quote "type" +:+ ":" +:+ Json.quote "UNION" +:+ "}"
    end.
Proof.
  destruct n as [fields|clauses]; unfold nodeTypeToJson;
    rewrite stringify_Obj2; unfold Json.print_object.
  - assert (merge_sort Json.key_le
              [("type", Json.stringify (Json.Str "OBJECT"));
               ("fields",
                Json.stringify (Json.Obj (prod_map id fieldToJson <$> fields)))]
            = [("fields",
                Json.stringify (Json.Obj (prod_map id fieldToJson <$> fields)));
               ("type", Json.quote "OBJECT")]) as -> by reflexivity.
    unfold Json.member. simpl Json.join. cbn [fst snd].
    by rewrite !string_app_assoc.
  - assert (merge_sort Json.key_le
              [("type", Json.stringify (Json.Str "UNION"));
               ("clauses",
                Json.stringify
                  (Json.Obj (prod_map id (λ _, Json.Bool true) <$> clauses)))]
            = [("clauses",
                Json.stringify
                  (Json.Obj (prod_map id (λ _, Json.Bool true) <$> clauses)));
               ("type", Json.quote "UNION")]) as -> by reflexivity.
    unfold Json.member. simpl Json.join. cbn [fst snd].
    by rewrite !string_app_assoc.
Qed.

Lemma Forall2_eq_pairs {K V} (d d2 : list (K * V)) :
  Forall2 (λ e1 e2, e1.1 = e2.1 ∧ e1.2 = e2.2) d d2 → d = d2.
Proof.
  induction 1 as [|[k1 v1] [k2 v2] d d2 [Hk Hv] _ IH]; [done|].
  simpl in *. by subst.
Qed.

Lemma nodeType_decode n1 n2 r1 r2 :
  nodeType_wf n1 → nodeType_wf n2 →
  Json.stringify (nodeTypeToJson n1) +:+ r1
    = Json.stringify (nodeTypeToJson n2) +:+ r2 →
  nodeType_equiv n1 n2 ∧ r1 = r2.
Proof.
  intros _ _. rewrite !nodeTypeToJson_text.
  destruct n1 as [f1|c1], n2 as [f2|c2]; rewrite !string_app_assoc; intros H;
    apply (inj (String.append _)) in H;
    apply quote_decode in H as [Hkey H]; try discriminate Hkey;
    apply (inj (String.append _)) in H; rewrite !stringify_dict in H.
  - apply (dict_decode (λ f, Json.stringify (fieldToJson f)) (λ _, True) eq)
      in H as [(d & Hperm & Hsame) H].
    + apply Forall2_eq_pairs in Hsame as ->. split; [done|].
      by repeat apply (inj (String.append _)) in H.
    + intros v1 v2 s1 s2 _ _. apply field_decode.
    + by intros v1 v2 _ ->.
    + by apply Forall_forall.
    + by apply Forall_forall.
  - apply (dict_decode (λ _ : unit, Json.stringify (Json.Bool true)) (λ _, True) eq)
      in H as [(d & Hperm & Hsame) H].
    + apply Forall2_eq_pairs in Hsame as ->. split; [done|].
      by repeat apply (inj (String.append _)) in H.
    + intros [] [] s1 s2 _ _ Hs. split; [done|].
      by apply (inj (String.append _)) in Hs.
    + done.
    + by apply Forall_forall.
    + by apply Forall_forall.
Qed.

Lemma schema_decode (s1 s2 : Schema) r1 r2 :
  schema_wf s1 → schema_wf s2 →
  Json.stringify (schemaToJson s1) +:+ r1
    = Json.stringify (schemaToJson s2) +:+ r2 →
  schema_equiv s1 s2 ∧ r1 = r2.
Proof.
  intros [_ Hwf1] [_ Hwf2]. unfold schemaToJson. rewrite !stringify_dict.
  intros H.
  apply (dict_decode (λ n, Json.stringify (nodeTypeToJson n)) nodeType_wf
           nodeType_equiv) in H; [done| | |done..].
  - intros n1 n2 s s'. apply nodeType_decode.
  - intros n1 n2. apply nodeType_stringify.
Qed.

(** The blob determines the version and, up to the order of the keys, the
    schema. *)
Lemma schema_blob_inj v1 v2 (s1 s2 : Schema) :
  schema_wf s1 → schema_wf s2 →
  schema_blob v1 s1 = schema_blob v2 s2 → v1 = v2 ∧ schema_equiv s1 s2.
Proof.
  intros Hwf1 Hwf2. rewrite !schema_blob_eq. intros H.
  do 3 apply (inj (String.append _)) in H.
  apply schema_decode in H as [Hequiv H]; [|done..].
  do 3 apply (inj (String.append _)) in H.
  by apply quote_decode in H as [-> _].
Qed.

(** The order of the keys is the one of the UTF-16 code units: the
    character U+1F600, a surrogate pair, comes before U+FF5E, and [Z]
    before [a]. *)
Example key_order_code_units :
  let u1F600 := String (ascii_of_N 240) (String (ascii_of_N 159)
                  (String (ascii_of_N 152) (String (ascii_of_N 128) EmptyString))) in
  let uFF5E := String (ascii_of_N 239) (String (ascii_of_N 189)
                 (String (ascii_of_N 158) EmptyString)) in
  Json.print_object [(uFF5E, "1"); (u1F600, "2"); ("a", "3"); ("Z", "4")]
    = "{" +:+ Json.quote "Z" +:+ ":4," +:+ Json.quote "a" +:+ ":3,"
      +:+ Json.quote u1F600 +:+ ":2," +:+ Json.quote uFF5E +:+ ":1}".
Proof. vm_compute. reflexivity. Qed.

(** C8. The blob of [_initialize] is the JSON text of the object with the
    members [schema] and [version]. Every object in it is printed as its
    members, each a quoted key, a colon and the text of the value, separated
    by commas, in the order of the keys; an object type is printed with its
    fields and a union with its clauses, a field with its kind and element
    type. The text is an encoding: two blobs are equal exactly when the
    versions are equal and the schemas are the same up to the order of their
    keys, of the keys of their object types and of their unions. A
    constructor that returns leaves this blob as the meta row, and on a
    store with a meta row it returns exactly when the row is the blob; so two
    constructors that return, for schemas that are the same up to key order,
    leave the same meta row, and on a store set up for one schema the
    constructor returns for exactly the schemas that are the same up to key
    order. A store set up under one version string is refused under any
    other. *)
Theorem schema_fingerprint (schema : Schema) :
  schema_blob MIRROR_v1 schema =
    "{" +:+ Json.quote "schema" +:+ ":" +:+ Json.stringify (schemaToJson schema)
    +:+ "," +:+ Json.quote "version" +:+ ":" +:+ Json.quote "MIRROR_v1" +:+ "}"
  ∧ (∀ schema', schema_wf schema → schema_equiv schema schema' →
       schema_blob MIRROR_v1 schema = schema_blob MIRROR_v1 schema')
  ∧ (∀ db, txn db = None → eval (constructor schema) db = Ok tt →
       existing_blob (store (exec (constructor schema) db))
         = Some (schema_blob MIRROR_v1 schema))
  ∧ (∀ db existing, txn db = None → existing_blob (store db) = Some existing →
       (eval (constructor schema) db = Ok tt
          ↔ existing = schema_blob MIRROR_v1 schema))
  ∧ (∀ schema' db db', schema_wf schema → schema_equiv schema schema' →
       txn db = None → txn db' = None →
       eval (constructor schema) db = Ok tt →
       eval (constructor schema') db' = Ok tt →
       existing_blob (store (exec (constructor schema) db))
         = existing_blob (store (exec (constructor schema') db')))
  ∧ (∀ v1 v2 db, v1 ≠ v2 → txn db = None →
       eval (initialize_at v1 schema) db = Ok tt →
       initialize_at v2 schema (exec (initialize_at v1 schema) db)
         = (Throw IncompatibleSchema, exec (initialize_at v1 schema) db))
  ∧ (∀ entries, ∃ members,
       Json.stringify (Json.Obj entries)
         = "{" +:+ Json.join "," (Json.member <$> members) +:+ "}"
       ∧ members ≡ₚ (λ e, (e.1, Json.stringify e.2)) <$> entries
       ∧ Sorted Json.key_le members)
  ∧ (∀ fields clauses,
       Json.stringify (nodeTypeToJson (OBJECT fields))
         = "{" +:+ Json.quote "fields" +:+ ":"
           +:+ Json.stringify (Json.Obj (prod_map id fieldToJson <$> fields))
           +:+ "," +:+ Json.quote "type" +:+ ":" +:+ Json.quote "OBJECT" +:+ "}"
       ∧ Json.stringify (nodeTypeToJson (UNION clauses))
         = "{" +:+ Json.quote "clauses" +:+ ":"
           +:+ Json.stringify
                 (Json.Obj (prod_map id (λ _, Json.Bool true) <$> clauses))
           +:+ "," +:+ Json.quote "type" +:+ ":" +:+ Json.quote "UNION" +:+ "}")
  ∧ (∀ e,
       Json.stringify (fieldToJson ID)
         = "{" +:+ Json.quote "type" +:+ ":" +:+ Json.quote "ID" +:+ "}"
       ∧ Json.stringify (fieldToJson PRIMITIVE)
         = "{" +:+ Json.quote "type" +:+ ":" +:+ Json.quote "PRIMITIVE" +:+ "}"
       ∧ Json.stringify (fieldToJson (NODE e))
         = "{" +:+ Json.quote "elementType" +:+ ":" +:+ Json.quote e +:+ ","
           +:+ Json.quote "type" +:+ ":" +:+ Json.quote "NODE" +:+ "}"
       ∧ Json.stringify (fieldToJson (CONNECTION e))
         = "{" +:+ Json.quote "elementType" +:+ ":" +:+ Json.quote e +:+ ","
           +:+ Json.quote "type" +:+ ":" +:+ Json.quote "CONNECTION" +:+ "}")
  ∧ (∀ s1 s2, Json.quote s1 = Json.quote s2 → s1 = s2)
  ∧ (∀ version' schema', schema_wf schema → schema_wf schema' →
       (schema_blob MIRROR_v1 schema = schema_blob version' schema'
          ↔ version' = MIRROR_v1 ∧ schema_equiv schema schema'))
  ∧ (∀ schema' db, schema_wf schema → schema_wf schema' → txn db = None →
       eval (constructor schema) db = Ok tt →
       (eval (constructor schema') (exec (constructor schema) db) = Ok tt
          ↔ schema_equiv schema schema')).
Proof.
  split_and!.
  - apply schema_blob_eq.
  - intros schema'. apply schema_blob_equiv.
  - intros db Htxn Hok. by apply initialize_at_ok.
  - intros db existing Htxn Hexisting. unfold eval, constructor, _initialize.
    rewrite initialize_at_eq, Hexisting by done. by case_decide.
  - intros schema' db db' Hwf Hequiv Htxn Htxn' Hok Hok'.
    apply initialize_at_ok in Hok as [_ Hblob]; [|done].
    apply initialize_at_ok in Hok' as [_ Hblob']; [|done].
    unfold constructor, _initialize. rewrite Hblob, Hblob'.
    f_equal. by apply schema_blob_equiv.
  - intros v1 v2 db Hne Htxn Hok.
    apply initialize_at_ok in Hok as [Htxn1 Hblob]; [|done].
    rewrite initialize_at_eq, Hblob by done.
    rewrite decide_False; [done|].
    by intros ?%schema_blob_version_inj.
  - intros entries. eexists. rewrite stringify_Obj. split; [done|]. split.
    + apply merge_sort_Permutation.
    + apply (Sorted_merge_sort _).
  - intros fields clauses.
    by rewrite (nodeTypeToJson_text (OBJECT fields)),
      (nodeTypeToJson_text (UNION clauses)).
  - intros e.
    by rewrite (fieldToJson_text ID), (fieldToJson_text PRIMITIVE),
      (fieldToJson_text (NODE e)), (fieldToJson_text (CONNECTION e)).
  - intros s1 s2 Hq. apply (quote_inj s1 s2 EmptyString). by rewrite Hq.
  - intros version' schema' Hwf Hwf'. split.
    + by intros [<- ?]%schema_blob_inj.
    + intros [-> Hequiv]. by apply schema_blob_equiv.
  - intros schema' db Hwf Hwf' Htxn Hok.
    apply initialize_at_ok in Hok as [Htxn1 Hblob]; [|done].
    unfold eval, constructor, _initialize in *.
    rewrite initialize_at_eq, Hblob by done. case_decide as Heq; split; try done.
    + intros _. by apply schema_blob_inj in Heq as [_ ?].
    + intros Hequiv. destruct Heq. by apply schema_blob_equiv.
Qed.

Lemma schema_fingerprint_witness :
  constructor githubSchema (exec (initialize_at VERSION_0_1_0 githubSchema) fresh)
    = (Throw IncompatibleSchema, exec (initialize_at VERSION_0_1_0 githubSchema) fresh).
Proof.
  destruct (schema_fingerprint githubSchema)
    as (_ & _ & _ & _ & _ & Hversion & _).
  apply (Hversion VERSION_0_1_0 MIRROR_v1 fresh);
    [discriminate|reflexivity|reflexivity].
Defined.

(** * Further properties of the code *)

(** ** The transaction helper *)

(** X1. [_inTransaction] around statements, on a handle that is not in a
    transaction: the value or the error of the statements is passed up, the
    handle is not in a transaction afterwards, and the store is the one the
    statements left when they returned and the one before the call when
    they threw. *)
Theorem inTransaction_commits_or_rolls_back {R} (m : SE Store R) (db : Database) :
  txn db = None →
  eval (_inTransaction (on_store m)) db = eval m (store db)
  ∧ txn (exec (_inTransaction (on_store m)) db) = None
  ∧ store (exec (_inTransaction (on_store m)) db)
      = match eval m (store db) with
        | Ok _ => exec m (store db)
        | Throw _ => store db
        end.
Proof.
  intros Htxn. unfold eval, exec. rewrite _inTransaction_on_store by done.
  by destruct (m (store db)) as [[r|e] s'].
Qed.

Lemma inTransaction_commits_or_rolls_back_witness :
  eval (_inTransaction (on_store (run (insert_meta "blob")))) fresh
    = Throw Sql.SQLITE_ERROR
  ∧ store (exec (_inTransaction (on_store (run (insert_meta "blob")))) fresh)
    = empty_store.
Proof.
  destruct (inTransaction_commits_or_rolls_back (run (insert_meta "blob")) fresh
              eq_refl) as (Hvalue & _ & Hstore).
  split; [exact Hvalue|exact Hstore].
Defined.

(** X2. A callback may end the transaction itself. Statements, COMMIT and
    an error: the statements stay. Statements, ROLLBACK and a value: the
    value is returned and the statements are undone. After COMMIT and a new
    BEGIN, the helper commits the second transaction when the callback
    returns and rolls back the second only when it throws. *)
Theorem inTransaction_callback_ends_transaction {R} (m1 m2 : SE Store unit)
    (db : Database) (s1 s2 : Store) (e : Error) (v : R) :
  txn db = None →
  m1 (store db) = (Ok tt, s1) → m2 s1 = (Ok tt, s2) →
  _inTransaction (on_store m1;; run_COMMIT;; throw e) db
    = (Throw e : Result R, mkDatabase s1 None)
  ∧ _inTransaction (on_store m1;; run_ROLLBACK;; mret v) db = (Ok v, db)
  ∧ _inTransaction (on_store m1;; run_COMMIT;; run_BEGIN;; on_store m2;; mret v) db
      = (Ok v, mkDatabase s2 None)
  ∧ _inTransaction (on_store m1;; run_COMMIT;; run_BEGIN;; on_store m2;; throw e) db
      = (Throw e : Result R, mkDatabase s1 None).
Proof.
  intros Htxn H1 H2. destruct db as [s tx]. simpl in *. subst tx.
  unfold _inTransaction, on_store, run_COMMIT, run_ROLLBACK, run_BEGIN.
  se_unfold. simpl. rewrite H1. simpl. rewrite H2. done.
Qed.

Lemma inTransaction_callback_ends_transaction_witness :
  _inTransaction (on_store (run create_meta_if_not_exists);; run_ROLLBACK;; mret 7)
    fresh = (Ok 7, fresh).
Proof.
  destruct (inTransaction_callback_ends_transaction (R := Z)
              (run create_meta_if_not_exists) (run (insert_meta "blob")) fresh
              (mkStore (Some []) None [])
              (mkStore (Some [(0, "blob")]) None [])
              AlreadyInTransaction 7 eq_refl eq_refl eq_refl) as (_ & H & _).
  exact H.
Defined.

(** X3. [_inTransaction] does not nest: called from a callback of
    [_inTransaction], on a handle that was not in a transaction, it throws
    the already-in-transaction error without running its own callback, and
    the outer call rolls back to the database before the call. *)
Theorem inTransaction_nested {R} (fn : SE Database R) (db : Database) :
  txn db = None →
  _inTransaction (_inTransaction fn) db = (Throw AlreadyInTransaction, db).
Proof.
  intros Htxn. unfold _inTransaction at 1.
  rewrite (inTransaction_None _ Htxn).
  rewrite (_inTransaction_busy fn (BEGIN db)) by done.
  destruct db as [s tx]. simpl in *. by subst.
Qed.

Lemma inTransaction_nested_witness :
  _inTransaction (registerObject githubSchema (mkRef "Issue" "i")) mirror_db
    = (Throw AlreadyInTransaction, mirror_db).
Proof. apply (inTransaction_nested _ mirror_db). reflexivity. Defined.

(** X4. On a handle that is in a transaction, the constructor,
    [registerObject], [findOutdated] and [_updateConnection] throw the
    already-in-transaction error and leave the handle as it is.
    [_createUpdate] and [_getEndCursor] neither begin nor end a transaction;
    an update created in a callback of [_inTransaction] that throws later is
    rolled back. *)
Theorem methods_and_open_transactions (schema : Schema) (db : Database) :
  (inTransaction db = true →
     ∀ o since updateId objectId name queryResult,
       constructor schema db = (Throw AlreadyInTransaction, db)
       ∧ registerObject schema o db = (Throw AlreadyInTransaction, db)
       ∧ findOutdated since db = (Throw AlreadyInTransaction, db)
       ∧ _updateConnection schema updateId objectId name queryResult db
           = (Throw AlreadyInTransaction, db))
  ∧ (∀ updateTimestamp objectId name,
       txn (exec (_createUpdate updateTimestamp) db) = txn db
       ∧ txn (exec (_getEndCursor objectId name) db) = txn db)
  ∧ (txn db = None → is_Some (tables (store db)) → ∀ updateTimestamp e,
       _inTransaction (_createUpdate updateTimestamp;; throw e) db
         = (Throw e : Result unit, db)).
Proof.
  split_and!.
  - intros Hbusy *. split_and!; by apply _inTransaction_busy.
  - intros ts oid name. unfold exec, _createUpdate, _getEndCursor, on_tables, on_store.
    split.
    + by destruct (tables (store db)).
    + destruct (tables (store db)) as [t|]; [|done]. se_unfold.
      by destruct (select_connection oid name t).
  - intros Htxn [t Ht] ts e. destruct db as [s tx]. simpl in *. subst tx.
    unfold _inTransaction, _createUpdate, on_tables, on_store. se_unfold. simpl.
    by rewrite Ht.
Qed.

Lemma methods_and_open_transactions_witness :
  findOutdated 0 (BEGIN mirror_db) = (Throw AlreadyInTransaction, BEGIN mirror_db)
  ∧ _inTransaction (_createUpdate 5;; throw IncompatibleSchema) mirror_db
      = (Throw IncompatibleSchema : Result unit, mirror_db).
Proof.
  destruct (methods_and_open_transactions githubSchema (BEGIN mirror_db))
    as (Hbusy & _ & _).
  destruct (methods_and_open_transactions githubSchema mirror_db)
    as (_ & _ & Hrollback).
  split.
  - apply (Hbusy eq_refl (mkRef "Issue" "i") 0 0 "o" "f"
             (mkConnectionResult 0 (mkPageInfo false None) [])).
  - apply (Hrollback eq_refl). eexists. reflexivity.
Defined.

(** ** [_createUpdate] *)

Lemma createUpdate_eq db t ts :
  tables (store db) = Some t →
  _createUpdate ts db =
    (Ok (Sql.next_rowid (update_rowid <$> updates t)),
     set_tables
       (mkTables
          (updates t ++ [mkUpdate (Sql.next_rowid (update_rowid <$> updates t)) ts])
          (objects t) (links t) (connections t) (connection_entries t)) db).
Proof. intros Ht. unfold _createUpdate. by rewrite (on_tables_Some _ db t). Qed.

(** X5. On a database that has the tables, [_createUpdate] returns an id
    that no update has yet and that is larger than every id in use, 1 in an
    empty table, and appends the row of that id and the given time; the
    other tables stay as they are. *)
Theorem createUpdate_fresh_id (db : Database) (t : Tables) (updateTimestamp : Z) :
  tables (store db) = Some t →
  ∃ updateId,
    _createUpdate updateTimestamp db =
      (Ok updateId,
       set_tables (mkTables (updates t ++ [mkUpdate updateId updateTimestamp])
                            (objects t) (links t) (connections t)
                            (connection_entries t)) db)
    ∧ (updateId ∉ update_rowid <$> updates t)
    ∧ (∀ u, u ∈ updates t → update_rowid u < updateId)
    ∧ (updates t = [] → updateId = 1).
Proof.
  intros Ht. exists (Sql.next_rowid (update_rowid <$> updates t)).
  rewrite (createUpdate_eq db t) by done. split_and!.
  - done.
  - apply next_rowid_fresh.
  - intros u Hu. apply next_rowid_gt. by apply list_elem_of_fmap_2.
  - by intros ->.
Qed.

Lemma createUpdate_fresh_id_witness :
  eval (_createUpdate 12345) mirror_db = Ok 1.
Proof.
  destruct (createUpdate_fresh_id mirror_db no_rows 12345 eq_refl)
    as (updateId & Heq & _ & _ & Hfirst).
  unfold eval. rewrite Heq. simpl. f_equal. apply Hfirst. reflexivity.
Defined.

(** ** The tables only grow *)

Lemma grows_refl t : grows t t.
Proof.
  split; try done. exists []. by rewrite app_nil_r.
Qed.

Lemma grows_trans t1 t2 t3 : grows t1 t2 → grows t2 t3 → grows t1 t3.
Proof.
  intros [Hu1 (m1 & Ho1 & Hm1) Hl1 Hc1 He1] [Hu2 (m2 & Ho2 & Hm2) Hl2 Hc2 He2].
  split; [by etrans| |congruence|by etrans|by etrans].
  exists (m1 ++ m2). split; [by rewrite Ho2, Ho1, <-app_assoc|].
  by apply Forall_app.
Qed.

Lemma registered_grows schema o t t' : registered schema o t t' → grows t t'.
Proof.
  intros [Hsel ->|fields rows Hsel Hget Hu Hl He Ho Hc Hrows Hnames Hnd].
  - apply grows_refl.
  - split.
    + by rewrite Hu.
    + eexists. split; [done|]. by apply Forall_singleton.
    + done.
    + rewrite Hc, fmap_app. by apply prefix_app_r.
    + by rewrite He.
Qed.

Lemma insert_entry_grows cid index child t t' :
  insert_entry cid index child t = Ok (tt, t') → grows t t'.
Proof.
  unfold insert_entry. repeat case_decide; try done. intros [= <-].
  split; simpl; try done.
  - exists []. by rewrite app_nil_r.
  - by apply prefix_app_r.
Qed.

Lemma add_entries_grows schema cid nodes next t t' :
  add_entries schema cid nodes next t = (Ok tt, t') → grows t t'.
Proof.
  revert next t. induction nodes as [|node nodes IH]; intros next t.
  - intros [= <-]. apply grows_refl.
  - rewrite add_entries_cons.
    destruct (_nontransactionallyRegisterObject _ _ _) as [[[]|e] t1] eqn:Hreg; [|done].
    apply register_ok, registered_grows in Hreg.
    destruct (insert_entry _ _ _ _) as [[[] t2]|e] eqn:Hins; [|done].
    apply insert_entry_grows in Hins. intros Hrest%IH.
    eapply grows_trans; [exact Hreg|]. by eapply grows_trans.
Qed.

Lemma update_connection_row_identity cid u tc hnp ec c :
  connection_identity (update_connection_row cid u tc hnp ec c)
    = connection_identity c.
Proof. unfold update_connection_row. by case_decide. Qed.

Lemma updateConnection_grows schema u oid name qr t t' :
  _nontransactionallyUpdateConnection schema u oid name qr t = (Ok tt, t') →
  grows t t'.
Proof.
  destruct (select_connection oid name t) as [c|] eqn:Hsel;
    [|by rewrite updateConnection_unknown].
  rewrite (updateConnection_known _ _ _ _ _ _ _ Hsel).
  destruct (update_connection _ _ _ _ _ _) as [[[] t1]|e] eqn:Hup; [|done].
  apply (update_connection_ok schema) in Hup as (-> & _ & _).
  intros Hloop%add_entries_grows. eapply grows_trans; [|exact Hloop].
  split; simpl; try done.
  - exists []. by rewrite app_nil_r.
  - rewrite <-list_fmap_compose.
    match goal with
    | |- prefix _ (?f <$> _) =>
        assert (f <$> connections t = connection_identity <$> connections t)
          as ->; [|done]
    end.
    apply list_fmap_ext. intros i x _. apply update_connection_row_identity.
Qed.

Lemma step_grows schema db db' t :
  mirror_inv schema db → tables (store db) = Some t → step schema db db' →
  ∃ t', tables (store db') = Some t' ∧ grows t t'.
Proof.
  intros (Htxn & Hblob & t0 & Ht0 & Hinv) Ht Hstep.
  assert (t0 = t) as -> by congruence.
  destruct Hstep as [|o|ts|since|oid name|u oid name qr]; unfold exec.
  - rewrite constructor_same by done. eauto using grows_refl.
  - unfold registerObject. rewrite (_inTransaction_on_tables _ db t) by done.
    destruct (_nontransactionallyRegisterObject schema o t) as [[[]|e] t'] eqn:Hreg;
      [|eauto using grows_refl].
    exists t'. split; [done|]. by eapply registered_grows, register_ok.
  - unfold _createUpdate. rewrite (on_tables_Some _ db t) by done. simpl.
    eexists. split; [done|]. split; simpl; try done.
    + by apply prefix_app_r.
    + exists []. by rewrite app_nil_r.
  - rewrite (findOutdated_eq db t) by done. eauto using grows_refl.
  - rewrite (getEndCursor_eq db t) by done.
    destruct (select_connection oid name t); eauto using grows_refl.
  - unfold _updateConnection. rewrite (_inTransaction_on_tables _ db t) by done.
    destruct (_nontransactionallyUpdateConnection schema u oid name qr t)
      as [[[]|e] t'] eqn:Hup; [|eauto using grows_refl].
    exists t'. split; [done|]. by eapply updateConnection_grows.
Qed.

Lemma steps_reachable schema db db' :
  reachable schema db → rtc (step schema) db db' → reachable schema db'.
Proof. induction 2; eauto using reachable_step. Qed.

Lemma steps_grow schema db db' t :
  reachable schema db → tables (store db) = Some t →
  rtc (step schema) db db' →
  ∃ t', tables (store db') = Some t' ∧ grows t t'.
Proof.
  intros Hreach Ht Hsteps. revert t Hreach Ht.
  induction Hsteps as [db|db db1 db' Hstep _ IH]; intros t Hreach Ht.
  - eauto using grows_refl.
  - destruct (step_grows schema db db1 t) as (t1 & Ht1 & Hg1);
      [by apply reachable_inv|done..|].
    destruct (IH t1) as (t' & Ht' & Hg'); [by eapply reachable_step|done|].
    exists t'. split; [done|]. by eapply grows_trans.
Qed.

Lemma updateConnection_connections schema u oid name qr t t' c :
  select_connection oid name t = Some c →
  _nontransactionallyUpdateConnection schema u oid name qr t = (Ok tt, t') →
  updates t' = updates t ∧ links t' = links t
  ∧ ∃ more,
      connections t'
        = (update_connection_row (connection_rowid c) u (totalCount qr)
             (if hasNextPage (pageInfo qr) then 1 else 0)
             (endCursor (pageInfo qr)) <$> connections t) ++ more
      ∧ Forall (new_connection t) more.
Proof.
  intros Hsel. rewrite (updateConnection_known _ _ _ _ _ _ _ Hsel).
  destruct (update_connection _ _ _ _ _ _) as [[[] t1]|e] eqn:Hup; [|done].
  apply (update_connection_ok schema) in Hup as (-> & _ & _).
  intros [Hu Hl _ (more & Hc & Hmore)]%add_entries_extends. simpl in *.
  split; [done|]. split; [done|]. by exists more.
Qed.

Lemma step_updates schema db db' t :
  mirror_inv schema db → tables (store db) = Some t → step schema db db' →
  ∃ t', tables (store db') = Some t'
    ∧ (updates t' = updates t
       ∨ ∃ ts, updates t'
           = updates t ++ [mkUpdate (Sql.next_rowid (update_rowid <$> updates t)) ts]).
Proof.
  intros (Htxn & Hblob & t0 & Ht0 & Hinv) Ht Hstep.
  assert (t0 = t) as -> by congruence.
  destruct Hstep as [|o|ts|since|oid name|u oid name qr]; unfold exec.
  - rewrite constructor_same by done. eauto.
  - unfold registerObject. rewrite (_inTransaction_on_tables _ db t) by done.
    destruct (_nontransactionallyRegisterObject schema o t) as [[[]|e] t'] eqn:Hreg;
      [|eauto].
    exists t'. split; [done|]. left.
    by apply register_ok, registered_extends in Hreg as [[] _].
  - rewrite (createUpdate_eq db t) by done. simpl. eauto.
  - rewrite (findOutdated_eq db t) by done. eauto.
  - rewrite (getEndCursor_eq db t) by done.
    destruct (select_connection oid name t); eauto.
  - unfold _updateConnection. rewrite (_inTransaction_on_tables _ db t) by done.
    destruct (_nontransactionallyUpdateConnection schema u oid name qr t)
      as [[[]|e] t'] eqn:Hup; [|eauto].
    exists t'. split; [done|]. left.
    pose proof Hup as (c & Hsel & _)%updateConnection_ok; [|done].
    by destruct (updateConnection_connections _ _ _ _ _ _ _ _ Hsel Hup) as [? _].
Qed.

Lemma reachable_update_ids schema db :
  reachable schema db →
  ∃ t, tables (store db) = Some t
    ∧ update_rowid <$> updates t = seqZ 1 (Z.of_nat (length (updates t))).
Proof.
  induction 1 as [Hok|db db' Hreach (t & Ht & Hids) Hstep].
  - pose proof (reachable_inv schema _ (reachable_new schema Hok))
      as (_ & _ & t & Ht & _).
    revert Hok Ht. unfold eval, exec, constructor, _initialize.
    rewrite initialize_at_eq by done. simpl.
    destruct (for_of schema create_own_data_table _) as [[[]|e] s'] eqn:Hloop; [|done].
    apply create_own_data_tables_frame in Hloop as [_ Htables]. simpl in *.
    intros _ Ht. exists no_rows. split; [congruence|done].
  - destruct (step_updates schema db db' t) as (t' & Ht' & [Hu|[ts Hu]]);
      [by apply reachable_inv|done..| |]; exists t'; (split; [done|]);
      rewrite Hu; [done|].
    rewrite fmap_app, length_app, Hids. simpl.
    unfold Sql.next_rowid. rewrite next_index_seqZ.
    rewrite Nat2Z.inj_add. change (Z.of_nat 1) with 1.
    rewrite (seqZ_app 1 (Z.of_nat (length (updates t))) 1) by lia.
    f_equal. rewrite seqZ_cons by lia. simpl. f_equal. lia.
Qed.

Lemma reachable_mirror_db : reachable githubSchema mirror_db.
Proof. apply reachable_new. reflexivity. Qed.

Lemma reachable_favorite_db : reachable githubSchema favorite_db.
Proof.
  apply (reachable_step _ mirror_db); [apply reachable_mirror_db|].
  apply step_registerObject.
Qed.

Lemma reachable_ingested_db : reachable githubSchema ingested_db.
Proof.
  apply (reachable_step _ rowR_db); [apply reachable_rowR_db|].
  apply step_updateConnection.
Qed.

(** X6. In a database of a mirror the ids of the updates are 1, 2, ..., n
    in the order of their creation, and [_createUpdate] returns n + 1. With
    an update id outside 1..n, [_updateConnection] on a connection that has
    a row throws the foreign-key error of the store and changes nothing. *)
Theorem update_ids_count_from_one (schema : Schema) (db : Database) :
  reachable schema db →
  ∃ t, tables (store db) = Some t
    ∧ update_rowid <$> updates t = seqZ 1 (Z.of_nat (length (updates t)))
    ∧ (∀ updateTimestamp,
         eval (_createUpdate updateTimestamp) db
           = Ok (Z.of_nat (length (updates t)) + 1))
    ∧ (∀ updateId objectId name queryResult,
         ¬ (1 ≤ updateId ≤ Z.of_nat (length (updates t))) →
         is_Some (select_connection objectId name t) →
         _updateConnection schema updateId objectId name queryResult db
           = (Throw Sql.SQLITE_CONSTRAINT_FOREIGNKEY, db)).
Proof.
  intros Hreach. destruct (reachable_update_ids _ _ Hreach) as (t & Ht & Hids).
  pose proof (reachable_inv _ _ Hreach) as (Htxn & _).
  exists t. split; [done|]. split; [done|]. split.
  - intros ts. unfold eval. rewrite (createUpdate_eq db t) by done. simpl.
    unfold Sql.next_rowid. by rewrite Hids, next_index_seqZ.
  - intros u oid name qr Hout [c Hsel]. unfold _updateConnection.
    rewrite (_inTransaction_on_tables _ db t) by done.
    rewrite (updateConnection_known _ _ _ _ _ _ _ Hsel).
    unfold update_connection. rewrite decide_True; [done|].
    pose proof (select_connection_Some _ _ _ _ Hsel) as (Hc & _).
    split; [by apply list_elem_of_fmap_2|].
    rewrite Hids, elem_of_seqZ. lia.
Qed.

Lemma update_ids_count_from_one_witness :
  eval (_createUpdate 7) rowR_db = Ok 2.
Proof.
  destruct (update_ids_count_from_one githubSchema rowR_db reachable_rowR_db)
    as (t & Ht & _ & Hnext & _).
  rewrite Hnext.
  assert (t = rowR_tables) as ->.
  { assert (tables (store rowR_db) = Some rowR_tables) as Ht' by reflexivity.
    congruence. }
  reflexivity.
Defined.

(** X7. The ids that [_createUpdate] returns increase: an id returned
    after any calls on the mirror is larger than one returned before them,
    whatever the two timestamps. *)
Theorem createUpdate_ids_increase (schema : Schema) (db db1 db2 db3 : Database)
    (timestamp1 timestamp2 : Z) (updateId1 updateId2 : UpdateId) :
  reachable schema db →
  _createUpdate timestamp1 db = (Ok updateId1, db1) →
  rtc (step schema) db1 db2 →
  _createUpdate timestamp2 db2 = (Ok updateId2, db3) →
  updateId1 < updateId2.
Proof.
  intros Hreach H1 Hsteps H2.
  pose proof (reachable_inv _ _ Hreach) as (_ & _ & t & Ht & _).
  rewrite (createUpdate_eq db t) in H1 by done. injection H1 as <- <-.
  set (t1 := mkTables _ _ _ _ _) in *.
  assert (reachable schema (set_tables t1 db)) as Hreach1.
  { eapply reachable_step; [exact Hreach|].
    pose proof (step_createUpdate schema db timestamp1) as Hstep.
    unfold exec in Hstep. by rewrite (createUpdate_eq db t) in Hstep. }
  destruct (steps_grow schema _ db2 t1 Hreach1 eq_refl Hsteps)
    as (t2 & Ht2 & [[more Hu] _ _ _ _]).
  rewrite (createUpdate_eq db2 t2) in H2 by done. injection H2 as <- _.
  apply next_rowid_gt. rewrite Hu. subst t1. simpl.
  rewrite !fmap_app. simpl. set_solver.
Qed.

Lemma createUpdate_ids_increase_witness :
  _createUpdate 0 mirror_db = (Ok 1, update1_db)
  ∧ _createUpdate 0 update1_db = (Ok 2, update2_db)
  ∧ 1 < 2.
Proof.
  assert (_createUpdate 0 mirror_db = (Ok 1, update1_db)) as H1
    by (vm_compute; reflexivity).
  assert (_createUpdate 0 update1_db = (Ok 2, update2_db)) as H2
    by (vm_compute; reflexivity).
  split; [exact H1|]. split; [exact H2|].
  apply (createUpdate_ids_increase githubSchema mirror_db update1_db update1_db
           update2_db 0 0 1 2 reachable_mirror_db H1 (rtc_refl _ _) H2).
Defined.

(** X8. No call on a mirror removes or reorders rows: after any calls,
    the rows of [updates], [objects] and [connection_entries] before them are
    a prefix of the rows after them, the rows of [connections] before them
    are in their places with their row id, owner and field name, and [links]
    is as before. *)
Theorem mirror_append_only (schema : Schema) (db db' : Database) :
  reachable schema db → rtc (step schema) db db' →
  ∃ t t', tables (store db) = Some t ∧ tables (store db') = Some t'
    ∧ prefix (updates t) (updates t')
    ∧ prefix (objects t) (objects t')
    ∧ links t' = links t
    ∧ prefix (connection_identity <$> connections t)
             (connection_identity <$> connections t')
    ∧ prefix (connection_entries t) (connection_entries t').
Proof.
  intros Hreach Hsteps.
  pose proof (reachable_inv _ _ Hreach) as (_ & _ & t & Ht & _).
  destruct (steps_grow schema db db' t Hreach Ht Hsteps)
    as (t' & Ht' & [? (more & Ho & _) ? ? ?]).
  exists t, t'. split_and!; try done. by exists more.
Qed.

Lemma mirror_append_only_witness :
  ∃ t t', tables (store mirror_db) = Some t ∧ tables (store favorite_db) = Some t'
    ∧ prefix (updates t) (updates t')
    ∧ prefix (objects t) (objects t')
    ∧ links t' = links t
    ∧ prefix (connection_identity <$> connections t)
             (connection_identity <$> connections t')
    ∧ prefix (connection_entries t) (connection_entries t').
Proof.
  apply (mirror_append_only githubSchema mirror_db favorite_db reachable_mirror_db).
  apply rtc_once. apply step_registerObject.
Defined.

Lemma steps_select_typename schema db db' t t' id T :
  reachable schema db → rtc (step schema) db db' →
  tables (store db) = Some t → tables (store db') = Some t' →
  select_typename id t = Some T → select_typename id t' = Some T.
Proof.
  intros Hreach Hsteps Ht Ht' Hsel.
  destruct (steps_grow schema db db' t Hreach Ht Hsteps)
    as (t'' & Ht'' & [_ (more & Ho & _) _ _ _]).
  assert (t'' = t') as -> by congruence.
  pose proof (reachable_inv _ _ (steps_reachable _ _ _ Hreach Hsteps))
    as (_ & _ & t0 & Ht0 & Hinv).
  assert (t0 = t') as -> by congruence.
  eapply select_typename_prefix; [apply Hinv|by exists more|done].
Qed.

(** X9. The typename of a registered id is permanent: after any calls on
    the mirror the id is registered under the same typename, and
    [registerObject] with another typename throws the inconsistent-type
    error and changes nothing. *)
Theorem typename_is_permanent (schema : Schema) (db db' : Database)
    (t : Tables) (id : ObjectId) (T : Typename) :
  reachable schema db → rtc (step schema) db db' →
  tables (store db) = Some t → select_typename id t = Some T →
  ∃ t', tables (store db') = Some t'
    ∧ select_typename id t' = Some T
    ∧ ∀ T', T' ≠ T →
        registerObject schema (mkRef T' id) db'
          = (Throw (InconsistentType id T T'), db').
Proof.
  intros Hreach Hsteps Ht Hsel.
  pose proof (reachable_inv _ _ (steps_reachable _ _ _ Hreach Hsteps))
    as (Htxn' & _ & t' & Ht' & Hinv').
  exists t'. split; [done|].
  pose proof (steps_select_typename _ _ _ _ _ _ _ Hreach Hsteps Ht Ht' Hsel) as Hsel'.
  split; [done|]. intros T' Hne.
  unfold registerObject. rewrite (_inTransaction_on_tables _ db' t') by done.
  rewrite (register_existing schema (mkRef T' id) t' T Hsel'). simpl.
  by rewrite decide_False.
Qed.

Lemma typename_is_permanent_witness :
  ∃ t', tables (store ingested_db) = Some t'
    ∧ select_typename "R" t' = Some "Repository"
    ∧ ∀ T', T' ≠ "Repository" →
        registerObject githubSchema (mkRef T' "R") ingested_db
          = (Throw (InconsistentType "R" "Repository" T'), ingested_db).
Proof.
  apply (typename_is_permanent githubSchema rowR_db ingested_db rowR_tables
           "R" "Repository" reachable_rowR_db).
  - apply rtc_once. apply step_updateConnection.
  - reflexivity.
  - reflexivity.
Defined.

(** X10. [registerObject] can be repeated: once it has returned for an
    object, the same call, after any other calls on the mirror, returns and
    changes nothing. *)
Theorem registerObject_again (schema : Schema) (db db1 db2 : Database)
    (o : ObjectRef) :
  reachable schema db →
  registerObject schema o db = (Ok tt, db1) →
  rtc (step schema) db1 db2 →
  registerObject schema o db2 = (Ok tt, db2).
Proof.
  intros Hreach Hreg Hsteps.
  pose proof (reachable_inv _ _ Hreach) as (Htxn & _ & t & Ht & Hinv).
  assert (reachable schema db1) as Hreach1.
  { eapply reachable_step; [exact Hreach|].
    pose proof (step_registerObject schema db o) as Hstep.
    unfold exec in Hstep. by rewrite Hreg in Hstep. }
  pose proof (reachable_inv _ _ Hreach1) as (_ & _ & t1 & Ht1 & _).
  pose proof (reachable_inv _ _ (steps_reachable _ _ _ Hreach1 Hsteps))
    as (Htxn2 & _ & t2 & Ht2 & _).
  assert (select_typename (id_ o) t1 = Some (typename_ o)) as Hsel1.
  { revert Hreg Ht1. unfold registerObject.
    rewrite (_inTransaction_on_tables _ db t) by done.
    destruct (_nontransactionallyRegisterObject schema o t) as [[[]|e] t'] eqn:Hr;
      [|done].
    intros [= <-]. simpl. intros [= <-].
    eapply registered_select; [done|]. by apply register_ok. }
  pose proof (steps_select_typename _ _ _ _ _ _ _ Hreach1 Hsteps Ht1 Ht2 Hsel1)
    as Hsel2.
  unfold registerObject. rewrite (_inTransaction_on_tables _ db2 t2) by done.
  rewrite (register_existing schema o t2 _ Hsel2).
  rewrite decide_True by done. by rewrite set_tables_id.
Qed.

Lemma registerObject_again_witness :
  registerObject githubSchema (mkRef "Issue" "my-favorite-id") favorite_db
    = (Ok tt, favorite_db).
Proof.
  apply (registerObject_again githubSchema mirror_db favorite_db favorite_db
           (mkRef "Issue" "my-favorite-id") reachable_mirror_db).
  - vm_compute. reflexivity.
  - apply rtc_refl.
Defined.

(** ** [findOutdated], as the queries are written *)

(** X11. The connections of [findOutdated since], on a database that has
    the tables and is not in a transaction: one row for each connection of
    a registered object for which [has_next_page] is true, or the
    connection's [last_update] is NULL, or the update of the owner, joined
    through [objects.last_update], is older than [since]; the database stays
    as it is. *)
Theorem findOutdated_connections_exact (db : Database) (t : Tables) (since : Z) :
  txn db = None → tables (store db) = Some t →
  ∃ r, findOutdated since db = (Ok r, db)
    ∧ ∀ row, row ∈ outdated_connections r ↔
        ∃ o c, o ∈ objects t ∧ c ∈ connections t
          ∧ object_id c = object_id_ o
          ∧ row = mkOutdated (object_typename o) (object_id_ o) (fieldname c)
                    (end_cursor c)
          ∧ ((∃ n, has_next_page c = Some n ∧ n ≠ 0)
             ∨ last_update c = None
             ∨ ∃ u, u ∈ updates t
                  ∧ object_last_update o = Some (update_rowid u)
                  ∧ time_epoch_millis u < since).
Proof.
  intros Htxn Ht. eexists. split; [by apply findOutdated_eq|]. simpl.
  intros row. rewrite select_outdated_connections_elem.
  split; intros (o & c & ? & ? & ? & ? & ?); exists o, c; split_and!; done.
Qed.

Lemma findOutdated_connections_exact_witness :
  ∃ r, findOutdated 456 scenario_db = (Ok r, scenario_db)
    ∧ mkOutdated "Repository" "repo:ab/cd" "issues" (Some "cursor:repo.issues")
        ∈ outdated_connections r.
Proof.
  destruct (findOutdated_connections_exact scenario_db scenario_tables 456
              eq_refl eq_refl) as (r & Hr & Hiff).
  exists r. split; [exact Hr|]. apply Hiff.
  exists (mkObject "repo:ab/cd" (Some 1) "Repository"),
    (mkConnection 1 "repo:ab/cd" "issues" (Some 1) None (Some 0)
       (Some "cursor:repo.issues")).
  split; [left|]. split; [left|]. split; [reflexivity|]. split; [reflexivity|].
  right; right. exists (mkUpdate 1 123).
  split; [left|]. split; [reflexivity|]. simpl. lia.
Defined.

(** X12. [findOutdated] is monotone in its date: what it returns for a
    date, objects and connections, it returns for every later date. *)
Theorem findOutdated_monotone (db : Database) (t : Tables) (since since' : Z) :
  txn db = None → tables (store db) = Some t → since ≤ since' →
  ∃ r r', findOutdated since db = (Ok r, db)
    ∧ findOutdated since' db = (Ok r', db)
    ∧ outdated_objects r ⊆ outdated_objects r'
    ∧ outdated_connections r ⊆ outdated_connections r'.
Proof.
  intros Htxn Ht Hle. eexists _, _.
  split; [by apply findOutdated_eq|]. split; [by apply findOutdated_eq|].
  simpl. split.
  - intros ref. rewrite !select_outdated_objects_elem.
    intros (o & Ho & -> & Hstale). exists o. split; [done|]. split; [done|].
    destruct Hstale as [?|(u & ? & ? & ?)]; [by left|right].
    exists u. split_and!; [done..|lia].
  - intros row. rewrite !select_outdated_connections_elem.
    intros (o & c & Ho & Hc & Hid & -> & Hstale). exists o, c.
    split_and!; try done.
    destruct Hstale as [?|[?|(u & ? & ? & ?)]]; [by left|by right; left|].
    right; right. exists u. split_and!; [done..|lia].
Qed.

Lemma findOutdated_monotone_witness :
  ∃ r r', findOutdated 123 scenario_db = (Ok r, scenario_db)
    ∧ findOutdated 456 scenario_db = (Ok r', scenario_db)
    ∧ outdated_objects r ⊆ outdated_objects r'
    ∧ outdated_connections r ⊆ outdated_connections r'.
Proof.
  apply (findOutdated_monotone scenario_db scenario_tables 123 456);
    [reflexivity|reflexivity|lia].
Defined.

Lemma reachable_never_updated schema db :
  reachable schema db →
  ∃ t, tables (store db) = Some t ∧ objects_never_updated t.
Proof.
  induction 1 as [Hok|db db' Hreach (t & Ht & Hnull) Hstep].
  - pose proof (reachable_inv schema _ (reachable_new schema Hok))
      as (_ & _ & t & Ht & _).
    revert Hok Ht. unfold eval, exec, constructor, _initialize.
    rewrite initialize_at_eq by done. simpl.
    destruct (for_of schema create_own_data_table _) as [[[]|e] s'] eqn:Hloop; [|done].
    apply create_own_data_tables_frame in Hloop as [_ Htables]. simpl in *.
    intros _ Ht. exists no_rows. split; [congruence|]. by apply Forall_nil.
  - destruct (step_grows schema db db' t) as (t' & Ht' & Hg);
      [by apply reachable_inv|done..|].
    exists t'. split; [done|].
    destruct Hg as [_ (more & Ho & Hmore) _ _ _].
    unfold objects_never_updated. rewrite Ho. by apply Forall_app.
Qed.

Lemma left_join_updates_None us : left_join_updates None us = [None].
Proof.
  unfold left_join_updates. by rewrite filter_none by (by apply Forall_forall).
Qed.

Lemma select_outdated_objects_null threshold t :
  objects_never_updated t →
  select_outdated_objects threshold t
    = (λ o, mkRef (object_typename o) (object_id_ o)) <$> objects t.
Proof.
  unfold objects_never_updated, select_outdated_objects.
  induction 1 as [|o os Ho _ IH]; [done|].
  rewrite fmap_cons, bind_cons, IH, Ho, left_join_updates_None. done.
Qed.

Lemma select_outdated_connections_null threshold threshold' t :
  objects_never_updated t →
  select_outdated_connections threshold t
    = select_outdated_connections threshold' t.
Proof.
  unfold objects_never_updated, select_outdated_connections.
  generalize (connections t) (updates t). intros cs us.
  induction 1 as [|o os Ho _ IH]; [done|].
  rewrite !bind_cons, IH. f_equal.
  rewrite Ho, left_join_updates_None. done.
Qed.

(** X13. No method writes [objects.last_update]: in a database of a
    mirror it is NULL in every row. There [findOutdated] returns every
    registered object, in the order of registration, and the connections
    that were never fetched or have a next page; its result is the same for
    every date. *)
Theorem findOutdated_of_mirror (schema : Schema) (db : Database) :
  reachable schema db →
  ∃ t, tables (store db) = Some t
    ∧ Forall (λ o, object_last_update o = None) (objects t)
    ∧ ∀ since, ∃ r, findOutdated since db = (Ok r, db)
        ∧ outdated_objects r
            = (λ o, mkRef (object_typename o) (object_id_ o)) <$> objects t
        ∧ (∀ row, row ∈ outdated_connections r ↔
             ∃ c T, c ∈ connections t
               ∧ select_typename (object_id c) t = Some T
               ∧ row = mkOutdated T (object_id c) (fieldname c) (end_cursor c)
               ∧ (last_update c = None
                  ∨ ∃ n, has_next_page c = Some n ∧ n ≠ 0))
        ∧ ∀ since', eval (findOutdated since') db = Ok r.
Proof.
  intros Hreach.
  pose proof (reachable_inv _ _ Hreach) as (Htxn & _ & t & Ht & Hinv).
  destruct (reachable_never_updated _ _ Hreach) as (t0 & Ht0 & Hnull).
  assert (t0 = t) as -> by congruence.
  exists t. split; [done|]. split; [done|]. intros since.
  eexists. split; [by apply findOutdated_eq|]. simpl. split_and!.
  - by apply select_outdated_objects_null.
  - intros row. rewrite select_outdated_connections_elem. split.
    + intros (o & c & Ho & Hc & Hid & -> & Hstale).
      exists c, (object_typename o). split; [done|]. split.
      { rewrite <-Hid. apply select_typename_elem; [apply Hinv|done]. }
      split; [by rewrite Hid|].
      destruct Hstale as [?|[?|(u & _ & Hlast & _)]]; [by right|by left|].
      unfold objects_never_updated in Hnull. rewrite Forall_forall in Hnull.
      rewrite (Hnull o Ho) in Hlast. done.
    + intros (c & T & Hc & Hsel & -> & Hstale).
      apply select_typename_Some in Hsel as (o & Ho & Hid & <-).
      exists o, c. split_and!; try done; [by rewrite Hid|].
      destruct Hstale as [?|?]; [right; by left|by left].
  - intros since'. unfold eval. rewrite (findOutdated_eq db t) by done. simpl.
    do 2 f_equal.
    + by rewrite !select_outdated_objects_null.
    + by apply select_outdated_connections_null.
Qed.

Lemma findOutdated_of_mirror_witness :
  ∃ t, tables (store ingested_db) = Some t
    ∧ Forall (λ o, object_last_update o = None) (objects t)
    ∧ ∀ since, ∃ r, findOutdated since ingested_db = (Ok r, ingested_db)
        ∧ outdated_objects r
            = (λ o, mkRef (object_typename o) (object_id_ o)) <$> objects t
        ∧ (∀ row, row ∈ outdated_connections r ↔
             ∃ c T, c ∈ connections t
               ∧ select_typename (object_id c) t = Some T
               ∧ row = mkOutdated T (object_id c) (fieldname c) (end_cursor c)
               ∧ (last_update c = None
                  ∨ ∃ n, has_next_page c = Some n ∧ n ≠ 0))
        ∧ ∀ since', eval (findOutdated since') ingested_db = Ok r.
Proof. apply (findOutdated_of_mirror githubSchema ingested_db reachable_ingested_db). Defined.

(** ** Connections: lookup, ingestion and what follows *)

Lemma NoDup_connection_fields fields :
  NoDup (Js.keys fields) → NoDup (connection_fields fields).
Proof.
  unfold Js.keys, connection_fields. intros Hnd.
  eapply sublist_NoDup; [exact Hnd|].
  apply fmap_sublist, sublist_filter.
Qed.

(** UNIQUE(object_id, fieldname), from the schema. *)
Lemma connection_unique schema t c1 c2 :
  schema_wf schema → tables_inv schema t →
  c1 ∈ connections t → c2 ∈ connections t →
  object_id c1 = object_id c2 → fieldname c1 = fieldname c2 → c1 = c2.
Proof.
  intros Hwf Hinv Hc1 Hc2 Hid Hname.
  pose proof (inv_connection_owner _ _ Hinv c1 Hc1) as (o & Ho & Hin)%list_elem_of_fmap.
  destruct (inv_connection_fields _ _ Hinv o Hin) as (fields & Hget & Hnames).
  apply (NoDup_fmap_eq fieldname (connections_of (object_id_ o) t)); try done.
  - rewrite Hnames. apply NoDup_connection_fields. by eapply schema_wf_fields.
  - apply list_elem_of_filter. done.
  - apply list_elem_of_filter. split; [congruence|done].
Qed.

Lemma select_connection_schema schema t id name :
  tables_inv schema t →
  is_Some (select_connection id name t) ↔ has_connection_field schema t id name.
Proof.
  intros Hinv. split.
  - intros [c (Hc & Hid & Hname)%select_connection_Some].
    pose proof (inv_connection_owner _ _ Hinv c Hc) as (o & Ho & Hin)%list_elem_of_fmap.
    destruct (inv_connection_fields _ _ Hinv o Hin) as (fields & Hget & Hnames).
    assert (name ∈ connection_fields fields) as (E & HE)%connection_fields_elem.
    { rewrite <-Hnames, <-Hname. apply list_elem_of_fmap_2, list_elem_of_filter.
      split; [congruence|done]. }
    exists (object_typename o), fields, E. split; [|done].
    rewrite <-Hid, Ho. apply select_typename_elem; [apply Hinv|done].
  - intros (T & fields & E & (o & Ho & Hid & HT)%select_typename_Some & Hget & HE).
    destruct (inv_connection_fields _ _ Hinv o Ho) as (fields' & Hget' & Hnames).
    assert (fields' = fields) as -> by congruence.
    assert (name ∈ fieldname <$> connections_of (object_id_ o) t)
      as (c & Hname & [Hcid Hc]%list_elem_of_filter)%list_elem_of_fmap.
    { rewrite Hnames. apply connection_fields_elem. eauto. }
    destruct (select_connection id name t) as [c'|] eqn:Hsel; [eauto|].
    exfalso. eapply (select_connection_None _ _ _ Hsel c); [done|].
    split; congruence.
Qed.

(** X14. In a database of a mirror, a connection has a row exactly when
    its object is registered under an object type that has a connection
    field of that name. For such a connection [_getEndCursor] returns and
    changes nothing; for any other, [_getEndCursor] and [_updateConnection]
    throw the no-such-connection error and change nothing. *)
Theorem unknown_connection_iff (schema : Schema) (db : Database)
    (objectId : ObjectId) (name : Fieldname) :
  reachable schema db →
  ∃ t, tables (store db) = Some t
    ∧ (has_connection_field schema t objectId name →
         ∃ cursor, _getEndCursor objectId name db = (Ok cursor, db))
    ∧ (¬ has_connection_field schema t objectId name →
         _getEndCursor objectId name db
           = (Throw (UnknownConnection objectId name), db)
         ∧ ∀ updateId queryResult,
             _updateConnection schema updateId objectId name queryResult db
               = (Throw (UnknownConnection objectId name), db)).
Proof.
  intros (Htxn & _ & t & Ht & Hinv)%reachable_inv.
  exists t. split; [done|].
  rewrite <-(select_connection_schema schema t) by done.
  rewrite (getEndCursor_eq db t) by done. split.
  - intros [c ->]. eauto.
  - intros Hnone.
    destruct (select_connection objectId name t) as [c|] eqn:Hsel.
    { destruct Hnone. eauto. }
    split; [done|]. intros u qr. unfold _updateConnection.
    rewrite (_inTransaction_on_tables _ db t) by done.
    by rewrite updateConnection_unknown.
Qed.

Lemma unknown_connection_iff_witness :
  _getEndCursor "my-favorite-id" "title" favorite_db
    = (Throw (UnknownConnection "my-favorite-id" "title"), favorite_db).
Proof.
  destruct (unknown_connection_iff githubSchema favorite_db "my-favorite-id"
              "title" reachable_favorite_db) as (t & Ht & _ & Hunknown).
  apply Hunknown.
  assert (t = favorite_tables) as ->.
  { assert (tables (store favorite_db) = Some favorite_tables) as Ht'
      by reflexivity.
    congruence. }
  intros (T & fields & E & HT & Hget & Hin).
  vm_compute in HT. injection HT as <-.
  vm_compute in Hget. injection Hget as <-.
  repeat (apply elem_of_cons in Hin as [Hin|Hin]; [discriminate Hin|]).
  by apply not_elem_of_nil in Hin.
Defined.

Lemma updateConnection_success schema u oid name qr db db' :
  reachable schema db →
  _updateConnection schema u oid name qr db = (Ok tt, db') →
  ∃ t t' c, tables (store db) = Some t ∧ tables (store db') = Some t'
    ∧ txn db = None ∧ tables_inv schema t ∧ tables_inv schema t'
    ∧ reachable schema db'
    ∧ _nontransactionallyUpdateConnection schema u oid name qr t = (Ok tt, t')
    ∧ select_connection oid name t = Some c
    ∧ select_connection oid name t' = Some (updated_connection u qr c).
Proof.
  intros Hreach Hup.
  assert (reachable schema db') as Hreach'.
  { eapply reachable_step; [exact Hreach|].
    pose proof (step_updateConnection schema db u oid name qr) as Hstep.
    unfold exec in Hstep. by rewrite Hup in Hstep. }
  pose proof (reachable_inv _ _ Hreach) as (Htxn & _ & t & Ht & Hinv).
  revert Hup. unfold _updateConnection.
  rewrite (_inTransaction_on_tables _ db t) by done.
  destruct (_nontransactionallyUpdateConnection _ _ _ _ _ t)
    as [[[]|e] t'] eqn:Hup; [|done].
  intros [= <-]. exists t, t'.
  pose proof Hup as (c & Hsel & _ & Hinv' & Hsel' & _)%updateConnection_ok; [|done].
  exists c. split_and!; done.
Qed.

(** X15. After [_updateConnection] has returned, [_getEndCursor] of the
    same connection returns the end cursor of the response, [null]
    included, and not [undefined]. *)
Theorem updateConnection_then_getEndCursor (schema : Schema) (db db' : Database)
    (updateId : UpdateId) (objectId : ObjectId) (name : Fieldname)
    (queryResult : ConnectionFieldResult) :
  reachable schema db →
  _updateConnection schema updateId objectId name queryResult db = (Ok tt, db') →
  _getEndCursor objectId name db'
    = (Ok (Some (endCursor (pageInfo queryResult))), db').
Proof.
  intros Hreach Hup.
  destruct (updateConnection_success _ _ _ _ _ _ _ Hreach Hup)
    as (t & t' & c & _ & Ht' & _ & _ & _ & _ & _ & _ & Hsel').
  rewrite (getEndCursor_eq db' t') by done. by rewrite Hsel'.
Qed.

Lemma updateConnection_then_getEndCursor_witness :
  _getEndCursor "R" "issues" ingested_db = (Ok (Some (Some "c")), ingested_db).
Proof.
  apply (updateConnection_then_getEndCursor githubSchema rowR_db ingested_db 1
           "R" "issues" two_issues reachable_rowR_db).
  vm_compute. reflexivity.
Defined.

(** X16. After [_updateConnection] has returned, [findOutdated], for every
    date, returns the connection, with the end cursor of the response, when
    the response has a next page, and does not return it when the response
    has none. *)
Theorem updateConnection_then_findOutdated (schema : Schema) (db db' : Database)
    (updateId : UpdateId) (objectId : ObjectId) (name : Fieldname)
    (queryResult : ConnectionFieldResult) (since : Z) :
  schema_wf schema → reachable schema db →
  _updateConnection schema updateId objectId name queryResult db = (Ok tt, db') →
  ∃ r T, findOutdated since db' = (Ok r, db')
    ∧ (hasNextPage (pageInfo queryResult) = true →
         mkOutdated T objectId name (endCursor (pageInfo queryResult))
           ∈ outdated_connections r)
    ∧ (hasNextPage (pageInfo queryResult) = false →
         ∀ row, row ∈ outdated_connections r →
           ¬ (oc_id row = objectId ∧ oc_fieldname row = name)).
Proof.
  intros Hwf Hreach Hup.
  destruct (updateConnection_success _ _ _ _ _ _ _ Hreach Hup)
    as (t & t' & c & _ & Ht' & _ & _ & Hinv' & Hreach' & _ & Hsel & Hsel').
  pose proof (reachable_inv _ _ Hreach') as (Htxn' & _).
  destruct (reachable_never_updated _ _ Hreach') as (t0 & Ht0 & Hnull).
  assert (t0 = t') as -> by congruence.
  pose proof (select_connection_Some _ _ _ _ Hsel') as (Hc' & Hid' & Hname').
  pose proof (inv_connection_owner _ _ Hinv' _ Hc')
    as (o & Ho & Hin)%list_elem_of_fmap.
  eexists _, (object_typename o). split; [by apply findOutdated_eq|]. simpl.
  split.
  - intros Hnext. apply select_outdated_connections_elem.
    exists o, (updated_connection updateId queryResult c).
    split_and!; try done.
    + rewrite <-Ho, Hid', Hname'. done.
    + left. exists 1. simpl. by rewrite Hnext.
  - intros Hlast row
      (o' & c' & Ho' & Hc'' & Hid'' & -> & Hstale)%select_outdated_connections_elem
      [Hrid Hrname]. simpl in *.
    assert (c' = updated_connection updateId queryResult c) as ->.
    { eapply connection_unique; try done; simpl in *; congruence. }
    simpl in Hstale. rewrite Hlast in Hstale.
    destruct Hstale as [(n & [= <-] & ?)|[?|(u & _ & Hlu & _)]]; try done.
    unfold objects_never_updated in Hnull. rewrite Forall_forall in Hnull.
    by rewrite (Hnull o' Ho') in Hlu.
Qed.

Lemma updateConnection_then_findOutdated_witness :
  ∃ r T, findOutdated 500 ingested_db = (Ok r, ingested_db)
    ∧ (hasNextPage (pageInfo two_issues) = true →
         mkOutdated T "R" "issues" (endCursor (pageInfo two_issues))
           ∈ outdated_connections r)
    ∧ (hasNextPage (pageInfo two_issues) = false →
         ∀ row, row ∈ outdated_connections r →
           ¬ (oc_id row = "R" ∧ oc_fieldname row = "issues")).
Proof.
  apply (updateConnection_then_findOutdated githubSchema rowR_db ingested_db 1
           "R" "issues" two_issues 500).
  - compute_done.
  - apply reachable_rowR_db.
  - vm_compute. reflexivity.
Defined.

Lemma children_of_columns cid t :
  children_of cid t
    = snd <$> filter (λ x : Z * Z * ObjectId, x.1.1 = cid)
                (entry_columns <$> connection_entries t).
Proof.
  unfold children_of, entries_of.
  induction (connection_entries t) as [|e es IH]; [done|].
  rewrite fmap_cons, !filter_cons. simpl.
  case_decide; simpl; [f_equal|]; exact IH.
Qed.

Lemma filter_imap_columns cid cid' (next : Z) (nodes : list NodeFieldResult) :
  snd <$> filter (λ x : Z * Z * ObjectId, x.1.1 = cid')
            (imap (λ i node, (cid, next + Z.of_nat i, node_id node)) nodes)
    = if decide (cid = cid') then node_id <$> nodes else [].
Proof.
  revert next. induction nodes as [|n nodes IH]; intros next.
  - simpl. by case_decide.
  - cbn [imap]. rewrite filter_cons. cbn [fst snd].
    assert (imap ((λ i node, (cid, next + Z.of_nat i, node_id node)) ∘ S) nodes
            = imap (λ i node, (cid, (next + 1) + Z.of_nat i, node_id node)) nodes)
      as ->.
    { apply imap_ext. intros i x _. simpl. do 2 f_equal. lia. }
    specialize (IH (next + 1)).
    case_decide; [rewrite !fmap_cons|]; by rewrite IH.
Qed.

(** X17. [_updateConnection] that returns changes one connection: the
    updates are as before; every other row of [connections] is unchanged,
    and the new rows are never-fetched rows of objects that were not
    registered; the children of the connection are those before the call
    followed by the ids of the nodes of the response, in order, and the
    children of every other connection are as before. *)
Theorem updateConnection_touches_one_connection (schema : Schema)
    (db db' : Database) (updateId : UpdateId) (objectId : ObjectId)
    (name : Fieldname) (queryResult : ConnectionFieldResult) :
  reachable schema db →
  _updateConnection schema updateId objectId name queryResult db = (Ok tt, db') →
  ∃ t t' c, tables (store db) = Some t ∧ tables (store db') = Some t'
    ∧ select_connection objectId name t = Some c
    ∧ updates t' = updates t
    ∧ (∀ c', c' ∈ connections t → c' ≠ c → c' ∈ connections t')
    ∧ (∀ c', c' ∈ connections t' →
         c' = updated_connection updateId queryResult c
         ∨ c' ∈ connections t
         ∨ (object_id c' ∉ object_id_ <$> objects t) ∧ never_fetched c')
    ∧ children_of (connection_rowid c) t'
        = children_of (connection_rowid c) t ++ (node_id <$> nodes queryResult)
    ∧ (∀ connectionId, connectionId ≠ connection_rowid c →
         children_of connectionId t' = children_of connectionId t).
Proof.
  intros Hreach Hup.
  destruct (updateConnection_success _ _ _ _ _ _ _ Hreach Hup)
    as (t & t' & c & Ht & Ht' & _ & Hinv & Hinv' & _ & Hrun & Hsel & Hsel').
  exists t, t', c. split; [done|]. split; [done|]. split; [done|].
  destruct (updateConnection_connections _ _ _ _ _ _ _ _ Hsel Hrun)
    as (Hu & Hl & more & Hc & Hmore).
  pose proof Hrun as (c0 & Hsel0 & _ & _ & _ & He & _)%updateConnection_ok;
    [|done].
  assert (c0 = c) as -> by congruence.
  pose proof (select_connection_Some _ _ _ _ Hsel) as (Hcin & _).
  split; [done|]. split_and!.
  - intros c' Hc' Hne. rewrite Hc. apply elem_of_app. left.
    apply list_elem_of_fmap. exists c'. split; [|done].
    unfold update_connection_row. rewrite decide_False; [done|].
    intros Hrow. apply Hne.
    by apply (NoDup_fmap_eq connection_rowid (connections t));
      [apply Hinv|..].
  - intros c'. rewrite Hc, elem_of_app.
    intros [(c1 & -> & Hc1)%list_elem_of_fmap|Hin].
    + unfold update_connection_row. case_decide as Hrow; [left|by right; left].
      assert (c1 = c) as ->; [|done].
      by apply (NoDup_fmap_eq connection_rowid (connections t));
        [apply Hinv|..].
    + right; right. rewrite Forall_forall in Hmore. by apply Hmore.
  - rewrite !children_of_columns, He, filter_app, fmap_app.
    by rewrite filter_imap_columns, decide_True.
  - intros cid Hne. rewrite !children_of_columns, He, filter_app, fmap_app.
    by rewrite filter_imap_columns, decide_False, app_nil_r.
Qed.

Lemma updateConnection_touches_one_connection_witness :
  ∃ t t' c, tables (store rowR_db) = Some t ∧ tables (store ingested_db) = Some t'
    ∧ select_connection "R" "issues" t = Some c
    ∧ updates t' = updates t
    ∧ (∀ c', c' ∈ connections t → c' ≠ c → c' ∈ connections t')
    ∧ (∀ c', c' ∈ connections t' →
         c' = updated_connection 1 two_issues c
         ∨ c' ∈ connections t
         ∨ (object_id c' ∉ object_id_ <$> objects t) ∧ never_fetched c')
    ∧ children_of (connection_rowid c) t'
        = children_of (connection_rowid c) t ++ (node_id <$> nodes two_issues)
    ∧ (∀ connectionId, connectionId ≠ connection_rowid c →
         children_of connectionId t' = children_of connectionId t).
Proof.
  apply (updateConnection_touches_one_connection githubSchema rowR_db ingested_db
           1 "R" "issues" two_issues reachable_rowR_db).
  vm_compute. reflexivity.
Defined.

(** X18. The cursor that [_getEndCursor] returns is the one that
    [_queryConnection] takes: for a connection that has a row, the query
    built from it has the argument [after], with the stored end cursor,
    exactly when the connection was fetched before, and fetches from the
    start otherwise. *)
Theorem query_from_end_cursor (db : Database) (t : Tables)
    (objectId : ObjectId) (name : Fieldname) (c : ConnectionRow)
    (pageSize : option Z) :
  tables (store db) = Some t →
  select_connection objectId name t = Some c →
  ∃ cursor selections,
    _getEndCursor objectId name db = (Ok cursor, db)
    ∧ _queryConnection name cursor pageSize
        = [Queries.FIELD name
             (("first", Queries.LITERAL (Queries.Number (default 100 pageSize)))
              :: match last_update c with
                 | Some _ =>
                     [("after", Queries.LITERAL (cursor_scalar (end_cursor c)))]
                 | None => []
                 end)
             selections].
Proof.
  intros Ht Hsel. rewrite (getEndCursor_eq db t) by done. rewrite Hsel.
  eexists _, _. split; [done|]. unfold _queryConnection.
  by destruct (last_update c).
Qed.

Lemma query_from_end_cursor_witness :
  ∃ cursor selections,
    _getEndCursor "R" "issues" ingested_db = (Ok cursor, ingested_db)
    ∧ _queryConnection "issues" cursor None
        = [Queries.FIELD "issues"
             [("first", Queries.LITERAL (Queries.Number 100));
              ("after", Queries.LITERAL (Queries.Text "c"))]
             selections].
Proof.
  apply (query_from_end_cursor ingested_db ingested_tables "R" "issues"
           (mkConnection 1 "R" "issues" (Some 1) (Some 2) (Some 0) (Some "c"))
           None); reflexivity.
Defined.

Lemma updateConnection_children schema u oid name qr t t' c :
  tables_inv schema t →
  select_connection oid name t = Some c →
  _nontransactionallyUpdateConnection schema u oid name qr t = (Ok tt, t') →
  children_of (connection_rowid c) t'
    = children_of (connection_rowid c) t ++ (node_id <$> nodes qr).
Proof.
  intros Hinv Hsel Hrun.
  pose proof Hrun as (c0 & Hsel0 & _ & _ & _ & He & _)%updateConnection_ok;
    [|done].
  assert (c0 = c) as -> by congruence.
  rewrite !children_of_columns, He, filter_app, fmap_app.
  by rewrite filter_imap_columns, decide_True.
Qed.

(** X19. Pages accumulate: after two calls of [_updateConnection] on a
    connection that returned, its children are those before the calls,
    followed by the nodes of the first response and by those of the second,
    and its end cursor is the one of the second. Nothing is left out as
    known already: a response that was ingested can be ingested again, and
    its nodes are then entered twice. *)
Theorem updateConnection_pages_accumulate (schema : Schema)
    (db db1 db2 : Database) (updateId1 updateId2 : UpdateId)
    (objectId : ObjectId) (name : Fieldname)
    (page1 page2 : ConnectionFieldResult) :
  reachable schema db →
  _updateConnection schema updateId1 objectId name page1 db = (Ok tt, db1) →
  (_updateConnection schema updateId2 objectId name page2 db1 = (Ok tt, db2) →
   ∃ t t2 c, tables (store db) = Some t ∧ tables (store db2) = Some t2
     ∧ select_connection objectId name t = Some c
     ∧ children_of (connection_rowid c) t2
         = children_of (connection_rowid c) t
           ++ (node_id <$> nodes page1) ++ (node_id <$> nodes page2)
     ∧ _getEndCursor objectId name db2
         = (Ok (Some (endCursor (pageInfo page2))), db2))
  ∧ (schema_wf schema →
     eval (_updateConnection schema updateId1 objectId name page1) db1 = Ok tt).
Proof.
  intros Hreach Hup1.
  destruct (updateConnection_success _ _ _ _ _ _ _ Hreach Hup1)
    as (t & t1 & c & Ht & Ht1 & Htxn & Hinv & Hinv1 & Hreach1 & Hrun1 & Hsel & Hsel1).
  split.
  - intros Hup2.
    destruct (updateConnection_success _ _ _ _ _ _ _ Hreach1 Hup2)
      as (t1' & t2 & c1 & Ht1' & Ht2 & _ & _ & _ & _ & Hrun2 & Hsel1' & Hsel2).
    assert (t1' = t1) as -> by congruence.
    assert (c1 = updated_connection updateId1 page1 c) as -> by congruence.
    exists t, t2, c. split_and!; try done.
    + pose proof (updateConnection_children _ _ _ _ _ _ _ _ Hinv1 Hsel1 Hrun2) as H2.
      simpl in H2. rewrite H2.
      rewrite (updateConnection_children _ _ _ _ _ _ _ _ Hinv Hsel Hrun1).
      by rewrite <-app_assoc.
    + rewrite (getEndCursor_eq db2 t2) by done. by rewrite Hsel2.
  - intros Hwf.
    pose proof (reachable_inv _ _ Hreach1) as (Htxn1 & _).
    pose proof Hrun1 as (c0 & _ & Hu & _ & _ & _ & Hnodes)%updateConnection_ok;
      [|done].
    pose proof (updateConnection_connections _ _ _ _ _ _ _ _ Hsel Hrun1)
      as (Hupdates & _).
    pose proof (updateConnection_objects _ _ _ _ _ _ _ Hrun1) as Hprefix.
    destruct (registered_nodes_ok schema t t1 (nodes page1)) as [_ Hcons];
      [done..|].
    destruct (updateConnection_total schema updateId1 objectId name page1 t1
                (updated_connection updateId1 page1 c)) as [t2 Hrun2];
      try done.
    + by rewrite Hupdates.
    + apply Forall_forall. intros node Hnode. unfold node_ok.
      by rewrite (Hnodes node Hnode).
    + unfold eval, _updateConnection.
      rewrite (_inTransaction_on_tables _ db1 t1) by done. by rewrite Hrun2.
Qed.

Lemma updateConnection_pages_accumulate_witness :
  eval (_updateConnection githubSchema 1 "R" "issues" two_issues) ingested_db
    = Ok tt.
Proof.
  destruct (updateConnection_pages_accumulate githubSchema rowR_db ingested_db
              ingested_db 1 1 "R" "issues" two_issues two_issues
              reachable_rowR_db) as [_ Hagain].
  - vm_compute. reflexivity.
  - apply Hagain. compute_done.
Defined.

(** X20. In a database of a mirror, [findOutdated] returns no object and
    no connection twice: the ids of the objects are distinct, and so are the
    pairs of id and field name of the connections. *)
Theorem findOutdated_no_duplicates (schema : Schema) (db : Database) (since : Z) :
  schema_wf schema → reachable schema db →
  ∃ r, findOutdated since db = (Ok r, db)
    ∧ NoDup (id_ <$> outdated_objects r)
    ∧ NoDup (outdated_connections r)
    ∧ ∀ row1 row2, row1 ∈ outdated_connections r → row2 ∈ outdated_connections r →
        oc_id row1 = oc_id row2 → oc_fieldname row1 = oc_fieldname row2 →
        row1 = row2.
Proof.
  intros Hwf Hreach.
  pose proof (reachable_inv _ _ Hreach) as (Htxn & _ & t & Ht & Hinv).
  destruct (reachable_never_updated _ _ Hreach) as (t0 & Ht0 & Hnull).
  assert (t0 = t) as -> by congruence.
  eexists. split; [by apply findOutdated_eq|]. simpl.
  assert (∀ row1 row2,
            row1 ∈ select_outdated_connections since t →
            row2 ∈ select_outdated_connections since t →
            oc_id row1 = oc_id row2 → oc_fieldname row1 = oc_fieldname row2 →
            row1 = row2) as Hkey.
  { intros row1 row2
      (o1 & c1 & Ho1 & Hc1 & Hid1 & -> & _)%select_outdated_connections_elem
      (o2 & c2 & Ho2 & Hc2 & Hid2 & -> & _)%select_outdated_connections_elem.
    simpl. intros Hid Hname.
    assert (o1 = o2) as ->.
    { by apply (NoDup_fmap_eq object_id_ (objects t)); [apply Hinv|..]. }
    assert (c1 = c2) as ->; [|done].
    eapply connection_unique; try done. congruence. }
  split_and!; [| |done].
  - rewrite select_outdated_objects_null by done.
    rewrite <-list_fmap_compose.
    apply (inv_object_ids _ _ Hinv).
  - unfold select_outdated_connections.
    pose proof (inv_object_ids _ _ Hinv) as Hids.
    pose proof (inv_connection_rowids _ _ Hinv) as Hrowids.
    unfold objects_never_updated in Hnull. rewrite Forall_forall in Hnull.
    apply NoDup_bind.
    + intros o1 o2 row Ho1 Ho2
        (c1 & (u1 & Hrow1 & _)%list_elem_of_bind & _)%list_elem_of_bind
        (c2 & (u2 & Hrow2 & _)%list_elem_of_bind & _)%list_elem_of_bind.
      destruct (Sql.holds _); [|by apply not_elem_of_nil in Hrow1].
      destruct (Sql.holds _); [|by apply not_elem_of_nil in Hrow2].
      apply list_elem_of_singleton in Hrow1, Hrow2. subst row.
      injection Hrow2 as _ Hid _ _.
      by apply (NoDup_fmap_eq object_id_ (objects t)).
    + intros o Ho. apply NoDup_bind.
      * intros c1 c2 row [Hid1 Hc1]%list_elem_of_filter
          [Hid2 Hc2]%list_elem_of_filter
          (u1 & Hrow1 & _)%list_elem_of_bind (u2 & Hrow2 & _)%list_elem_of_bind.
        destruct (Sql.holds _); [|by apply not_elem_of_nil in Hrow1].
        destruct (Sql.holds _); [|by apply not_elem_of_nil in Hrow2].
        apply list_elem_of_singleton in Hrow1, Hrow2. subst row.
        injection Hrow2 as Hname _.
        eapply connection_unique; try done. congruence.
      * intros c _. rewrite (Hnull o Ho), left_join_updates_None.
        simpl. destruct (Sql.holds _); [apply NoDup_singleton|apply NoDup_nil_2].
      * apply NoDup_filter. by eapply NoDup_fmap_1.
    + by eapply NoDup_fmap_1.
Qed.

Lemma findOutdated_no_duplicates_witness :
  ∃ r, findOutdated 0 ingested_db = (Ok r, ingested_db)
    ∧ NoDup (id_ <$> outdated_objects r)
    ∧ NoDup (outdated_connections r)
    ∧ ∀ row1 row2, row1 ∈ outdated_connections r → row2 ∈ outdated_connections r →
        oc_id row1 = oc_id row2 → oc_fieldname row1 = oc_fieldname row2 →
        row1 = row2.
Proof.
  apply (findOutdated_no_duplicates githubSchema ingested_db 0).
  - compute_done.
  - apply reachable_ingested_db.
Defined.

(** ** The rows fit together *)

Lemma registered_rows_inv schema o t t' :
  registered schema o t t' → rows_inv t → rows_inv t'.
Proof.
  intros [Hsel ->|fields rows Hsel Hget Hu Hl He Ho Hc Hrows Hnames Hnd]; [done|].
  intros [Hconn Hentries]. split.
  - rewrite Hc. apply Forall_app. split.
    + eapply Forall_impl; [exact Hconn|]. intros c. unfold connection_row_ok.
      by rewrite Hu.
    + eapply Forall_impl; [exact Hrows|]. intros c [_ Hnever].
      unfold connection_row_ok. pose proof Hnever as [Hlast _]. by rewrite Hlast.
  - rewrite He. eapply Forall_impl; [exact Hentries|].
    intros e [(c & Hcin & Hrow & Hfetched) Hchild]. split.
    + exists c. rewrite Hc, elem_of_app. eauto.
    + rewrite Ho, fmap_app, elem_of_app. by left.
Qed.

Lemma insert_entry_rows_inv cid index child t t' :
  insert_entry cid index child t = Ok (tt, t') →
  (∃ c, c ∈ connections t ∧ connection_rowid c = cid ∧ is_Some (last_update c)) →
  rows_inv t → rows_inv t'.
Proof.
  unfold insert_entry. case_decide; [done|]. case_decide as Hfk; [|done].
  intros [= <-] Hc [Hconn Hentries]. split; simpl; [done|].
  apply Forall_app. split; [done|]. apply Forall_singleton.
  split; simpl; [done|]. by destruct Hfk.
Qed.

Lemma add_entries_rows_inv schema cid nodes next t t' :
  add_entries schema cid nodes next t = (Ok tt, t') →
  (∃ c, c ∈ connections t ∧ connection_rowid c = cid ∧ is_Some (last_update c)) →
  rows_inv t → rows_inv t'.
Proof.
  revert next t. induction nodes as [|node nodes IH]; intros next t.
  - by intros [= <-].
  - rewrite add_entries_cons.
    destruct (_nontransactionallyRegisterObject _ _ _) as [[[]|e] t1] eqn:Hreg; [|done].
    apply register_ok in Hreg.
    destruct (insert_entry _ _ _ _) as [[[] t2]|e] eqn:Hins; [|done].
    intros Hrest (c & Hc & Hrow & Hfetched) Hinv.
    assert (∃ c, c ∈ connections t1 ∧ connection_rowid c = cid
                 ∧ is_Some (last_update c)) as Hc1.
    { apply registered_extends in Hreg as [[_ _ _ (more & -> & _)] _].
      exists c. rewrite elem_of_app. eauto. }
    eapply IH; [exact Hrest| |].
    + unfold insert_entry in Hins. repeat case_decide; try done.
      by injection Hins as <-.
    + eapply insert_entry_rows_inv; [done..|]. by eapply registered_rows_inv.
Qed.

Lemma update_connection_rows_inv cid u tc (hnp : bool) ec t :
  cid ∈ connection_rowid <$> connections t →
  u ∈ update_rowid <$> updates t →
  rows_inv t →
  let t1 := mkTables (updates t) (objects t) (links t)
              (update_connection_row cid u tc (if hnp then 1 else 0) ec
                 <$> connections t)
              (connection_entries t) in
  rows_inv t1
  ∧ ∃ c, c ∈ connections t1 ∧ connection_rowid c = cid ∧ is_Some (last_update c).
Proof.
  intros (c & -> & Hc)%list_elem_of_fmap Hu [Hconn Hentries]. simpl. split; [split|].
  - simpl. apply Forall_fmap. eapply Forall_impl; [exact Hconn|].
    intros c'. unfold update_connection_row, connection_row_ok. simpl.
    case_decide; [|done]. simpl. intros _. split; [done|]. split; [eauto|].
    destruct hnp; eauto.
  - simpl. eapply Forall_impl; [exact Hentries|].
    intros e [(c' & Hc' & Hrow & Hfetched) Hchild]. split; [|done].
    exists (update_connection_row (connection_rowid c) u tc
              (if hnp then 1 else 0) ec c').
    split; [by apply list_elem_of_fmap_2|].
    rewrite update_connection_row_rowid. split; [done|].
    unfold update_connection_row. case_decide; [simpl; eauto|done].
  - exists (update_connection_row (connection_rowid c) u tc
              (if hnp then 1 else 0) ec c).
    split; [by apply list_elem_of_fmap_2|].
    rewrite update_connection_row_rowid. split; [done|].
    unfold update_connection_row. rewrite decide_True by done. simpl. eauto.
Qed.

Lemma updateConnection_rows_inv schema u oid name qr t t' :
  tables_inv schema t →
  _nontransactionallyUpdateConnection schema u oid name qr t = (Ok tt, t') →
  rows_inv t → rows_inv t'.
Proof.
  intros Hinv Hup Hrows.
  pose proof Hup as (c & Hsel & Hu & _)%updateConnection_ok; [|done].
  pose proof (select_connection_Some _ _ _ _ Hsel) as (Hc & _).
  revert Hup. rewrite (updateConnection_known _ _ _ _ _ _ _ Hsel).
  destruct (update_connection _ _ _ _ _ _) as [[[] t1]|e] eqn:Hup; [|done].
  apply (update_connection_ok schema) in Hup as (-> & _ & _).
  destruct (update_connection_rows_inv (connection_rowid c) u (totalCount qr)
              (hasNextPage (pageInfo qr)) (endCursor (pageInfo qr)) t)
    as [Hrows1 Hc1]; [by apply list_elem_of_fmap_2|done..|].
  intros Hloop. by eapply add_entries_rows_inv.
Qed.

Lemma reachable_rows_inv schema db :
  reachable schema db → ∃ t, tables (store db) = Some t ∧ rows_inv t.
Proof.
  induction 1 as [Hok|db db' Hreach (t & Ht & Hrows) Hstep].
  - pose proof (reachable_inv schema _ (reachable_new schema Hok))
      as (_ & _ & t & Ht & _).
    revert Hok Ht. unfold eval, exec, constructor, _initialize.
    rewrite initialize_at_eq by done. simpl.
    destruct (for_of schema create_own_data_table _) as [[[]|e] s'] eqn:Hloop; [|done].
    apply create_own_data_tables_frame in Hloop as [_ Htables]. simpl in *.
    intros _ Ht. exists no_rows. split; [congruence|].
    split; by apply Forall_nil.
  - pose proof (reachable_inv _ _ Hreach) as (Htxn & Hblob & t0 & Ht0 & Hinv).
    assert (t0 = t) as -> by congruence.
    destruct Hstep as [|o|ts|since|oid name|u oid name qr]; unfold exec.
    + rewrite constructor_same by done. eauto.
    + unfold registerObject. rewrite (_inTransaction_on_tables _ db t) by done.
      destruct (_nontransactionallyRegisterObject schema o t) as [[[]|e] t'] eqn:Hreg;
        [|eauto].
      exists t'. split; [done|]. eapply registered_rows_inv; [|done].
      by apply register_ok.
    + rewrite (createUpdate_eq db t) by done. simpl. eexists. split; [done|].
      destruct Hrows as [Hconn Hentries]. split; simpl; [|done].
      eapply Forall_impl; [exact Hconn|]. intros c. unfold connection_row_ok.
      simpl. destruct (last_update c); [|done].
      intros (? & ? & ?). split; [|done]. rewrite fmap_app, elem_of_app. by left.
    + rewrite (findOutdated_eq db t) by done. eauto.
    + rewrite (getEndCursor_eq db t) by done.
      destruct (select_connection oid name t); eauto.
    + unfold _updateConnection. rewrite (_inTransaction_on_tables _ db t) by done.
      destruct (_nontransactionallyUpdateConnection schema u oid name qr t)
        as [[[]|e] t'] eqn:Hup; [|eauto].
      exists t'. split; [done|]. by eapply updateConnection_rows_inv.
Qed.

(** X21. In a database of a mirror, [total_count] and [has_next_page] of
    a connection are NULL exactly when its [last_update] is, the end cursor
    is NULL when it was never fetched, [has_next_page] is 0 or 1 otherwise,
    and [last_update] names an existing update. Every row of
    [connection_entries] belongs to a connection that was fetched, and its
    child is registered under an object type of the schema. *)
Theorem rows_are_consistent (schema : Schema) (db : Database) :
  reachable schema db →
  ∃ t, tables (store db) = Some t
    ∧ (∀ c, c ∈ connections t →
         (last_update c = None ↔ total_count c = None)
         ∧ (last_update c = None ↔ has_next_page c = None)
         ∧ (last_update c = None → end_cursor c = None)
         ∧ (has_next_page c = None ∨ has_next_page c = Some 0
            ∨ has_next_page c = Some 1)
         ∧ (∀ updateId, last_update c = Some updateId →
              updateId ∈ update_rowid <$> updates t))
    ∧ (∀ e, e ∈ connection_entries t →
         (∃ c, c ∈ connections t ∧ connection_rowid c = connection_id e
               ∧ last_update c ≠ None)
         ∧ ∃ T fields, select_typename (child_id e) t = Some T
             ∧ Js.get T schema = Some (OBJECT fields)).
Proof.
  intros Hreach. destruct (reachable_rows_inv _ _ Hreach) as (t & Ht & Hconn & Hentries).
  pose proof (reachable_inv _ _ Hreach) as (_ & _ & t0 & Ht0 & Hinv).
  assert (t0 = t) as -> by congruence.
  exists t. split; [done|]. split.
  - intros c Hc. rewrite Forall_forall in Hconn. specialize (Hconn c Hc).
    unfold connection_row_ok in Hconn.
    destruct (last_update c) as [u|].
    + destruct Hconn as (Hu & [n Hn] & Hnext). rewrite Hn.
      split_and!; try done.
      * split; [done|]. destruct Hnext as [-> | ->]; done.
      * destruct Hnext as [-> | ->]; eauto.
      * by intros u' [= <-].
    + destruct Hconn as (_ & -> & -> & ->). split_and!; try done. by left.
  - intros e He. rewrite Forall_forall in Hentries.
    destruct (Hentries e He) as [(c & Hc & Hrow & [u Hu]) Hchild]. split.
    + exists c. split_and!; try done. by rewrite Hu.
    + apply list_elem_of_fmap in Hchild as (o & -> & Ho).
      destruct (inv_connection_fields _ _ Hinv o Ho) as (fields & Hget & _).
      exists (object_typename o), fields. split; [|done].
      apply select_typename_elem; [apply Hinv|done].
Qed.

Lemma rows_are_consistent_witness :
  ∃ c, c ∈ connections ingested_tables ∧ connection_rowid c = 1
       ∧ last_update c ≠ None.
Proof.
  destruct (rows_are_consistent githubSchema ingested_db reachable_ingested_db)
    as (t & Ht & _ & Hentries).
  assert (t = ingested_tables) as ->.
  { assert (tables (store ingested_db) = Some ingested_tables) as Ht'
      by reflexivity.
    congruence. }
  destruct (Hentries (mkEntry 1 1 1 "i1")) as [Hc _]; [left|]. exact Hc.
Defined.

(** ** The constructor on a new database *)

Lemma primitive_field_names_inv fields acc s names s' :
  primitive_field_names fields acc s = (Ok names, s') →
  names = acc ++ primitive_names fields
  ∧ Forall (λ f, isSqlSafe f) (primitive_names fields).
Proof.
  revert acc. unfold primitive_names.
  induction fields as [|[f ft] fields IH]; intros acc; simpl.
  - intros [= <- _]. by rewrite app_nil_r.
  - rewrite filter_cons. simpl. destruct ft; simpl; try apply IH.
    destruct (isSqlSafe f) eqn:Hf; simpl; [|done].
    intros [-> Hall]%IH. rewrite <-app_assoc. split; [done|].
    apply Forall_cons. split; [by apply Is_true_true|done].
Qed.


Lemma create_own_data_tables_inv (schema : Schema) s s' :
  for_of schema create_own_data_table s = (Ok tt, s') →
  Forall object_type_ok (object_types schema)
  ∧ data_tables s' = data_tables s ++ layout schema
  ∧ (NoDup (Sql.fold_case <$> (data_tables s).*1) →
     NoDup (Sql.fold_case <$> (data_tables s').*1)).
Proof.
  revert s. induction schema as [|[T [fields|clauses]] schema IH]; intros s.
  - intros [= <-]. split; [by apply Forall_nil|]. split; [by rewrite app_nil_r|done].
  - change (object_types ((T, OBJECT fields) :: schema))
      with ((T, fields) :: object_types schema).
    change (layout ((T, OBJECT fields) :: schema))
      with (data_table (T, fields) :: layout schema).
    simpl. unfold mbind at 1, SE_bind at 1, create_own_data_table. simpl.
    destruct (isSqlSafe T) eqn:HT; [|done]. simpl.
    unfold mbind at 1, SE_bind at 1.
    destruct (primitive_field_names fields [] s) as [[names|e] s1] eqn:Hnames;
      [|done].
    pose proof (primitive_field_names_frame _ _ _ _ _ Hnames) as ->.
    apply primitive_field_names_inv in Hnames as [-> Hsafe]. simpl.
    unfold run, create_data_table.
    case_decide as Hname; [done|]. case_decide as Hcols; [|done].
    intros (Hok & Hd & Hnd)%IH. simpl in *. split_and!.
    + apply Forall_cons. split; [|done]. split_and!; [by apply Is_true_true|done..].
    + by rewrite Hd, <-app_assoc.
    + intros Hnd0. apply Hnd. rewrite fmap_app, fmap_app. simpl.
      apply NoDup_app. split; [done|]. split; [|apply NoDup_singleton].
      intros x Hx ->%list_elem_of_singleton. done.
  - change (object_types ((T, UNION clauses) :: schema))
      with (object_types schema).
    change (layout ((T, UNION clauses) :: schema)) with (layout schema).
    simpl. unfold mbind, SE_bind. simpl. apply IH.
Qed.


Lemma constructor_fresh (schema : Schema) :
  constructor schema fresh =
    match for_of schema create_own_data_table
            (mkStore (Some [(0, schema_blob MIRROR_v1 schema)]) (Some no_rows) []) with
    | (Ok _, s') => (Ok tt, mkDatabase s' None)
    | (Throw e, _) => (Throw e, fresh)
    end.
Proof. unfold constructor, _initialize. by rewrite initialize_at_eq. Qed.

Lemma layout_ok_fresh (schema : Schema) :
  layout_ok schema →
  constructor schema fresh =
    (Ok tt, mkDatabase (mkStore (Some [(0, schema_blob MIRROR_v1 schema)])
                                (Some no_rows) (layout schema)) None).
Proof.
  intros [Hok Hnd]. rewrite constructor_fresh.
  rewrite create_own_data_tables_ok; simpl; [done..|].
  by apply layout_names_NoDup.
Qed.

Lemma layout_names (schema : Schema) :
  Sql.fold_case <$> (layout schema).*1
    = String.append "data_" <$> (Sql.fold_case <$> (object_types schema).*1).
Proof.
  unfold layout. rewrite <-!list_fmap_compose. apply list_fmap_ext.
  intros i [T fields] _. simpl. by rewrite fold_case_app.
Qed.

Lemma fresh_ok_layout (schema : Schema) :
  eval (constructor schema) fresh = Ok tt → layout_ok schema.
Proof.
  unfold eval. rewrite constructor_fresh.
  destruct (for_of schema create_own_data_table _) as [[[]|e] s'] eqn:Hloop; [|done].
  intros _. apply create_own_data_tables_inv in Hloop as (Hok & Hd & Hnd).
  split; [done|]. simpl in *. rewrite Hd in Hnd.
  specialize (Hnd (NoDup_nil_2)). rewrite layout_names in Hnd.
  by apply NoDup_fmap_1 in Hnd.
Qed.


Lemma isSqlSafe_app (a b : string) :
  isSqlSafe (a +:+ b) = isSqlSafe a && isSqlSafe b.
Proof.
  unfold isSqlSafe. induction a as [|c a IH]; [done|].
  change (list_ascii_of_string (String c a +:+ b))
    with (c :: list_ascii_of_string (a +:+ b)).
  simpl. rewrite IH. by destruct (sql_safe_char c).
Qed.

Lemma step_store schema db db' :
  mirror_inv schema db → step schema db db' →
  meta (store db') = meta (store db)
  ∧ data_tables (store db') = data_tables (store db).
Proof.
  intros (Htxn & Hblob & t & Ht & Hinv) Hstep.
  destruct Hstep as [|o|ts|since|oid name|u oid name qr]; unfold exec.
  - by rewrite constructor_same.
  - unfold registerObject. rewrite (_inTransaction_on_tables _ db t) by done.
    by destruct (_nontransactionallyRegisterObject schema o t) as [[[]|e] t'].
  - by rewrite (createUpdate_eq db t).
  - by rewrite (findOutdated_eq db t).
  - rewrite (getEndCursor_eq db t) by done.
    by destruct (select_connection oid name t).
  - unfold _updateConnection. rewrite (_inTransaction_on_tables _ db t) by done.
    by destruct (_nontransactionallyUpdateConnection schema u oid name qr t)
      as [[[]|e] t'].
Qed.

(** X23. In a database of a mirror, whatever calls were made: the handle is
    not in a transaction, [meta] holds the one row of the blob, and the
    own-data tables are those that the constructor created, one per object
    type, named [data_] and the type name, with the column [id] and the
    primitive fields in order; the names of these tables and columns hold
    no character outside [A-Za-z0-9_]. *)
Theorem mirror_store_layout (schema : Schema) (db : Database) :
  reachable schema db →
  txn db = None
  ∧ meta (store db) = Some [(0, schema_blob MIRROR_v1 schema)]
  ∧ data_tables (store db) = layout schema
  ∧ layout_ok schema
  ∧ Forall (λ table, isSqlSafe table.1 = true
                     ∧ Forall (λ column, isSqlSafe column = true) table.2)
      (data_tables (store db)).
Proof.
  intros Hreach.
  assert (layout_ok schema
          ∧ meta (store db) = Some [(0, schema_blob MIRROR_v1 schema)]
          ∧ data_tables (store db) = layout schema) as (Hok & Hmeta & Hdata).
  { induction Hreach as [Hnew|db db' Hreach (Hok & Hmeta & Hdata) Hstep].
    - pose proof (fresh_ok_layout _ Hnew) as Hok.
      unfold exec. by rewrite (layout_ok_fresh _ Hok).
    - destruct (step_store schema db db') as [-> ->];
        [by apply reachable_inv|done..]. }
  pose proof (reachable_inv _ _ Hreach) as (Htxn & _).
  split_and!; try done.
  rewrite Hdata. unfold layout. apply Forall_fmap, Forall_forall.
  intros [T fields] Hin. destruct Hok as [Hall _].
  rewrite Forall_forall in Hall. destruct (Hall _ Hin) as (HT & Hprims & _).
  simpl in *. split.
  - rewrite isSqlSafe_app. simpl. by apply Is_true_true.
  - apply Forall_cons. split; [done|].
    eapply Forall_impl; [exact Hprims|]. intros f. apply Is_true_true.
Qed.

Lemma mirror_store_layout_witness :
  data_tables (store favorite_db) = layout githubSchema.
Proof.
  destruct (mirror_store_layout githubSchema favorite_db reachable_favorite_db)
    as (_ & _ & Hdata & _).
  exact Hdata.
Defined.
